(** * Entity resolution core of the HubSpot scripts

    A shallow embedding of the deduplication engine of
    [scripts/hubspot/dedup.py] (identity normalisation, multi-key matching,
    grouping, keeper selection, field merge, merge-then-delete) and of the
    industry resolver of [scripts/hubspot/enrich.py], with the properties
    the specification states about them. *)

From Stdlib Require Import List ZArith NArith Lia Bool Arith PeanoNat.
From Stdlib Require Import String Ascii Relations.
Import ListNotations.

Set Implicit Arguments.
Local Open Scope list_scope.

(** ** Python values *)

(** A Python [str] is a sequence of Unicode code points. *)
Definition pystr := list N.

(** ASCII literal of the source as a [pystr]. *)
Definition py (s : string) : pystr :=
  map N_of_ascii (list_ascii_of_string s).

(** What a JSON field of a record holds: [null] / absent, or a string. *)
Inductive pyval :=
| PyNone
| PyStr (s : pystr).

Inductive exn :=
| AttributeError
| IndexError
| KeyError
| TypeError
| URLError
| TimeoutError
| JSONDecodeError.

Inductive result (A : Type) :=
| Ok (a : A)
| Raise (e : exn).
Arguments Ok {A} a.
Arguments Raise {A} e.

(** [x or ''] *)
Definition or_empty (v : pyval) : pystr :=
  match v with
  | PyNone => []
  | PyStr s => s
  end.

(** Truthiness of a [str]. *)
Definition nonempty (s : pystr) : bool :=
  match s with
  | [] => false
  | _ :: _ => true
  end.

(** ** Keys of dictionaries: decidable equality *)

Class BEq (A : Type) := {
  beq : A -> A -> bool;
  beq_eq : forall x y, beq x y = true <-> x = y
}.

#[export] Instance BEq_N : BEq N := {| beq := N.eqb; beq_eq := N.eqb_eq |}.
#[export] Instance BEq_Z : BEq Z := {| beq := Z.eqb; beq_eq := Z.eqb_eq |}.
#[export] Instance BEq_nat : BEq nat := {| beq := Nat.eqb; beq_eq := Nat.eqb_eq |}.
#[export] Instance BEq_string : BEq string :=
  {| beq := String.eqb; beq_eq := String.eqb_eq |}.

Fixpoint list_beq {A} `{BEq A} (l1 l2 : list A) : bool :=
  match l1, l2 with
  | [], [] => true
  | x :: t1, y :: t2 => beq x y && list_beq t1 t2
  | _, _ => false
  end.

Lemma list_beq_eq {A} `{BEq A} (l1 l2 : list A) :
  list_beq l1 l2 = true <-> l1 = l2.
Proof.
  revert l2; induction l1 as [|x t1 IH]; intros [|y t2]; simpl;
    try (split; [discriminate | congruence]); try tauto.
  rewrite andb_true_iff, beq_eq, IH. split.
  - intros [-> ->]; reflexivity.
  - intros E; inversion E; auto.
Qed.

#[export] Instance BEq_list {A} `{BEq A} : BEq (list A) :=
  {| beq := list_beq; beq_eq := list_beq_eq |}.

Definition mem {A} `{BEq A} (x : A) (l : list A) : bool := existsb (beq x) l.

(** ** The Unicode tables of the Python runtime

    [str.strip], [str.split], [str.lower] and the [re] module consult the
    interpreter's Unicode database.  The development is parametric in it;
    [ascii_tables] below is the instance used to run the functions on
    ASCII inputs. *)

Class Unicode := {
  (** [Py_UNICODE_ISSPACE]: [str.strip()], [str.split()], regex [\s] *)
  isspace : N -> bool;
  (** [Py_UNICODE_ISALNUM]: regex [\w] is [isalnum] or ['_'] *)
  isalnum : N -> bool;
  (** [str.lower()] *)
  lower : pystr -> pystr;
  lower_nil : lower [] = [];
  (** [re.IGNORECASE]: pattern literal [p] matches subject character [c] *)
  ieq : N -> N -> bool
}.

Definition in_range (lo hi c : N) : bool := ((lo <=? c) && (c <=? hi))%N.

Definition ascii_lower_char (c : N) : N :=
  if in_range 65 90 c then (c + 32)%N else c.

Definition unicode_whitespace : list N :=
  [9; 10; 11; 12; 13; 28; 29; 30; 31; 32; 133; 160; 5760;
   8192; 8193; 8194; 8195; 8196; 8197; 8198; 8199; 8200; 8201; 8202;
   8232; 8233; 8239; 8287; 12288]%N.

(** Exact on code points below 128. *)
#[export] Instance ascii_tables : Unicode := {|
  isspace c := mem c unicode_whitespace;
  isalnum c := in_range 48 57 c || in_range 65 90 c || in_range 97 122 c;
  lower := map ascii_lower_char;
  lower_nil := eq_refl;
  ieq p c := N.eqb (ascii_lower_char p) (ascii_lower_char c)
|}.

(** ** String methods *)

Section Strings.
Context {U : Unicode}.

Fixpoint dropwhile (p : N -> bool) (s : pystr) : pystr :=
  match s with
  | [] => []
  | c :: t => if p c then dropwhile p t else s
  end.

Fixpoint takewhile (p : N -> bool) (s : pystr) : pystr :=
  match s with
  | [] => []
  | c :: t => if p c then c :: takewhile p t else []
  end.

Definition lstrip_by (p : N -> bool) (s : pystr) : pystr := dropwhile p s.

Definition rstrip_by (p : N -> bool) (s : pystr) : pystr :=
  rev (dropwhile p (rev s)).

(** [s.strip()] *)
Definition strip (s : pystr) : pystr := rstrip_by isspace (lstrip_by isspace s).

(** [s.rstrip(chars)] *)
Definition rstrip (chars : pystr) (s : pystr) : pystr :=
  rstrip_by (fun c => mem c chars) s.

(** [s.split(sep)] for a one-character separator: never the empty list. *)
Fixpoint split_on (sep : N) (s : pystr) : list pystr :=
  match s with
  | [] => [[]]
  | c :: t =>
      if N.eqb c sep then [] :: split_on sep t
      else match split_on sep t with
           | [] => [[c]]
           | w :: ws => (c :: w) :: ws
           end
  end.

(** [s.split()]: the maximal runs of non-whitespace characters. *)
Fixpoint split_ws_go (cur : pystr) (s : pystr) : list pystr :=
  match s with
  | [] => if nonempty cur then [cur] else []
  | c :: t =>
      if isspace c
      then (if nonempty cur then [cur] else []) ++ split_ws_go [] t
      else split_ws_go (cur ++ [c]) t
  end.

Definition split_ws (s : pystr) : list pystr := split_ws_go [] s.

(** [sep.join(words)] *)
Fixpoint join (sep : pystr) (words : list pystr) : pystr :=
  match words with
  | [] => []
  | [w] => w
  | w :: ws => w ++ sep ++ join sep ws
  end.

(** [(v or '').strip()] *)
Definition stripped (v : pyval) : pystr := strip (or_empty v).

End Strings.

(** ** The fragment of [re] the patterns use *)

Inductive regex :=
| Eps
| Lit (c : N)                  (* a literal character *)
| CharSet (p : N -> bool)      (* a character class *)
| Cat (r1 r2 : regex)
| Alt (r1 r2 : regex)          (* r1|r2, r1 tried first *)
| Star (p : N -> bool)         (* greedy [...]* over a class *)
| WordB                        (* \b *)
| Nothing.                     (* the empty alternation: never matches *)

Definition Plus (p : N -> bool) : regex := Cat (CharSet p) (Star p).

Fixpoint Str (s : pystr) : regex :=
  match s with
  | [] => Eps
  | c :: t => Cat (Lit c) (Str t)
  end.

(** [(r1|r2|...|rn)], alternatives tried in order *)
Definition Alts (rs : list regex) : regex := fold_right Alt Nothing rs.

Section Regex.
Context {U : Unicode}.

(** [\w] *)
Definition isword (c : N) : bool := isalnum c || N.eqb c 95.

Definition opt_word (o : option N) : bool :=
  match o with
  | Some c => isword c
  | None => false
  end.

(** Greedy repetition of a class, then the continuation; gives back one
    character at a time when the continuation fails. *)
Fixpoint match_star (p : N -> bool) (prev : option N) (s : pystr)
         (k : option N -> pystr -> option pystr) : option pystr :=
  match s with
  | c :: t =>
      if p c then
        match match_star p (Some c) t k with
        | Some rest => Some rest
        | None => k prev s
        end
      else k prev s
  | [] => k prev s
  end.

(** Backtracking match of [r] at the head of [s]; [prev] is the character
    before the position, [k] the rest of the pattern; the result is the
    input left after the whole match. *)
Fixpoint rmatch (icase : bool) (r : regex) (prev : option N) (s : pystr)
         (k : option N -> pystr -> option pystr) : option pystr :=
  match r with
  | Eps => k prev s
  | Lit c =>
      match s with
      | x :: t => if (if icase then ieq c x else N.eqb c x)
                  then k (Some x) t else None
      | [] => None
      end
  | CharSet p =>
      match s with
      | x :: t => if p x then k (Some x) t else None
      | [] => None
      end
  | Cat r1 r2 =>
      rmatch icase r1 prev s (fun prev' s' => rmatch icase r2 prev' s' k)
  | Alt r1 r2 =>
      match rmatch icase r1 prev s k with
      | Some rest => Some rest
      | None => rmatch icase r2 prev s k
      end
  | Star p => match_star p prev s k
  | WordB =>
      if xorb (opt_word prev) (opt_word (hd_error s)) then k prev s else None
  | Nothing => None
  end.

(** Length of the match of [r] at the head of [s], if any. *)
Definition match_len (icase : bool) (r : regex) (prev : option N) (s : pystr)
  : option nat :=
  match rmatch icase r prev s (fun _ rest => Some rest) with
  | Some rest => Some (List.length s - List.length rest)
  | None => None
  end.

(** [re.sub(r, repl, s)]: leftmost non-overlapping matches, left to right.
    [skip] counts the characters of the current match still to be dropped.
    The patterns of this program match at least one character. *)
Fixpoint sub_go (icase : bool) (r : regex) (repl : pystr)
         (prev : option N) (s : pystr) (skip : nat) : pystr :=
  match s with
  | [] => []
  | c :: t =>
      match skip with
      | S n => sub_go icase r repl (Some c) t n
      | O =>
          match match_len icase r prev s with
          | Some (S n) => repl ++ sub_go icase r repl (Some c) t n
          | _ => c :: sub_go icase r repl (Some c) t 0
          end
      end
  end.

Definition re_sub (icase : bool) (r : regex) (repl : pystr) (s : pystr) : pystr :=
  sub_go icase r repl None s 0.

End Regex.

(** ** Python dictionaries

    A [dict] keeps its keys in insertion order, and the program iterates
    over several of them: an association list with at most one entry per
    key, updated in place. *)

Definition dict (K V : Type) := list (K * V).

Section Dict.
Context {K : Type} `{BEq K}.

Definition keys {V} (d : dict K V) : list K := map fst d.

(** [d.get(k)] *)
Fixpoint dget {V} (d : dict K V) (k : K) : option V :=
  match d with
  | [] => None
  | (k', v) :: t => if beq k k' then Some v else dget t k
  end.

(** [d[k] = v] *)
Fixpoint dset {V} (d : dict K V) (k : K) (v : V) : dict K V :=
  match d with
  | [] => [(k, v)]
  | (k', v') :: t => if beq k k' then (k', v) :: t else (k', v') :: dset t k v
  end.

(** [k in d] *)
Definition contains {V} (d : dict K V) (k : K) : bool :=
  match dget d k with
  | Some _ => true
  | None => false
  end.

(** [d.setdefault(k, []).append(x)] *)
Definition setdefault_append {V} (d : dict K (list V)) (k : K) (x : V)
  : dict K (list V) :=
  match dget d k with
  | Some l => dset d k (l ++ [x])
  | None => dset d k [x]
  end.

(** [d.update(d')] *)
Definition update {V} (d d' : dict K V) : dict K V :=
  fold_left (fun acc kv => dset acc (fst kv) (snd kv)) d' d.

(** The grouping loop
    [for x in xs: ...; if <usable>: d.setdefault(k, []).append(v)],
    where [kv x] is [Some (k, v)] when the guard lets [x] through. *)
Definition group_into {X V} (kv : X -> option (K * V)) (xs : list X)
           (d : dict K (list V)) : dict K (list V) :=
  fold_left (fun d x => match kv x with
                        | Some (k, v) => setdefault_append d k v
                        | None => d
                        end) xs d.

Definition group_by {X V} (kv : X -> option (K * V)) (xs : list X)
  : dict K (list V) := group_into kv xs [].

End Dict.

(** ** Identity normaliser ([dedup.py], [enrich.py]) *)

Definition comma_or_space {U : Unicode} (c : N) : bool := N.eqb c 44 || isspace c.

(** [\([^)]*\)] *)
Definition paren_re : regex :=
  Cat (Lit 40) (Cat (Star (fun c => negb (N.eqb c 41))) (Lit 41)).

(** [[®™]] *)
Definition glyph_re : regex :=
  CharSet (fun c => N.eqb c 174 || N.eqb c 8482).

(** [[,\s]+\b(s1|s2|...)\b[,\s]*] *)
Definition suffix_re {U : Unicode} (suffixes : list string) : regex :=
  Cat (Plus comma_or_space)
      (Cat WordB
           (Cat (Alts (map (fun s => Str (py s)) suffixes))
                (Cat WordB (Star comma_or_space)))).

Section NormalizeName.
Context {U : Unicode}.
Variable suffixes : list string.

Definition normalize_name_with (name : pystr) : pystr :=
  let name := strip (lower name) in
  let name := re_sub false paren_re [] name in
  let name := re_sub false glyph_re [] name in
  let name := re_sub true (suffix_re suffixes) (py " ") name in
  strip (join (py " ") (split_ws name)).
End NormalizeName.

(** ** [scripts/hubspot/dedup.py] *)

Module Dedup.

Definition FIELDS : list string :=
  ["email"; "jobtitle"; "company"; "industry"; "city"; "state"; "country";
   "hs_linkedin_url"; "phone"; "website";
   "linkedin_headline"; "school_name"; "school_degree";
   "previous_company_name"; "previous_company_position"; "job_location";
   "linkedin_company_slug"]%string.

Definition SUFFIXES : list string :=
  ["mba"; "phd"; "md"; "rn"; "bsn"; "cptc"; "lssbb"; "mha"; "fache"; "pmp";
   "cmrp"; "ctbs"; "dlm"; "ascp"; "cm"; "ms"; "cls"; "mt"; "mls"; "sbb";
   "rrt"; "lssgb"; "bs"; "jr"; "sr"; "iii"; "ii"; "do"; "ma"; "mpa";
   "msscm"; "cscp"; "cpm"; "csp"; "cpim"; "lcsw"; "cltd"; "ciiscm"; "msyl";
   "gms-t"; "crp"; "cftco"]%string.

(** A contact as the CRM returns it.  HubSpot object ids are canonical
    decimal strings; the model keeps their integer value, so [int(c['id'])]
    is the identity and equality of ids as dictionary keys is equality of
    integers.  A missing ['properties'] entry is the empty dictionary. *)
Record contact := {
  id : Z;
  properties : dict string pyval
}.

(** [p.get(f)] *)
Definition prop (c : contact) (f : string) : pyval :=
  match dget (properties c) f with
  | Some v => v
  | None => PyNone
  end.

Section WithUnicode.
Context {U : Unicode}.

(** [normalize_name] on a [str] argument. *)
Definition normalize_name (name : pystr) : pystr :=
  normalize_name_with SUFFIXES name.

(** [normalize_name] on any argument: [name.lower()] needs a [str]. *)
Definition normalize_name_dyn (name : pyval) : result pystr :=
  match name with
  | PyNone => Raise AttributeError
  | PyStr s => Ok (normalize_name s)
  end.

Definition normalize_url (url : pyval) : pystr :=
  let url := rstrip (py "/") (lower (strip (or_empty url))) in
  let url := rstrip (py "/") (nth 0 (split_on 63 url) []) in
  url.

(** [(p.get(f) or '').strip()] is truthy *)
Definition filled_in (c : contact) (f : string) : bool :=
  nonempty (stripped (prop c f)).

Definition score (c : contact) : nat * nat * nat :=
  let filled := List.length (filter (filled_in c) FIELDS) in
  let has_email := if filled_in c "email" then 1 else 0 in
  let has_linkedin := if filled_in c "hs_linkedin_url" then 1 else 0 in
  (has_email, has_linkedin, filled).

(** *** Multi-key matcher *)

(** [f'{fn} {ln}'.strip()] *)
Definition contact_name (c : contact) : pystr :=
  let fn := stripped (prop c "firstname") in
  let ln := stripped (prop c "lastname") in
  strip (fn ++ py " " ++ ln).

(** The key under which the first loop files a contact, if it does. *)
Definition name_entry (c : contact) : option (pystr * contact) :=
  let norm := normalize_name (contact_name c) in
  if nonempty norm && (2 <? List.length norm) then Some (norm, c) else None.

Definition url_entry (c : contact) : option (pystr * contact) :=
  let url := normalize_url (prop c "hs_linkedin_url") in
  if nonempty url then Some (url, c) else None.

Definition by_name (contacts : list contact) : dict pystr (list contact) :=
  group_by name_entry contacts.

Definition by_url (contacts : list contact) : dict pystr (list contact) :=
  group_by url_entry contacts.

(** *** Grouping: the closure variables of [find_duplicates] *)

Record groups_state := {
  contact_to_group : dict Z nat;
  group_counter : nat
}.

Definition get_group (cid : Z) (st : groups_state) : nat * groups_state :=
  match dget (contact_to_group st) cid with
  | Some g => (g, st)
  | None =>
      (group_counter st,
       {| contact_to_group := dset (contact_to_group st) cid (group_counter st);
          group_counter := S (group_counter st) |})
  end.

(** [[get_group(cid) for cid in cids]] *)
Fixpoint get_groups (cids : list Z) (st : groups_state)
  : list nat * groups_state :=
  match cids with
  | [] => ([], st)
  | cid :: t =>
      let (g, st1) := get_group cid st in
      let (gs, st2) := get_groups t st1 in
      (g :: gs, st2)
  end.

(** [min(groups)]; the list is never empty where it is called. *)
Definition min_list (l : list nat) : nat :=
  match l with
  | [] => 0
  | x :: t => fold_left Nat.min t x
  end.

(** One step of [for cid in list(contact_to_group.keys())]. *)
Definition relabel (groups : list nat) (target : nat)
           (d : dict Z nat) (cid : Z) : dict Z nat :=
  match dget d cid with
  | Some g => if mem g groups then dset d cid target else d
  | None => d
  end.

Definition merge_groups (cids : list Z) (st : groups_state) : groups_state :=
  if List.length cids <=? 1 then st
  else
    let (groups, st1) := get_groups cids st in
    let target := min_list groups in
    let ctg := contact_to_group st1 in
    let ctg := fold_left (relabel groups target) (keys ctg) ctg in
    let ctg := fold_left (fun d cid => dset d cid target) cids ctg in
    {| contact_to_group := ctg; group_counter := group_counter st1 |}.

(** [for key, group in index.items(): if len(group) > 1: merge_groups(ids)] *)
Definition merge_index (index : dict pystr (list contact)) (st : groups_state)
  : groups_state :=
  fold_left (fun st kg =>
               if 1 <? List.length (snd kg)
               then merge_groups (map id (snd kg)) st
               else st) index st.

Definition initial_state : groups_state :=
  {| contact_to_group := []; group_counter := 0 |}.

(** [{c['id']: c for c in contacts}] *)
Definition contacts_by_id (contacts : list contact) : dict Z contact :=
  fold_left (fun d c => dset d (id c) c) contacts [].

(** [contacts_by_id[cid]] under its group; every key of [contact_to_group]
    is the id of a contact, so the lookup does not fail. *)
Definition group_entry (by_id : dict Z contact) (e : Z * nat)
  : option (nat * contact) :=
  match dget by_id (fst e) with
  | Some c => Some (snd e, c)
  | None => None
  end.

Definition grouped (contacts : list contact) : groups_state :=
  merge_index (by_url contacts) (merge_index (by_name contacts) initial_state).

Definition find_duplicates (contacts : list contact) : dict nat (list contact) :=
  let st := grouped contacts in
  let final_groups :=
    group_by (group_entry (contacts_by_id contacts)) (contact_to_group st) in
  filter (fun gg => 1 <? List.length (snd gg)) final_groups.

(** *** Keeper selection *)

Definition score_compare (s1 s2 : nat * nat * nat) : comparison :=
  let '(e1, l1, f1) := s1 in
  let '(e2, l2, f2) := s2 in
  match Nat.compare e1 e2 with
  | Eq => match Nat.compare l1 l2 with
          | Eq => Nat.compare f1 f2
          | c => c
          end
  | c => c
  end.

(** [(score(c), -int(c['id']))] *)
Definition sort_key (c : contact) : (nat * nat * nat) * Z :=
  (score c, (- id c)%Z).

(** Order of the tuples [(score, -id)]. *)
Definition key_compare (k1 k2 : (nat * nat * nat) * Z) : comparison :=
  match score_compare (fst k1) (fst k2) with
  | Eq => Z.compare (snd k1) (snd k2)
  | c => c
  end.

(** [x] goes in front of the first element whose key is not greater. *)
Fixpoint insert_desc (x : contact) (l : list contact) : list contact :=
  match l with
  | [] => [x]
  | y :: t =>
      match key_compare (sort_key y) (sort_key x) with
      | Gt => y :: insert_desc x t
      | _ => x :: l
      end
  end.

(** [group.sort(key=..., reverse=True)]: the stable sort by descending key
    (elements with equal keys keep their order). *)
Definition sort_group (group : list contact) : list contact :=
  fold_right insert_desc [] group.

(** *** Field merger *)

(** One step of [for f in FIELDS] for the duplicate [dup]. *)
Definition merge_field (keeper dup : contact)
           (merge_updates : dict string pystr) (f : string) : dict string pystr :=
  if negb (filled_in keeper f) && filled_in dup f && negb (contains merge_updates f)
  then dset merge_updates f (stripped (prop dup f))
  else merge_updates.

(** The dictionary [merge_updates] that [process_duplicates] builds. *)
Definition merge_updates (keeper : contact) (to_delete : list contact)
  : dict string pystr :=
  fold_left (fun mu dup => fold_left (merge_field keeper dup) FIELDS mu)
            to_delete [].

(** *** Applying the merge: the calls to the CRM

    [hs_request] is the only effect that matters here; printing and
    [time.sleep] are left out.  A run is a function of the calls made so
    far, which it extends; [group[0]] on an empty group raises, and so does
    a request that fails other than by an HTTP error status. *)

Inductive request :=
| PATCH (cid : Z) (props : dict string pystr)
| DELETE (cid : Z).

(** How a call of [hs_request] ends.  It returns the parsed body of the
    response, or [None] after an [HTTPError], the only exception it
    catches: [Returns b] with [b] the truth value of what is returned, as
    [if result:] reads it.  Or it raises what [urlopen], [decode] or
    [json.loads] raised: no connection, a timeout, a body that is not
    JSON. *)
Inductive answer :=
| Returns (result : bool)
| Raises (e : exn).

(** A call and how it ended. *)
Definition call : Type := request * answer.

Definition io (A : Type) : Type := list call -> result A * list call.

Definition ret {A} (a : A) : io A := fun tr => (Ok a, tr).

Definition raise {A} (e : exn) : io A := fun tr => (Raise e, tr).

Definition bind {A B} (m : io A) (k : A -> io B) : io B :=
  fun tr =>
    match m tr with
    | (Ok a, tr') => k a tr'
    | (Raise e, tr') => (Raise e, tr')
    end.

Notation "x <- m ;; k" := (bind m (fun x => k))
  (at level 61, m at next level, right associativity).

(** A [for] loop that updates local variables [acc]. *)
Fixpoint for_each {X A} (body : A -> X -> io A) (xs : list X) (acc : A) : io A :=
  match xs with
  | [] => ret acc
  | x :: t => acc' <- body acc x ;; for_each body t acc'
  end.

Section Process.
(** The CRM and the network: how a request ends, given the calls before
    it. *)
Variable server : list call -> request -> answer.

Definition hs_request (req : request) : io bool :=
  fun tr =>
    match server tr req with
    | Returns result => (Ok result, tr ++ [(req, Returns result)])
    | Raises e => (Raise e, tr ++ [(req, Raises e)])
    end.

(** [sorted(dupes.items())]: by ascending group id. *)
Fixpoint insert_gid (x : nat * list contact) (l : list (nat * list contact))
  : list (nat * list contact) :=
  match l with
  | [] => [x]
  | y :: t => if fst y <? fst x then y :: insert_gid x t else x :: l
  end.

Definition sorted_items (dupes : dict nat (list contact))
  : list (nat * list contact) :=
  fold_right insert_gid [] dupes.

(** The body of the loop over the groups; [totals] is
    [(total_merged, total_deleted)]. *)
Definition process_group (dry_run : bool) (totals : nat * nat)
           (group : list contact) : io (nat * nat) :=
  match sort_group group with
  | [] => raise IndexError
  | keeper :: to_delete =>
      let updates := merge_updates keeper to_delete in
      total_merged <-
        match updates with
        | [] => ret (fst totals)
        | _ :: _ =>
            _ <- (if dry_run then ret true
                  else hs_request (PATCH (id keeper) updates)) ;;
            ret (S (fst totals))
        end ;;
      total_deleted <-
        for_each (fun n dup =>
                    _ <- (if dry_run then ret true
                          else hs_request (DELETE (id dup))) ;;
                    ret (S n)) to_delete (snd totals) ;;
      ret (total_merged, total_deleted)
  end.

Definition process_duplicates (dupes : dict nat (list contact)) (dry_run : bool)
  : io (nat * nat) :=
  for_each (fun totals gg => process_group dry_run totals (snd gg))
           (sorted_items dupes) (0, 0).

End Process.

(** *** Cross-reference with the Master List *)

(** A profile of the Master List, as the audit script returns it. *)
Definition profile : Type := dict string pyval.

(** [p.get(f)] *)
Definition field (p : profile) (f : string) : pyval :=
  match dget p f with
  | Some v => v
  | None => PyNone
  end.

(** The body of the loop that fills [master_by_name] and [master_by_url]. *)
Definition master_step (acc : dict pystr profile * dict pystr profile)
           (p : profile) : dict pystr profile * dict pystr profile :=
  let name := stripped (field p "fullName") in
  let norm := normalize_name name in
  let master_by_name := if nonempty norm then dset (fst acc) norm p else fst acc in
  let url := normalize_url (field p "defaultProfileUrl") in
  let master_by_url := if nonempty url then dset (snd acc) url p else snd acc in
  (master_by_name, master_by_url).

(** The body of the loop that fills [in_master] and [not_in_master]. *)
Definition check_step (master : dict pystr profile * dict pystr profile)
           (acc : list contact * list contact) (c : contact)
  : list contact * list contact :=
  let norm := normalize_name (contact_name c) in
  let url := normalize_url (prop c "hs_linkedin_url") in
  let matched := contains (fst master) norm || contains (snd master) url in
  if matched then (fst acc ++ [c], snd acc) else (fst acc, snd acc ++ [c]).

(** [s.add(x)], a set being kept as the list of its elements. *)
Definition set_add (x : pystr) (s : list pystr) : list pystr :=
  if mem x s then s else s ++ [x].

(** The body of the loop that fills [hs_by_name] and [hs_by_url]. *)
Definition hs_step (acc : list pystr * list pystr) (c : contact)
  : list pystr * list pystr :=
  let norm := normalize_name (contact_name c) in
  let hs_by_name := if nonempty norm then set_add norm (fst acc) else fst acc in
  let url := normalize_url (prop c "hs_linkedin_url") in
  let hs_by_url := if nonempty url then set_add url (snd acc) else snd acc in
  (hs_by_name, hs_by_url).

(** [cross_reference], without its printing: the contacts that are not in
    the Master List and the profiles that are not in HubSpot. *)
Definition cross_reference (contacts : list contact)
           (master_profiles : list profile) : list contact * list profile :=
  let master := fold_left master_step master_profiles ([], []) in
  let checked := fold_left (check_step master) contacts ([], []) in
  let not_in_master := snd checked in
  let hs := fold_left hs_step contacts ([], []) in
  let master_not_in_hs :=
    filter (fun p =>
              let name := stripped (field p "fullName") in
              let norm := normalize_name name in
              let url := normalize_url (field p "defaultProfileUrl") in
              negb (mem norm (fst hs)) && negb (mem url (snd hs)))
           master_profiles in
  (not_in_master, master_not_in_hs).

End WithUnicode.

End Dedup.

(** ** [scripts/hubspot/enrich.py] *)

Module Enrich.

Definition SUFFIXES : list string :=
  ["mba"; "phd"; "md"; "rn"; "bsn"; "cptc"; "lssbb"; "mha"; "fache"; "pmp";
   "cmrp"; "ctbs"; "dlm"; "ascp"; "cm"; "ms"; "cls"; "mt"; "mls"; "sbb";
   "rrt"; "lssgb"; "bs"; "jr"; "sr"; "iii"; "ii"; "do"; "ma"; "mpa";
   "msscm"; "cscp"; "cpm"; "csp"; "cpim"]%string.

Definition normalize_name {U : Unicode} (name : pystr) : pystr :=
  normalize_name_with SUFFIXES name.

Definition normalize_name_dyn {U : Unicode} (name : pyval) : result pystr :=
  match name with
  | PyNone => Raise AttributeError
  | PyStr s => Ok (normalize_name s)
  end.

Definition HUBSPOT_INDUSTRY_ENUMS : list string :=
  ["ACCOUNTING"; "AIRLINES_AVIATION"; "ALTERNATIVE_DISPUTE_RESOLUTION";
   "ALTERNATIVE_MEDICINE"; "ANIMATION"; "APPAREL_FASHION";
   "ARCHITECTURE_PLANNING"; "ARTS_AND_CRAFTS"; "AUTOMOTIVE";
   "AVIATION_AEROSPACE"; "BANKING"; "BIOTECHNOLOGY"; "BROADCAST_MEDIA";
   "BUILDING_MATERIALS"; "BUSINESS_SUPPLIES_AND_EQUIPMENT";
   "CAPITAL_MARKETS"; "CHEMICALS"; "CIVIC_SOCIAL_ORGANIZATION";
   "CIVIL_ENGINEERING"; "COMMERCIAL_REAL_ESTATE";
   "COMPUTER_NETWORK_SECURITY"; "COMPUTER_GAMES"; "COMPUTER_HARDWARE";
   "COMPUTER_NETWORKING"; "COMPUTER_SOFTWARE"; "INTERNET"; "CONSTRUCTION";
   "CONSUMER_ELECTRONICS"; "CONSUMER_GOODS"; "CONSUMER_SERVICES";
   "COSMETICS"; "DAIRY"; "DEFENSE_SPACE"; "DESIGN"; "EDUCATION_MANAGEMENT";
   "E_LEARNING"; "ELECTRICAL_ELECTRONIC_MANUFACTURING"; "ENTERTAINMENT";
   "ENVIRONMENTAL_SERVICES"; "EVENTS_SERVICES"; "EXECUTIVE_OFFICE";
   "FACILITIES_SERVICES"; "FARMING"; "FINANCIAL_SERVICES"; "FINE_ART";
   "FISHERY"; "FOOD_BEVERAGES"; "FOOD_PRODUCTION"; "FUND_RAISING";
   "FURNITURE"; "GAMBLING_CASINOS"; "GLASS_CERAMICS_CONCRETE";
   "GOVERNMENT_ADMINISTRATION"; "GOVERNMENT_RELATIONS"; "GRAPHIC_DESIGN";
   "HEALTH_WELLNESS_AND_FITNESS"; "HIGHER_EDUCATION"; "HOSPITAL_HEALTH_CARE";
   "HOSPITALITY"; "HUMAN_RESOURCES"; "IMPORT_AND_EXPORT";
   "INDIVIDUAL_FAMILY_SERVICES"; "INDUSTRIAL_AUTOMATION";
   "INFORMATION_SERVICES"; "INFORMATION_TECHNOLOGY_AND_SERVICES";
   "INSURANCE"; "INTERNATIONAL_AFFAIRS";
   "INTERNATIONAL_TRADE_AND_DEVELOPMENT"; "INVESTMENT_BANKING";
   "INVESTMENT_MANAGEMENT"; "JUDICIARY"; "LAW_ENFORCEMENT"; "LAW_PRACTICE";
   "LEGAL_SERVICES"; "LEGISLATIVE_OFFICE"; "LEISURE_TRAVEL_TOURISM";
   "LIBRARIES"; "LOGISTICS_AND_SUPPLY_CHAIN"; "LUXURY_GOODS_JEWELRY";
   "MACHINERY"; "MANAGEMENT_CONSULTING"; "MARITIME"; "MARKET_RESEARCH";
   "MARKETING_AND_ADVERTISING"; "MECHANICAL_OR_INDUSTRIAL_ENGINEERING";
   "MEDIA_PRODUCTION"; "MEDICAL_DEVICES"; "MEDICAL_PRACTICE";
   "MENTAL_HEALTH_CARE"; "MILITARY"; "MINING_METALS";
   "MOTION_PICTURES_AND_FILM"; "MUSEUMS_AND_INSTITUTIONS"; "MUSIC";
   "NANOTECHNOLOGY"; "NEWSPAPERS"; "NON_PROFIT_ORGANIZATION_MANAGEMENT";
   "OIL_ENERGY"; "ONLINE_MEDIA"; "OUTSOURCING_OFFSHORING";
   "PACKAGE_FREIGHT_DELIVERY"; "PACKAGING_AND_CONTAINERS";
   "PAPER_FOREST_PRODUCTS"; "PERFORMING_ARTS"; "PHARMACEUTICALS";
   "PHILANTHROPY"; "PHOTOGRAPHY"; "PLASTICS"; "POLITICAL_ORGANIZATION";
   "PRIMARY_SECONDARY_EDUCATION"; "PRINTING";
   "PROFESSIONAL_TRAINING_COACHING"; "PROGRAM_DEVELOPMENT"; "PUBLIC_POLICY";
   "PUBLIC_RELATIONS_AND_COMMUNICATIONS"; "PUBLIC_SAFETY"; "PUBLISHING";
   "RAILROAD_MANUFACTURE"; "RANCHING"; "REAL_ESTATE";
   "RECREATIONAL_FACILITIES_AND_SERVICES"; "RELIGIOUS_INSTITUTIONS";
   "RENEWABLES_ENVIRONMENT"; "RESEARCH"; "RESTAURANTS"; "RETAIL";
   "SECURITY_AND_INVESTIGATIONS"; "SEMICONDUCTORS"; "SHIPBUILDING";
   "SPORTING_GOODS"; "SPORTS"; "STAFFING_AND_RECRUITING"; "SUPERMARKETS";
   "TELECOMMUNICATIONS"; "TEXTILES"; "THINK_TANKS"; "TOBACCO";
   "TRANSLATION_AND_LOCALIZATION"; "TRANSPORTATION_TRUCKING_RAILROAD";
   "UTILITIES"; "VENTURE_CAPITAL_PRIVATE_EQUITY"; "VETERINARY";
   "WAREHOUSING"; "WHOLESALE"; "WINE_AND_SPIRITS"; "WIRELESS";
   "WRITING_AND_EDITING"; "MOBILE_GAMES"]%string.

(** [v in HUBSPOT_INDUSTRY_SET] *)
Definition is_enum (v : pystr) : bool := mem v (map py HUBSPOT_INDUSTRY_ENUMS).

(** [map_industry]; [_cache] is the dictionary held in its default
    argument. *)
Definition map_industry (raw_industry : pyval) (_cache : dict pystr pystr)
  : pystr :=
  if negb (nonempty (or_empty raw_industry)) then []
  else if is_enum (or_empty raw_industry) then or_empty raw_industry
  else match dget _cache (or_empty raw_industry) with
       | Some v => v
       | None => []
       end.

(** A value that [json.loads] returns. *)
#[local] Unset Elimination Schemes.
Inductive json :=
| JNull
| JBool (b : bool)
| JNumber (literal : pystr)
| JString (s : pystr)
| JArray (items : list json)
| JObject (members : list (pystr * json)).
#[local] Set Elimination Schemes.

(** Whether [hash(v)] succeeds: a [list] and a [dict] cannot be hashed. *)
Definition hashable (v : json) : bool :=
  match v with
  | JArray _ | JObject _ => false
  | _ => true
  end.

(** What the classification request comes back with: the JSON object that
    the text of the reply parses to, or one of the two ways the function
    gives up before it has one ([Failed]: an exception inside the [try]
    before the validation loop, which includes a reply that is not an
    object). *)
Inductive reply :=
| NoApiKey
| Failed
| Mapping (mapping : dict pystr json).

(** The lines the functions print. *)
Inductive log_line :=
| WarnNoApiKey
| ErrorCalling
| WarnInvalidEnum (v : json) (k : pystr)
| WarnUnmapped (n : nat) (first5 : list pystr)
| InfoMapping (unique cached uncached : nat)
| InfoCalling (n : nat)
| InfoSaved (entries : nat).

(** The loop [for k, v in mapping.items()] with its warnings; the test
    [v in HUBSPOT_INDUSTRY_SET] raises [TypeError] on a value that cannot
    be hashed, which ends the loop. *)
Fixpoint validate_loop (mapping : dict pystr json)
         (validated : dict pystr pystr) (log : list log_line)
  : result (dict pystr pystr) * list log_line :=
  match mapping with
  | [] => (Ok validated, log)
  | (k, v) :: rest =>
      match v with
      | JString s =>
          if is_enum s then validate_loop rest (dset validated k s) log
          else validate_loop rest validated (log ++ [WarnInvalidEnum v k])
      | JArray _ | JObject _ => (Raise TypeError, log)
      | JNull | JBool _ | JNumber _ =>
          validate_loop rest validated (log ++ [WarnInvalidEnum v k])
      end
  end.

(** From [validated = {}] to [return validated], or to the handler of
    [except Exception], which prints and returns [{}]. *)
Definition validate (mapping : dict pystr json)
  : dict pystr pystr * list log_line :=
  match validate_loop mapping [] [] with
  | (Ok validated, log) => (validated, log)
  | (Raise _, log) => ([], log ++ [ErrorCalling])
  end.

Section Resolver.
(** The classification service, as a function of the batch sent. *)
Variable classifier : list pystr -> reply.
(** [set_order l] lists the elements of [set(l)] as a loop over the set
    visits them: the order in which a Python [set] is iterated is
    unspecified. *)
Variable set_order : list pystr -> list pystr.

Definition _ai_map_industries (raw_values : list pystr)
  : dict pystr pystr * list log_line :=
  match raw_values with
  | [] => ([], [])
  | _ :: _ =>
      match classifier raw_values with
      | NoApiKey => ([], [WarnNoApiKey])
      | Failed => ([], [ErrorCalling])
      | Mapping mapping => validate mapping
      end
  end.

(** [uncached[i:i+n] for i in range(0, len(uncached), n)] *)
Fixpoint chunks_go (fuel n : nat) (l : list pystr) : list (list pystr) :=
  match fuel with
  | O => []
  | S fuel' =>
      match l with
      | [] => []
      | _ :: _ => firstn n l :: chunks_go fuel' n (skipn n l)
      end
  end.

Definition chunks (n : nat) (l : list pystr) : list (list pystr) :=
  chunks_go (List.length l) n l.

(** One batch: classify, merge into [cache], report what stayed unmapped. *)
Definition resolve_batch (acc : dict pystr pystr * list log_line)
           (batch : list pystr) : dict pystr pystr * list log_line :=
  let (ai_results, warnings) := _ai_map_industries batch in
  let unmapped := filter (fun v => negb (contains ai_results v)) batch in
  (update (fst acc) ai_results,
   snd acc ++ [InfoCalling (List.length batch)] ++ warnings ++
     match unmapped with
     | [] => []
     | _ :: _ => [WarnUnmapped (List.length unmapped) (firstn 5 unmapped)]
     end).

(** The cache file and the dictionary inside [map_industry]. *)
Record caches := {
  on_disk : dict pystr pystr;
  in_memory : dict pystr pystr
}.

Definition resolve_industry_cache (raw_values : list pystr) (st : caches)
  : caches * list log_line :=
  match raw_values with
  | [] => (st, [])
  | _ :: _ =>
      let cache := on_disk st in
      let unique :=
        set_order (filter (fun v => nonempty v && negb (is_enum v)) raw_values) in
      let uncached := filter (fun v => negb (contains cache v)) unique in
      let summary :=
        InfoMapping (List.length unique)
                    (List.length unique - List.length uncached)
                    (List.length uncached) in
      let (cache', log) :=
        match uncached with
        | [] => (cache, [summary])
        | _ :: _ =>
            let (saved, lines) :=
              fold_left resolve_batch (chunks 50 uncached) (cache, [summary]) in
            (saved, lines ++ [InfoSaved (List.length saved)])
        end in
      ({| on_disk := cache'; in_memory := update (in_memory st) cache' |}, log)
  end.

End Resolver.

Section Lookups.
Context {U : Unicode}.

Definition parse_location (location_str : pystr) : pystr * pystr * pystr :=
  if negb (nonempty location_str) then ([], [], [])
  else
    let parts := map strip (split_on 44 location_str) in
    if 3 <=? List.length parts
    then (nth 0 parts [],
          nth (List.length parts - 2) parts [],
          nth (List.length parts - 1) parts [])
    else if List.length parts =? 2
    then (nth 0 parts [], nth 1 parts [], [])
    else (location_str, [], []).

(** A profile of the Master List or a row of the scraper's CSV file. *)
Definition profile : Type := dict string pyval.

(** [p.get(f)] *)
Definition field (p : profile) (f : string) : pyval :=
  match dget p f with
  | Some v => v
  | None => PyNone
  end.

(** [p.get(f, '')] inside an f-string: a missing key gives the empty
    string, the value [None] is written out. *)
Definition formatted (p : profile) (f : string) : pystr :=
  match dget p f with
  | None => []
  | Some PyNone => py "None"
  | Some (PyStr s) => s
  end.

Definition build_scraper_lookup (scraper_profiles : list profile)
  : dict pystr profile * dict pystr profile :=
  fold_left
    (fun acc p =>
       let name :=
         strip (formatted p "firstName" ++ py " " ++ formatted p "lastName") in
       let norm := normalize_name name in
       let by_name :=
         if nonempty norm && negb (contains (fst acc) norm)
         then dset (fst acc) norm p else fst acc in
       let url :=
         rstrip (py "/")
                (lower (strip (or_empty (field p "linkedinProfileUrl")))) in
       let by_url := if nonempty url then dset (snd acc) url p else snd acc in
       (by_name, by_url))
    scraper_profiles ([], []).

Definition build_master_lookup (synced unsynced : list profile)
  : dict pystr profile :=
  fold_left
    (fun lookup p =>
       let name := stripped (field p "fullName") in
       let norm := normalize_name name in
       if nonempty norm && negb (contains lookup norm)
       then dset lookup norm p else lookup)
    (synced ++ unsynced) [].

(** *** [compute_updates] *)

(** [not (props.get(f) or '').strip()] *)
Definition blank (props : profile) (f : string) : bool :=
  negb (nonempty (stripped (field props f))).

(** [p.get(f, '')] *)
Definition get_default (p : profile) (f : string) : pyval :=
  match dget p f with
  | Some v => v
  | None => PyStr []
  end.

(** [v.strip()] on any value. *)
Definition strip_dyn (v : pyval) : result pystr :=
  match v with
  | PyNone => Raise AttributeError
  | PyStr s => Ok (strip s)
  end.

(** [a or b or ''] *)
Definition first_truthy (a b : pyval) : pystr :=
  if nonempty (or_empty a) then or_empty a else or_empty b.

(** [if not (props.get(f) or '').strip() and m.get(k, '').strip():
       updates[f] = m[k].strip()] *)
Definition fill_strict (props m : profile) (f k : string)
           (updates : dict string pystr) : result (dict string pystr) :=
  if blank props f then
    match strip_dyn (get_default m k) with
    | Raise e => Raise e
    | Ok v => Ok (if nonempty v then dset updates f v else updates)
    end
  else Ok updates.

(** [if v and not (props.get(f) or '').strip(): updates[f] = v] *)
Definition fill (props : profile) (f : string) (v : pystr)
           (updates : dict string pystr) : dict string pystr :=
  if nonempty v && blank props f then dset updates f v else updates.

(** [if v and not (props.get(f) or '').strip() and f not in updates:
       updates[f] = v] *)
Definition fill_new (props : profile) (f : string) (v : pystr)
           (updates : dict string pystr) : dict string pystr :=
  if nonempty v && blank props f && negb (contains updates f)
  then dset updates f v else updates.

Section ComputeUpdates.
(** The dictionary inside [map_industry]. *)
Variable cache : dict pystr pystr.

(** The block under [if master_profile:]. *)
Definition master_updates (props m : profile) (updates : dict string pystr)
  : result (dict string pystr) :=
  match fill_strict props m "jobtitle" "jobTitle" updates with
  | Raise e => Raise e
  | Ok u1 =>
  match fill_strict props m "company" "company" u1 with
  | Raise e => Raise e
  | Ok u2 =>
  let u3 :=
    if blank props "industry" then
      let ind := strip (first_truthy (field m "adjIndustry") (field m "industry")) in
      if nonempty ind then dset u2 "industry"%string (map_industry (PyStr ind) cache)
      else u2
    else u2 in
  match fill_strict props m "hs_linkedin_url" "defaultProfileUrl" u3 with
  | Raise e => Raise e
  | Ok u4 =>
  let location := first_truthy (field m "bestLocation") (field m "location") in
  Ok (if nonempty location then
        let csc := parse_location location in
        fill props "city" (fst (fst csc))
             (fill props "country" (snd csc)
                   (fill props "state" (snd (fst csc)) u4))
      else u4)
  end end end.

(** The block under [if scraper_profile:]. *)
Definition scraper_updates (props s : profile) (updates : dict string pystr)
  : dict string pystr :=
  let u := fill props "email" (stripped (field s "professionalEmail")) updates in
  let u := fill_new props "jobtitle" (stripped (field s "linkedinJobTitle")) u in
  let u := fill_new props "company" (stripped (field s "companyName")) u in
  let scraper_industry := stripped (field s "companyIndustry") in
  let u :=
    if nonempty scraper_industry && blank props "industry"
       && negb (contains u "industry"%string)
    then dset u "industry"%string (map_industry (PyStr scraper_industry) cache)
    else u in
  let u := fill_new props "hs_linkedin_url"
                    (stripped (field s "linkedinProfileUrl")) u in
  let scraper_loc := stripped (field s "location") in
  let u :=
    if nonempty scraper_loc then
      let csc := parse_location scraper_loc in
      fill_new props "country" (snd csc)
               (fill_new props "state" (snd (fst csc)) u)
    else u in
  let u := fill props "linkedin_headline"
                (stripped (field s "linkedinHeadline")) u in
  let u := fill props "school_name" (stripped (field s "linkedinSchoolName")) u in
  let u := fill props "school_degree"
                (stripped (field s "linkedinSchoolDegree")) u in
  let u := fill props "previous_company_name"
                (stripped (field s "previousCompanyName")) u in
  let u := fill props "previous_company_position"
                (stripped (field s "linkedinPreviousJobTitle")) u in
  let u := fill props "job_location" (stripped (field s "linkedinJobLocation")) u in
  fill props "linkedin_company_slug"
       (stripped (field s "linkedinCompanySlug")) u.

(** Truthiness of a profile argument: [None] and the empty dictionary are
    false. *)
Definition given (p : option profile) : option profile :=
  match p with
  | Some (_ :: _) => p
  | _ => None
  end.

Definition compute_updates (hs_contact : Dedup.contact)
           (master_profile scraper_profile : option profile)
  : result (dict string pystr) :=
  let props := Dedup.properties hs_contact in
  match (match given master_profile with
         | Some m => master_updates props m []
         | None => Ok []
         end) with
  | Raise e => Raise e
  | Ok updates =>
      Ok (match given scraper_profile with
          | Some s => scraper_updates props s updates
          | None => updates
          end)
  end.

End ComputeUpdates.

End Lookups.

End Enrich.

(** * Properties *)

(** ** Equality tests and dictionaries *)

Lemma beq_refl {A} `{BEq A} (x : A) : beq x x = true.
Proof. apply beq_eq; reflexivity. Qed.

Lemma beq_neq {A} `{BEq A} (x y : A) : beq x y = false <-> x <> y.
Proof.
  rewrite <- beq_eq. destruct (beq x y); split; congruence.
Qed.

Lemma mem_In {A} `{BEq A} (x : A) (l : list A) : mem x l = true <-> In x l.
Proof.
  unfold mem. rewrite existsb_exists. split.
  - intros (y & Hy & E). apply beq_eq in E. subst; auto.
  - intros Hx. exists x. split; [auto | apply beq_refl].
Qed.

Lemma mem_not_In {A} `{BEq A} (x : A) (l : list A) : mem x l = false <-> ~ In x l.
Proof.
  rewrite <- mem_In. destruct (mem x l); split; congruence.
Qed.

Section DictLemmas.
Context {K : Type} `{BEq K}.

Section Lookup.
Context {V : Type}.
Implicit Types (d : dict K V) (k : K) (v : V).

Lemma dget_dset d k v k' :
  dget (dset d k v) k' = if beq k' k then Some v else dget d k'.
Proof.
  induction d as [|[k0 v0] t IH]; simpl.
  - reflexivity.
  - destruct (beq k k0) eqn:E; simpl.
    + apply beq_eq in E. subst k0.
      destruct (beq k' k); reflexivity.
    + rewrite IH. destruct (beq k' k0) eqn:E0; auto.
      destruct (beq k' k) eqn:E1; auto.
      apply beq_eq in E0, E1. subst. rewrite beq_refl in E. discriminate.
Qed.
Lemma dget_dset_eq d k v : dget (dset d k v) k = Some v.
Proof. rewrite dget_dset, beq_refl. reflexivity. Qed.
Lemma dget_dset_ne d k v k' : k' <> k -> dget (dset d k v) k' = dget d k'.
Proof.
  intros Hne. rewrite dget_dset.
  apply beq_neq in Hne. rewrite Hne. reflexivity.
Qed.
Lemma dget_In d k v : dget d k = Some v -> In (k, v) d.
Proof.
  induction d as [|[k0 v0] t IH]; simpl; [discriminate|].
  destruct (beq k k0) eqn:E.
  - apply beq_eq in E. intros [= ->]. subst. auto.
  - auto.
Qed.
Lemma dget_None d k : dget d k = None <-> ~ In k (keys d).
Proof.
  induction d as [|[k0 v0] t IH]; simpl; [tauto|].
  destruct (beq k k0) eqn:E.
  - apply beq_eq in E. subst. split; [discriminate | tauto].
  - apply beq_neq in E. rewrite IH. split; [intros ? [?|?]; congruence || tauto | tauto].
Qed.
Lemma dget_Some_key d k v : dget d k = Some v -> In k (keys d).
Proof.
  intros Hg. apply dget_In in Hg. unfold keys.
  change k with (fst (k, v)). apply in_map. assumption.
Qed.
Lemma In_dget d k v : NoDup (keys d) -> In (k, v) d -> dget d k = Some v.
Proof.
  induction d as [|[k0 v0] t IH]; simpl; [tauto|].
  intros Hnd [E|Hin].
  - inversion E; subst. rewrite beq_refl. reflexivity.
  - inversion Hnd as [|? ? Hk0 Hnd']; subst.
    destruct (beq k k0) eqn:E.
    + apply beq_eq in E. subst. exfalso. apply Hk0.
      change k0 with (fst (k0, v)). apply in_map. assumption.
    + auto.
Qed.
Lemma keys_dset d k v :
  keys (dset d k v) = if contains d k then keys d else keys d ++ [k].
Proof.
  unfold contains.
  induction d as [|[k0 v0] t IH]; simpl; [reflexivity|].
  destruct (beq k k0) eqn:E; simpl; [reflexivity|].
  rewrite IH. destruct (dget t k); reflexivity.
Qed.
Lemma NoDup_keys_dset d k v : NoDup (keys d) -> NoDup (keys (dset d k v)).
Proof.
  intros Hnd. rewrite keys_dset. unfold contains.
  destruct (dget d k) eqn:E; [assumption|].
  apply dget_None in E.
  apply NoDup_app; [assumption | repeat constructor; auto | ].
  intros x Hx [<-|[]]. contradiction.
Qed.
Lemma In_dset d k v k' v' :
  In (k', v') (dset d k v) -> In (k', v') d \/ v' = v.
Proof.
  induction d as [|[k0 v0] t IH]; simpl.
  - intros [E|[]]. inversion E. auto.
  - destruct (beq k k0); simpl.
    + intros [E|Hin]; [inversion E; auto | auto].
    + intros [E|Hin]; [auto | destruct (IH Hin); auto].
Qed.

End Lookup.

End DictLemmas.

(** ** String methods *)

Lemma takewhile_dropwhile (p : N -> bool) (s : pystr) :
  s = takewhile p s ++ dropwhile p s.
Proof.
  induction s as [|c t IH]; simpl; [reflexivity|].
  destruct (p c); simpl; congruence.
Qed.

Lemma takewhile_all (p : N -> bool) (s : pystr) :
  forall c, In c (takewhile p s) -> p c = true.
Proof.
  induction s as [|x t IH]; simpl; [tauto|].
  destruct (p x) eqn:E; simpl; [|tauto].
  intros c [<-|Hc]; auto.
Qed.

Lemma dropwhile_head (p : N -> bool) (s : pystr) :
  forall c t, dropwhile p s = c :: t -> p c = false.
Proof.
  induction s as [|x u IH]; simpl; [discriminate|].
  destruct (p x) eqn:E; [exact IH|].
  intros c t [= <- _]. exact E.
Qed.

(** [rstrip] cuts a run of stripped characters off the end, and what is
    left does not end in one. *)
Lemma rstrip_by_spec (p : N -> bool) (s : pystr) :
  exists tail,
    s = rstrip_by p s ++ tail
    /\ (forall c, In c tail -> p c = true)
    /\ (forall pre c, rstrip_by p s = pre ++ [c] -> p c = false).
Proof.
  unfold rstrip_by. exists (rev (takewhile p (rev s))). repeat split.
  - rewrite <- rev_app_distr, <- takewhile_dropwhile, rev_involutive. reflexivity.
  - intros c Hc. apply in_rev in Hc. eapply takewhile_all; eauto.
  - intros pre c E.
    apply (f_equal (@rev N)) in E. rewrite rev_involutive, rev_app_distr in E.
    simpl in E. eapply dropwhile_head; eauto.
Qed.

Lemma split_on_first (sep : N) (s : pystr) :
  nth 0 (split_on sep s) [] = takewhile (fun c => negb (N.eqb c sep)) s.
Proof.
  induction s as [|c t IH]; simpl; [reflexivity|].
  destruct (N.eqb c sep); simpl; [reflexivity|].
  destruct (split_on sep t); simpl in *; congruence.
Qed.

Lemma strip_nil {U : Unicode} : strip [] = [].
Proof. reflexivity. Qed.

(** ** C6: [normalize_name] applied to its own output *)

(** C6 (fails on the code).  The specification asks that normalising an
    already normalised name changes nothing.  Two suffixes in a row break
    it in both scripts: the match of [" mba "] takes the blank that the
    match of ["phd"] would need in front, so ["phd"] survives the first
    pass and is removed by the second. *)
Theorem normalize_name_not_idempotent :
  Dedup.normalize_name (py "John Smith MBA PhD") = py "john smith phd"
  /\ Dedup.normalize_name (py "john smith phd") = py "john smith"
  /\ Dedup.normalize_name (Dedup.normalize_name (py "John Smith MBA PhD"))
     <> Dedup.normalize_name (py "John Smith MBA PhD")
  /\ Enrich.normalize_name (Enrich.normalize_name (py "John Smith MBA PhD"))
     <> Enrich.normalize_name (py "John Smith MBA PhD").
Proof.
  repeat split; try (vm_compute; reflexivity); vm_compute; discriminate.
Qed.

(** ** C7: the URL key *)

(** C7 (counterexample).  The scheme is not stripped: the same profile
    under [http] and under [https] gets two different keys. *)
Lemma normalize_url_keeps_scheme :
  Dedup.normalize_url (PyStr (py "http://www.linkedin.com/in/jsmith"))
  <> Dedup.normalize_url (PyStr (py "https://www.linkedin.com/in/jsmith")).
Proof. vm_compute. discriminate. Qed.

(** C7 (amended).  For every argument, the key is a prefix of the trimmed,
    lowercased input (the scheme stays): what is cut off the end is a run of
    slashes followed by nothing or by the query string from its ['?'] on;
    the key holds no ['?'] and does not end in a slash. *)
Theorem normalize_url_spec {U : Unicode} (url : pyval) :
  exists slashes query,
    lower (strip (or_empty url)) = Dedup.normalize_url url ++ slashes ++ query
    /\ (forall c, In c slashes -> c = 47%N)
    /\ (query = [] \/ exists q, query = 63%N :: q)
    /\ ~ In 63%N (Dedup.normalize_url url)
    /\ (forall pre c, Dedup.normalize_url url = pre ++ [c] -> c <> 47%N).
Proof.
  unfold Dedup.normalize_url, rstrip.
  set (s := lower (strip (or_empty url))).
  set (sl := fun c : N => mem c (py "/")).
  assert (Hsl : forall c, sl c = true -> c = 47%N).
  { intros c Hc. apply mem_In in Hc. simpl in Hc. destruct Hc as [E|[]]. auto. }
  destruct (rstrip_by_spec sl s) as (t1 & E1 & Ht1 & _).
  rewrite split_on_first.
  set (s1 := rstrip_by sl s) in *.
  set (nq := fun c : N => negb (N.eqb c 63)).
  destruct (rstrip_by_spec sl (takewhile nq s1)) as (t2 & E2 & Ht2 & Hlast).
  set (key := rstrip_by sl (takewhile nq s1)) in *.
  assert (Hkey : ~ In 63%N key).
  { intros Hin. assert (Hq : nq 63%N = true).
    { apply (takewhile_all nq s1). rewrite E2. apply in_or_app. auto. }
    discriminate Hq. }
  assert (Hend : forall pre c, key = pre ++ [c] -> c <> 47%N).
  { intros pre c E ->. apply Hlast in E. discriminate E. }
  pose proof (takewhile_dropwhile nq s1) as E3.
  destruct (dropwhile nq s1) as [|c q] eqn:Ed.
  - exists (t2 ++ t1), []. repeat split; auto.
    + rewrite app_nil_r in *. rewrite E1, E3, E2 at 1.
      rewrite <- !app_assoc. reflexivity.
    + intros c Hc. apply in_app_or in Hc. destruct Hc; auto.
  - exists t2, (c :: q ++ t1). repeat split; auto.
    + rewrite E1, E3, E2 at 1. rewrite <- !app_assoc. reflexivity.
    + right. exists (q ++ t1).
      apply dropwhile_head in Ed. unfold nq in Ed.
      apply negb_false_iff, N.eqb_eq in Ed. subst c. reflexivity.
Qed.

Example normalize_url_example :
  Dedup.normalize_url (PyStr (py " HTTPS://www.LinkedIn.com/in/JSmith/?trk=a/b "))
  = py "https://www.linkedin.com/in/jsmith".
Proof. vm_compute. reflexivity. Qed.

(** ** C8: [None] and the empty string *)

(** C8 (counterexample).  [normalize_name(None)] raises: [None] has no
    [lower]. *)
Lemma normalize_name_None_raises :
  Dedup.normalize_name_dyn PyNone <> Ok []
  /\ Enrich.normalize_name_dyn PyNone <> Ok [].
Proof. split; discriminate. Qed.

(** C8 (amended).  [normalize_url] gives the empty key for [None] and for
    the empty string; [normalize_name] gives the empty key for the empty
    string, and takes strings only: on [None] it raises [AttributeError]
    (its callers pass [(x or '').strip()]). *)
Theorem normalizers_on_empty {U : Unicode} :
  Dedup.normalize_url PyNone = []
  /\ Dedup.normalize_url (PyStr []) = []
  /\ Dedup.normalize_name_dyn (PyStr []) = Ok []
  /\ Enrich.normalize_name_dyn (PyStr []) = Ok []
  /\ Dedup.normalize_name_dyn PyNone = Raise AttributeError
  /\ Enrich.normalize_name_dyn PyNone = Raise AttributeError.
Proof.
  unfold Dedup.normalize_url, Dedup.normalize_name_dyn, Enrich.normalize_name_dyn,
    Dedup.normalize_name, Enrich.normalize_name, normalize_name_with.
  simpl or_empty. rewrite strip_nil, !lower_nil.
  repeat split; reflexivity.
Qed.

(** ** C9: [map_industry] *)

Lemma is_enum_nonempty (s : pystr) : Enrich.is_enum s = true -> nonempty s = true.
Proof.
  destruct s as [|c t]; [|reflexivity].
  vm_compute. discriminate.
Qed.

(** C9 (counterexample).  The empty string is never looked up: with a cache
    that has it as a key, the answer is still the empty string. *)
Lemma map_industry_empty_key_ignored :
  dget [(py "", py "RETAIL")] (py "") = Some (py "RETAIL")
  /\ Enrich.map_industry (PyStr (py "")) [(py "", py "RETAIL")] <> py "RETAIL".
Proof. split; [reflexivity | vm_compute; discriminate]. Qed.

(** C9 (amended).  As a function of its argument and of the cache:
    an enum member is returned as it is, whatever the cache holds; a
    non-empty argument that is not an enum member and is a key of the cache
    gets the cached value; an argument that is neither gets the empty
    string; and so do [None] and the empty string, before any lookup. *)
Theorem map_industry_cases (raw : pyval) (cache : dict pystr pystr) :
  (Enrich.is_enum (or_empty raw) = true ->
     Enrich.map_industry raw cache = or_empty raw)
  /\ (Enrich.is_enum (or_empty raw) = false -> or_empty raw <> [] ->
      forall v, dget cache (or_empty raw) = Some v ->
                Enrich.map_industry raw cache = v)
  /\ (Enrich.is_enum (or_empty raw) = false ->
      dget cache (or_empty raw) = None ->
      Enrich.map_industry raw cache = [])
  /\ (or_empty raw = [] -> Enrich.map_industry raw cache = []).
Proof.
  unfold Enrich.map_industry. repeat split.
  - intros He. rewrite (is_enum_nonempty _ He), He. reflexivity.
  - intros He Hne v Hv. rewrite He, Hv.
    destruct (or_empty raw); [congruence | reflexivity].
  - intros He Hv. rewrite He, Hv.
    destruct (nonempty (or_empty raw)); reflexivity.
  - intros ->. reflexivity.
Qed.

Lemma map_industry_cases_witness :
  Enrich.map_industry (PyStr (py "Hospitals"))
    [(py "Hospitals", py "HOSPITAL_HEALTH_CARE")] = py "HOSPITAL_HEALTH_CARE"
  /\ Enrich.map_industry (PyStr (py "RETAIL"))
       [(py "RETAIL", py "BANKING")] = py "RETAIL"
  /\ Enrich.map_industry (PyStr (py "Hospitals")) [] = [].
Proof.
  destruct (map_industry_cases (PyStr (py "Hospitals"))
              [(py "Hospitals", py "HOSPITAL_HEALTH_CARE")]) as (_ & Hhit & _).
  destruct (map_industry_cases (PyStr (py "RETAIL"))
              [(py "RETAIL", py "BANKING")]) as (Henum & _).
  destruct (map_industry_cases (PyStr (py "Hospitals")) []) as (_ & _ & Hmiss & _).
  split; [|split].
  - apply Hhit; [vm_compute; reflexivity | discriminate | vm_compute; reflexivity].
  - apply Henum. vm_compute. reflexivity.
  - apply Hmiss; [vm_compute; reflexivity | reflexivity].
Defined.

(** ** C10: validation of the classifier's answers *)

Section Validation.

(** The string under which an entry with value [v] is kept, if it is. *)
Definition kept (v : Enrich.json) : option pystr :=
  match v with
  | Enrich.JString s => if Enrich.is_enum s then Some s else None
  | _ => None
  end.

Lemma validate_loop_step k v rest validated log :
  Enrich.hashable v = true ->
  Enrich.validate_loop ((k, v) :: rest) validated log
  = match kept v with
    | Some s => Enrich.validate_loop rest (dset validated k s) log
    | None => Enrich.validate_loop rest validated
                                   (log ++ [Enrich.WarnInvalidEnum v k])
    end.
Proof.
  destruct v as [| | |s| |]; cbn [Enrich.hashable]; try discriminate; intros _;
    cbn [Enrich.validate_loop kept]; try reflexivity.
  destruct (Enrich.is_enum s); reflexivity.
Qed.

Lemma validate_loop_hashable l validated log res log' :
  Enrich.validate_loop l validated log = (Ok res, log') ->
  Forall (fun kv => Enrich.hashable (snd kv) = true) l.
Proof.
  revert validated log. induction l as [|[k0 v0] t IH]; intros validated log H;
    [constructor|].
  assert (Hh : Enrich.hashable v0 = true).
  { destruct v0; try reflexivity; cbn [Enrich.validate_loop] in H;
      discriminate H. }
  constructor; [exact Hh|].
  rewrite (@validate_loop_step _ _ _ _ _ Hh) in H.
  destruct (kept v0); eapply IH; exact H.
Qed.

Lemma validate_loop_ok l validated log :
  Forall (fun kv => Enrich.hashable (snd kv) = true) l ->
  exists res log', Enrich.validate_loop l validated log = (Ok res, log').
Proof.
  intros Hl. revert validated log.
  induction Hl as [|[k0 v0] t Hh _ IH]; intros validated log.
  - cbn. eauto.
  - cbn [snd] in Hh. rewrite (@validate_loop_step _ _ _ _ _ Hh).
    destruct (kept v0); apply IH.
Qed.

Lemma validate_loop_raise l validated log :
  Exists (fun kv => Enrich.hashable (snd kv) = false) l ->
  exists log', Enrich.validate_loop l validated log = (Raise TypeError, log').
Proof.
  intros Hl. revert validated log.
  induction Hl as [[k0 v0] t Hh|[k0 v0] t _ IH]; intros validated log.
  - cbn [snd] in Hh. destruct v0; try discriminate Hh; cbn; eauto.
  - destruct (Enrich.hashable v0) eqn:Hh.
    + rewrite (@validate_loop_step _ _ _ _ _ Hh). destruct (kept v0); apply IH.
    + destruct v0; try discriminate Hh; cbn; eauto.
Qed.

Lemma validate_loop_other l validated log res log' k :
  Enrich.validate_loop l validated log = (Ok res, log') ->
  ~ In k (keys l) -> dget res k = dget validated k.
Proof.
  revert validated log. induction l as [|[k0 v0] t IH]; intros validated log H Hk.
  - cbn in H. inversion H; subst. reflexivity.
  - pose proof (@validate_loop_hashable _ _ _ _ _ H) as Hall.
    inversion Hall as [|? ? Hh _]; subst. cbn [snd] in Hh.
    rewrite (@validate_loop_step _ _ _ _ _ Hh) in H.
    assert (Hk' : ~ In k (keys t)) by (intros Hx; apply Hk; right; exact Hx).
    assert (Hne : k <> k0) by (intros ->; apply Hk; left; reflexivity).
    destruct (kept v0).
    + rewrite (IH _ _ H Hk'). apply dget_dset_ne. assumption.
    + apply (IH _ _ H Hk').
Qed.

Lemma validate_loop_get l validated log res log' k v :
  Enrich.validate_loop l validated log = (Ok res, log') ->
  NoDup (keys l) -> In (k, v) l ->
  dget res k = match kept v with
               | Some s => Some s
               | None => dget validated k
               end.
Proof.
  revert validated log. induction l as [|[k0 v0] t IH];
    intros validated log H Hnd Hin; [destruct Hin|].
  pose proof (@validate_loop_hashable _ _ _ _ _ H) as Hall.
  inversion Hall as [|? ? Hh _]; subst. cbn [snd] in Hh.
  rewrite (@validate_loop_step _ _ _ _ _ Hh) in H.
  cbn [keys map fst] in Hnd. inversion Hnd as [|? ? Hk0 Hnd']; subst.
  destruct Hin as [E|Hin].
  - inversion E; subst. destruct (kept v).
    + rewrite (@validate_loop_other _ _ _ _ _ _ H Hk0). apply dget_dset_eq.
    + apply (@validate_loop_other _ _ _ _ _ _ H Hk0).
  - assert (Hne : k <> k0).
    { intros ->. apply Hk0. change k0 with (fst (k0, v)). apply in_map.
      assumption. }
    destruct (kept v0).
    + rewrite (IH _ _ H Hnd' Hin). destruct (kept v); [reflexivity|].
      apply dget_dset_ne. assumption.
    + apply (IH _ _ H Hnd' Hin).
Qed.

Lemma validate_loop_log_mono l validated log w :
  In w log -> In w (snd (Enrich.validate_loop l validated log)).
Proof.
  revert validated log. induction l as [|[k0 v0] t IH]; intros validated log Hw;
    [assumption|].
  destruct (Enrich.hashable v0) eqn:Hh.
  - rewrite (@validate_loop_step _ _ _ _ _ Hh). destruct (kept v0).
    + apply IH. assumption.
    + apply IH. apply in_or_app. auto.
  - destruct v0; try discriminate Hh; assumption.
Qed.

Lemma validate_loop_warns l validated log res log' k v :
  Enrich.validate_loop l validated log = (Ok res, log') ->
  In (k, v) l -> kept v = None -> In (Enrich.WarnInvalidEnum v k) log'.
Proof.
  revert validated log. induction l as [|[k0 v0] t IH];
    intros validated log H Hin Hv; [destruct Hin|].
  pose proof (@validate_loop_hashable _ _ _ _ _ H) as Hall.
  inversion Hall as [|? ? Hh _]; subst. cbn [snd] in Hh.
  rewrite (@validate_loop_step _ _ _ _ _ Hh) in H.
  destruct Hin as [E|Hin].
  - inversion E; subst. rewrite Hv in H.
    change log' with (snd (Ok res, log')). rewrite <- H.
    apply validate_loop_log_mono. apply in_or_app. right. left. reflexivity.
  - destruct (kept v0); apply (IH _ _ H Hin Hv).
Qed.

(** Values of a dictionary are all enum members. *)
Definition enum_valued (d : dict pystr pystr) : Prop :=
  forall k v, In (k, v) d -> Enrich.is_enum v = true.

Lemma enum_valued_dset (d : dict pystr pystr) k v :
  enum_valued d -> Enrich.is_enum v = true -> enum_valued (dset d k v).
Proof.
  intros Hd Hv k' v' Hin.
  apply In_dset in Hin. destruct Hin as [Hin| ->]; [eapply Hd; eauto | assumption].
Qed.

Lemma validate_loop_valued l validated log res log' :
  Enrich.validate_loop l validated log = (Ok res, log') ->
  enum_valued validated -> enum_valued res.
Proof.
  revert validated log. induction l as [|[k0 v0] t IH]; intros validated log H Hv.
  - cbn in H. inversion H; subst. assumption.
  - pose proof (@validate_loop_hashable _ _ _ _ _ H) as Hall.
    inversion Hall as [|? ? Hh _]; subst. cbn [snd] in Hh.
    rewrite (@validate_loop_step _ _ _ _ _ Hh) in H.
    destruct (kept v0) as [s|] eqn:Ek.
    + apply (IH _ _ H). apply enum_valued_dset; [assumption|].
      destruct v0 as [| | |s0| |]; try discriminate Ek. cbn [kept] in Ek.
      destruct (Enrich.is_enum s0) eqn:Es; [|discriminate Ek].
      inversion Ek; subst. assumption.
    + apply (IH _ _ H). assumption.
Qed.

Lemma validate_valued (mapping : dict pystr Enrich.json) :
  enum_valued (fst (Enrich.validate mapping)).
Proof.
  unfold Enrich.validate.
  destruct (Enrich.validate_loop mapping [] []) as [[res|e] log'] eqn:E;
    cbn [fst]; [|intros ? ? []].
  apply (@validate_loop_valued _ _ _ _ _ E). intros ? ? [].
Qed.

Lemma ai_map_industries_valued classifier (batch : list pystr) :
  enum_valued (fst (Enrich._ai_map_industries classifier batch)).
Proof.
  unfold Enrich._ai_map_industries.
  destruct batch; [intros ? ? []|].
  destruct (classifier _); try (intros ? ? []).
  apply validate_valued.
Qed.

Lemma update_get (d d' : dict pystr pystr) k v :
  dget (update d d') k = Some v -> dget d k = Some v \/ In (k, v) d'.
Proof.
  unfold update. revert d. induction d' as [|[k0 v0] t IH]; intros d Hg; simpl in *.
  - auto.
  - apply IH in Hg. destruct Hg as [Hg|Hg]; [|auto].
    rewrite dget_dset in Hg. destruct (beq k k0) eqn:E.
    + apply beq_eq in E. inversion Hg; subst. auto.
    + auto.
Qed.

Lemma resolve_batches_get classifier (batches : list (list pystr)) acc k v :
  dget (fst (fold_left (Enrich.resolve_batch classifier) batches acc)) k = Some v ->
  dget (fst acc) k = Some v \/ Enrich.is_enum v = true.
Proof.
  revert acc. induction batches as [|b t IH]; intros acc Hg; simpl in *; [auto|].
  apply IH in Hg. destruct Hg as [Hg|Hg]; [|auto].
  unfold Enrich.resolve_batch in Hg.
  pose proof (ai_map_industries_valued classifier b) as Hval.
  destruct (Enrich._ai_map_industries classifier b) as [res w]. simpl in *.
  apply update_get in Hg. destruct Hg as [Hg|Hg]; [auto|].
  right. eapply Hval; eauto.
Qed.

End Validation.

(** C10 (counterexample).  A reply in which one value is a list: the test
    [v in HUBSPOT_INDUSTRY_SET] raises on it, the handler returns the empty
    dictionary, and the entry with a valid value that came before it is
    lost, without a warning that names the offending entry. *)
Lemma unhashable_value_drops_batch :
  Enrich._ai_map_industries
    (fun _ => Enrich.Mapping
                [(py "Hospitals", Enrich.JString (py "HOSPITAL_HEALTH_CARE"));
                 (py "Trucking", Enrich.JArray [Enrich.JString (py "LOGISTICS")])])
    [py "Hospitals"; py "Trucking"]
  = ([], [Enrich.ErrorCalling]).
Proof. vm_compute. reflexivity. Qed.

(** C10 (amended).  When the classifier answers a batch with a JSON object
    none of whose values is a list or an object, every entry whose value is
    an enum member is kept under its key, and every entry whose value is
    not one is left out and reported by a warning that names it, the other
    entries being unaffected; when one of the values is a list or an
    object, nothing of the batch is kept and an error is printed.  And
    whatever [resolve_industry_cache] leaves in the cache file is either
    what the file held before or has an enum member as its value. *)
Theorem invalid_enums_discarded
        (classifier : list pystr -> Enrich.reply)
        (set_order : list pystr -> list pystr) :
  (forall batch mapping,
      batch <> [] ->
      classifier batch = Enrich.Mapping mapping ->
      NoDup (keys mapping) ->
      let out := Enrich._ai_map_industries classifier batch in
      (Forall (fun kv => Enrich.hashable (snd kv) = true) mapping ->
       forall k v, In (k, v) mapping ->
         (forall s, v = Enrich.JString s -> Enrich.is_enum s = true ->
                    dget (fst out) k = Some s)
         /\ ((forall s, v = Enrich.JString s -> Enrich.is_enum s = false) ->
             dget (fst out) k = None
             /\ In (Enrich.WarnInvalidEnum v k) (snd out)))
      /\ (Exists (fun kv => Enrich.hashable (snd kv) = false) mapping ->
          fst out = []
          /\ exists warnings, snd out = warnings ++ [Enrich.ErrorCalling]))
  /\ (forall raw_values st k v,
         dget (Enrich.on_disk
                 (fst (Enrich.resolve_industry_cache classifier set_order
                         raw_values st))) k = Some v ->
         dget (Enrich.on_disk st) k = Some v \/ Enrich.is_enum v = true).
Proof.
  split.
  - intros batch mapping Hb Hc Hnd out. subst out.
    unfold Enrich._ai_map_industries. destruct batch; [congruence|].
    rewrite Hc. unfold Enrich.validate. split.
    + intros Hall k v Hin.
      destruct (validate_loop_ok [] [] Hall) as (res & log' & E).
      rewrite E. cbn [fst snd].
      pose proof (@validate_loop_get _ _ _ _ _ k v E Hnd Hin) as Hget.
      split.
      * intros s -> Hs. rewrite Hget. cbn [kept]. rewrite Hs. reflexivity.
      * intros Hv.
        assert (Hk : kept v = None).
        { destruct v as [| | |s| |]; try reflexivity. cbn [kept].
          rewrite (Hv s eq_refl). reflexivity. }
        split; [rewrite Hget, Hk; reflexivity|].
        apply (@validate_loop_warns _ _ _ _ _ k v E Hin Hk).
    + intros Hex. destruct (validate_loop_raise [] [] Hex) as (log' & E).
      rewrite E. cbn [fst snd]. split; [reflexivity | eauto].
  - intros raw st k v. unfold Enrich.resolve_industry_cache.
    destruct raw as [|r0 raw]; [auto|].
    match goal with
    | |- context [filter ?f (set_order ?l)] => generalize (filter f (set_order l))
    end.
    generalize (List.length
                  (set_order
                     (filter (fun v => nonempty v && negb (Enrich.is_enum v))
                             (r0 :: raw)))).
    intros n uncached. cbv zeta.
    set (batches := Enrich.chunks 50 uncached).
    pose proof (@resolve_batches_get classifier batches
                  (Enrich.on_disk st,
                   [Enrich.InfoMapping n (n - List.length uncached)
                                       (List.length uncached)]) k v)
      as Hres.
    destruct uncached as [|u us]; [auto|].
    destruct (fold_left (Enrich.resolve_batch classifier) batches _)
      as [cache' log].
    exact Hres.
Qed.

(** The scenario of the specification: three raw values, one answered with
    a value outside the enumeration. *)
Definition scenario_classifier (batch : list pystr) : Enrich.reply :=
  Enrich.Mapping
    [(py "Hospitals", Enrich.JString (py "HOSPITAL_HEALTH_CARE"));
     (py "Trucking", Enrich.JString (py "LOGISTICS"));
     (py "Banks", Enrich.JString (py "BANKING"))].

Lemma invalid_enums_discarded_witness :
  let out := Enrich._ai_map_industries scenario_classifier
               [py "Hospitals"; py "Trucking"; py "Banks"] in
  dget (fst out) (py "Banks") = Some (py "BANKING")
  /\ dget (fst out) (py "Trucking") = None
  /\ In (Enrich.WarnInvalidEnum (Enrich.JString (py "LOGISTICS")) (py "Trucking"))
        (snd out)
  /\ List.length (fst out) = 2.
Proof.
  pose proof (invalid_enums_discarded scenario_classifier (fun l => l)) as [Hv _].
  assert (Hnd : NoDup (keys [(py "Hospitals",
                              Enrich.JString (py "HOSPITAL_HEALTH_CARE"));
                             (py "Trucking", Enrich.JString (py "LOGISTICS"));
                             (py "Banks", Enrich.JString (py "BANKING"))])).
  { repeat constructor; simpl; intuition discriminate. }
  assert (Hb : [py "Hospitals"; py "Trucking"; py "Banks"] <> []) by discriminate.
  destruct (Hv _ _ Hb eq_refl Hnd) as [Hok _].
  assert (Hall : Forall (fun kv => Enrich.hashable (snd kv) = true)
                        [(py "Hospitals",
                          Enrich.JString (py "HOSPITAL_HEALTH_CARE"));
                         (py "Trucking", Enrich.JString (py "LOGISTICS"));
                         (py "Banks", Enrich.JString (py "BANKING"))])
    by (repeat constructor).
  destruct (Hok Hall (py "Banks") (Enrich.JString (py "BANKING"))) as [Hkeep _];
    [simpl; auto|].
  destruct (Hok Hall (py "Trucking") (Enrich.JString (py "LOGISTICS")))
    as [_ Hdrop]; [simpl; auto|].
  destruct Hdrop as [Hnone Hwarn].
  { intros s E. inversion E; subst. vm_compute. reflexivity. }
  split; [|split; [|split]].
  - apply (Hkeep (py "BANKING") eq_refl). vm_compute. reflexivity.
  - exact Hnone.
  - exact Hwarn.
  - vm_compute. reflexivity.
Defined.

(** ** C3: the keeper *)

Section Keeper.
Context {U : Unicode}.
Import Dedup.

(** [k1] is below [k2] in the order of the tuples [(score, -id)]. *)
Definition key_lt (k1 k2 : (nat * nat * nat) * Z) : Prop :=
  let '((e1, l1, f1), z1) := k1 in
  let '((e2, l2, f2), z2) := k2 in
  e1 < e2 \/
  (e1 = e2 /\ (l1 < l2 \/ (l1 = l2 /\ (f1 < f2 \/ (f1 = f2 /\ (z1 < z2)%Z))))).

Lemma key_compare_Gt k1 k2 : key_compare k1 k2 = Gt <-> key_lt k2 k1.
Proof.
  destruct k1 as [[[e1 l1] f1] z1], k2 as [[[e2 l2] f2] z2].
  unfold key_compare, score_compare, key_lt; simpl.
  destruct (Nat.compare_spec e1 e2); destruct (Nat.compare_spec l1 l2);
    destruct (Nat.compare_spec f1 f2); destruct (Z.compare_spec z1 z2);
    split; intros; try discriminate; try reflexivity; try lia.
Qed.

Lemma key_compare_refl k : key_compare k k <> Gt.
Proof.
  rewrite key_compare_Gt. destruct k as [[[e l] f] z]. simpl. lia.
Qed.

Lemma key_le_trans k1 k2 k3 :
  key_compare k1 k2 <> Gt -> key_compare k2 k3 <> Gt -> key_compare k1 k3 <> Gt.
Proof.
  rewrite !key_compare_Gt.
  destruct k1 as [[[e1 l1] f1] z1], k2 as [[[e2 l2] f2] z2],
           k3 as [[[e3 l3] f3] z3]. simpl. lia.
Qed.

Lemma key_lt_le k1 k2 : key_compare k1 k2 = Gt -> key_compare k2 k1 <> Gt.
Proof.
  rewrite !key_compare_Gt.
  destruct k1 as [[[e1 l1] f1] z1], k2 as [[[e2 l2] f2] z2]. simpl. lia.
Qed.

Lemma In_insert_desc x l c : In c (insert_desc x l) <-> c = x \/ In c l.
Proof.
  induction l as [|y t IH]; simpl.
  - intuition.
  - destruct (key_compare (sort_key y) (sort_key x)); simpl; rewrite ?IH; intuition.
Qed.

Lemma In_sort_group group c : In c (sort_group group) <-> In c group.
Proof.
  unfold sort_group. induction group as [|x t IH]; simpl; [tauto|].
  rewrite In_insert_desc, IH. intuition.
Qed.

(** The head of a list dominates the list. *)
Definition head_greatest (l : list contact) : Prop :=
  match l with
  | [] => True
  | h :: _ => forall c, In c l -> key_compare (sort_key c) (sort_key h) <> Gt
  end.

Lemma insert_desc_head x l : head_greatest l -> head_greatest (insert_desc x l).
Proof.
  destruct l as [|y t]; simpl.
  - intros _ c [<-|[]]. apply key_compare_refl.
  - intros Hy. destruct (key_compare (sort_key y) (sort_key x)) eqn:E.
    + intros c [<-|Hc]; [apply key_compare_refl|].
      apply key_le_trans with (sort_key y); [auto | congruence].
    + intros c [<-|Hc]; [apply key_compare_refl|].
      apply key_le_trans with (sort_key y); [auto | congruence].
    + intros c [<-|Hc]; [apply key_compare_refl|].
      apply In_insert_desc in Hc. destruct Hc as [->|Hc].
      * apply key_lt_le. assumption.
      * apply Hy. right. assumption.
Qed.

Lemma sort_group_head group : head_greatest (sort_group group).
Proof.
  unfold sort_group. induction group as [|x t IH]; simpl; [exact I|].
  apply insert_desc_head. assumption.
Qed.

End Keeper.

Definition with_email (i : Z) (email : string) : Dedup.contact :=
  {| Dedup.id := i; Dedup.properties := [("email"%string, PyStr (py email))] |}.

(** C3 (counterexample).  Two contacts with the same score: the one with
    the smaller id is put first, in whichever order the group lists them. *)
Lemma keeper_tie_smaller_id :
  Dedup.score (with_email 101 "a@x.io") = Dedup.score (with_email 102 "b@x.io")
  /\ Dedup.sort_group [with_email 101 "a@x.io"; with_email 102 "b@x.io"]
     = [with_email 101 "a@x.io"; with_email 102 "b@x.io"]
  /\ Dedup.sort_group [with_email 102 "b@x.io"; with_email 101 "a@x.io"]
     = [with_email 101 "a@x.io"; with_email 102 "b@x.io"].
Proof. repeat split; vm_compute; reflexivity. Qed.

(** C3 (amended).  The keeper, first of the sorted group, is a member of
    the group whose score tuple is lexicographically greatest, and among the
    members with that same score it is the one with the numerically
    smallest id. *)
Theorem keeper_choice {U : Unicode} (group : list Dedup.contact)
        (keeper : Dedup.contact) (to_delete : list Dedup.contact) :
  Dedup.sort_group group = keeper :: to_delete ->
  In keeper group
  /\ (forall c, In c group ->
                Dedup.score_compare (Dedup.score c) (Dedup.score keeper) <> Gt)
  /\ (forall c, In c group -> Dedup.score c = Dedup.score keeper ->
                (Dedup.id keeper <= Dedup.id c)%Z).
Proof.
  intros Hs.
  pose proof (sort_group_head group) as Hh. rewrite Hs in Hh. simpl in Hh.
  assert (Hin : forall c, In c group -> In c (keeper :: to_delete)).
  { intros c Hc. rewrite <- Hs. apply In_sort_group. assumption. }
  split; [|split].
  - apply In_sort_group. rewrite Hs. left. reflexivity.
  - intros c Hc Hgt. apply (Hh c (Hin c Hc)).
    unfold Dedup.key_compare, Dedup.sort_key. cbn [fst snd]. rewrite Hgt. reflexivity.
  - intros c Hc Hsc. specialize (Hh c (Hin c Hc)).
    rewrite key_compare_Gt in Hh. unfold Dedup.sort_key in Hh. rewrite Hsc in Hh.
    destruct (Dedup.score keeper) as [[e l] f]. unfold key_lt in Hh. lia.
Qed.

Lemma keeper_choice_witness :
  In (with_email 101 "a@x.io")
     [with_email 102 "b@x.io"; with_email 101 "a@x.io"]
  /\ (Dedup.id (with_email 101 "a@x.io") <= Dedup.id (with_email 102 "b@x.io"))%Z.
Proof.
  destruct (@keeper_choice ascii_tables
              [with_email 102 "b@x.io"; with_email 101 "a@x.io"]
              (with_email 101 "a@x.io") [with_email 102 "b@x.io"])
    as (Hin & _ & Hid).
  - vm_compute. reflexivity.
  - split; [exact Hin|].
    apply Hid; [simpl; auto | vm_compute; reflexivity].
Defined.

(** ** C4: the field merger *)

Section Merger.
Context {U : Unicode}.
Import Dedup.




End Merger.


Definition with_props (i : Z) (ps : list (string * string)) : Dedup.contact :=
  {| Dedup.id := i;
     Dedup.properties := map (fun kv => (fst kv, PyStr (py (snd kv)))) ps |}.


(** The first filled value wins, and comes out trimmed. *)
Example merge_updates_first_wins :
  Dedup.merge_updates
    (with_props 1 [("email", "a@x.io"); ("phone", "  ")]%string)
    [with_props 2 [("city", "Oslo")]%string;
     with_props 3 [("phone", " 555 "); ("city", "Rome"); ("email", "c@x.io")]%string]
  = [("city"%string, py "Oslo"); ("phone"%string, py "555")].
Proof. vm_compute. reflexivity. Qed.

(** ** C5: the requests of a group *)

Section Calls.
Context {U : Unicode}.
Import Dedup.

(** The requests one group gives rise to in a real run: the [PATCH] of the
    keeper if there is anything to merge, then one [DELETE] per other
    member. *)
Definition group_requests (group : list contact) : list request :=
  match sort_group group with
  | [] => []
  | keeper :: to_delete =>
      match merge_updates keeper to_delete with
      | [] => []
      | _ :: _ => [PATCH (id keeper) (merge_updates keeper to_delete)]
      end ++ map (fun dup => DELETE (id dup)) to_delete
  end.

Lemma sort_group_nonempty (group : list contact) :
  group <> [] -> sort_group group <> [].
Proof.
  destruct group as [|x t]; [congruence|]. intros _ E.
  assert (Hx : In x (sort_group (x :: t))) by (apply In_sort_group; left; reflexivity).
  rewrite E in Hx. destruct Hx.
Qed.

Lemma In_insert_gid x l y : In y (insert_gid x l) <-> y = x \/ In y l.
Proof.
  induction l as [|z t IH]; simpl.
  - intuition.
  - destruct (fst z <? fst x); simpl; rewrite ?IH; intuition.
Qed.

Lemma In_sorted_items (dupes : dict nat (list contact)) y :
  In y (sorted_items dupes) <-> In y dupes.
Proof.
  unfold sorted_items. induction dupes as [|x t IH]; simpl; [tauto|].
  rewrite In_insert_gid, IH. intuition.
Qed.

End Calls.

Definition example_dupes : dict nat (list Dedup.contact) :=
  [(4, [with_props 7 [("email", "g@x.io")]%string;
        with_props 8 [("city", "Oslo")]%string]);
   (0, [with_props 1 [("city", "Rome")]%string;
        with_props 2 [("email", "b@x.io"); ("phone", "555")]%string;
        with_props 3 [("city", "Bergen")]%string])].

(** ** The grouping loops *)

Section GroupInto.
Context {K : Type} `{BEq K} {X V : Type}.
Variable kv : X -> option (K * V).

(** The values filed under [k], in the order of the input. *)
Definition values_for (k : K) (xs : list X) : list V :=
  flat_map (fun x => match kv x with
                     | Some (k', v) => if beq k k' then [v] else []
                     | None => []
                     end) xs.

Lemma setdefault_append_get (d : dict K (list V)) k' v k :
  dget (setdefault_append d k' v) k
  = if beq k k'
    then Some (match dget d k' with Some l => l ++ [v] | None => [v] end)
    else dget d k.
Proof.
  unfold setdefault_append. destruct (dget d k'); rewrite dget_dset; reflexivity.
Qed.

Lemma group_into_get (xs : list X) (d : dict K (list V)) (k : K) :
  dget (group_into kv xs d) k
  = match dget d k, values_for k xs with
    | Some l, vs => Some (l ++ vs)
    | None, [] => None
    | None, vs => Some vs
    end.
Proof.
  unfold group_into. revert d. induction xs as [|x xs IH]; intros d.
  - cbn. destruct (dget d k); rewrite ?app_nil_r; reflexivity.
  - cbn [fold_left values_for flat_map]. fold (values_for k xs). rewrite IH.
    destruct (kv x) as [[k' v]|]; [|reflexivity].
    rewrite setdefault_append_get.
    destruct (beq k k') eqn:E.
    + apply beq_eq in E. subst k'.
      destruct (dget d k); cbn [app]; [rewrite <- app_assoc|]; reflexivity.
    + reflexivity.
Qed.

Lemma group_by_get (xs : list X) (k : K) (bucket : list V) :
  dget (group_by kv xs) k = Some bucket -> bucket = values_for k xs.
Proof.
  unfold group_by. rewrite group_into_get. cbn [dget].
  destruct (values_for k xs); congruence.
Qed.

Lemma In_values_for (k : K) (xs : list X) (v : V) :
  In v (values_for k xs) <-> exists x, In x xs /\ kv x = Some (k, v).
Proof.
  unfold values_for. rewrite in_flat_map. split.
  - intros (x & Hx & Hv). exists x. split; [assumption|].
    destruct (kv x) as [[k' v']|]; [|destruct Hv].
    destruct (beq k k') eqn:E; [|destruct Hv].
    apply beq_eq in E. destruct Hv as [->|[]]. subst. reflexivity.
  - intros (x & Hx & Hkv). exists x. split; [assumption|].
    rewrite Hkv, beq_refl. left. reflexivity.
Qed.

Lemma group_by_filed (xs : list X) (x : X) (k : K) (v : V) :
  In x xs -> kv x = Some (k, v) ->
  exists bucket, dget (group_by kv xs) k = Some bucket /\ In v bucket.
Proof.
  intros Hx Hkv.
  assert (Hv : In v (values_for k xs)) by (apply In_values_for; eauto).
  unfold group_by. rewrite group_into_get. cbn [dget].
  destruct (values_for k xs) as [|v0 vs]; [destruct Hv|].
  eexists. split; [reflexivity | assumption].
Qed.

End GroupInto.

Lemma two_members_length {A} (l : list A) (a b : A) :
  In a l -> In b l -> a <> b -> 1 < List.length l.
Proof.
  destruct l as [|x [|y t]]; simpl; try tauto; try lia.
  intros [<-|[]] [<-|[]]. congruence.
Qed.

(** ** C1, C2: the groups *)

Section Grouping.
Context {U : Unicode}.
Import Dedup.

(** Two contact ids carry the same group number. *)
Definition same (st : groups_state) (x y : Z) : Prop :=
  exists g, dget (contact_to_group st) x = Some g
            /\ dget (contact_to_group st) y = Some g.

Definition keeps (st st' : groups_state) : Prop :=
  forall x g, dget (contact_to_group st) x = Some g ->
              dget (contact_to_group st') x = Some g.

Lemma get_group_spec cid st g st' :
  get_group cid st = (g, st') ->
  dget (contact_to_group st') cid = Some g /\ keeps st st'.
Proof.
  unfold get_group, keeps.
  destruct (dget (contact_to_group st) cid) as [g0|] eqn:E; intros [= <- <-].
  - auto.
  - cbn [contact_to_group]. split; [apply dget_dset_eq|].
    intros x g Hx. rewrite dget_dset_ne; [assumption|]. congruence.
Qed.

Lemma get_groups_spec cids st gs st' :
  get_groups cids st = (gs, st') ->
  (forall cid, In cid cids ->
               exists g, dget (contact_to_group st') cid = Some g /\ In g gs)
  /\ keeps st st'
  /\ List.length gs = List.length cids.
Proof.
  revert st gs st'. induction cids as [|cid t IH]; intros st gs st'; cbn [get_groups].
  - intros [= <- <-]. repeat split; [intros ? [] | intros ? ?; auto].
  - destruct (get_group cid st) as [g st1] eqn:E1.
    destruct (get_groups t st1) as [gs' st2] eqn:E2.
    intros [= <- <-].
    apply get_group_spec in E1. destruct E1 as [Hg Hk1].
    apply IH in E2. destruct E2 as (Hin & Hk2 & Hlen).
    repeat split.
    + intros c [<-|Hc].
      * exists g. split; [apply Hk2; assumption | left; reflexivity].
      * destruct (Hin c Hc) as (g' & Hg' & Hin'). exists g'. split; [|right]; auto.
    + intros x g' Hx. apply Hk2, Hk1. assumption.
    + cbn [List.length]. congruence.
Qed.

Lemma fold_min_In (l : list nat) (x : nat) :
  fold_left Nat.min l x = x \/ In (fold_left Nat.min l x) l.
Proof.
  revert x. induction l as [|y t IH]; intros x; cbn [fold_left]; [auto|].
  destruct (IH (Nat.min x y)) as [E|Hin].
  - rewrite E. destruct (Nat.min_spec x y) as [[_ ->]|[_ ->]]; [auto | right; left; auto].
  - right. right. assumption.
Qed.

Lemma min_list_In (l : list nat) : l <> [] -> In (min_list l) l.
Proof.
  destruct l as [|x t]; [congruence|]. intros _. unfold min_list.
  destruct (fold_min_In t x) as [->|Hin]; [left; reflexivity | right; assumption].
Qed.

(** What [relabel] does to the group of one contact. *)
Definition relabelled (groups : list nat) (target : nat) (o : option nat)
  : option nat :=
  match o with
  | Some g => if mem g groups then Some target else Some g
  | None => None
  end.

Lemma relabel_get groups target (d : dict Z nat) cid x :
  dget (relabel groups target d cid) x
  = if beq x cid then relabelled groups target (dget d x) else dget d x.
Proof.
  unfold relabel, relabelled. destruct (beq x cid) eqn:E.
  - apply beq_eq in E. subst cid.
    destruct (dget d x) as [g|] eqn:Eg; [|assumption].
    destruct (mem g groups); [apply dget_dset_eq | assumption].
  - destruct (dget d cid) as [g|]; [|reflexivity].
    destruct (mem g groups); [|reflexivity].
    apply dget_dset_ne. apply beq_neq. assumption.
Qed.

Lemma relabel_fold_get groups target (ks : list Z) (d : dict Z nat) x :
  mem target groups = true ->
  dget (fold_left (relabel groups target) ks d) x
  = if mem x ks then relabelled groups target (dget d x) else dget d x.
Proof.
  intros Ht. revert d. induction ks as [|k ks IH]; intros d; [reflexivity|].
  cbn [fold_left]. rewrite IH, relabel_get.
  change (mem x (k :: ks)) with (beq x k || mem x ks).
  destruct (beq x k); cbn [orb]; [|reflexivity].
  destruct (mem x ks); [|reflexivity].
  unfold relabelled. destruct (dget d x) as [g|]; [|reflexivity].
  destruct (mem g groups) eqn:Eg; rewrite ?Ht, ?Eg; reflexivity.
Qed.

Lemma assign_fold_get target (cids : list Z) (d : dict Z nat) x :
  dget (fold_left (fun d cid => dset d cid target) cids d) x
  = if mem x cids then Some target else dget d x.
Proof.
  revert d. induction cids as [|c cids IH]; intros d; [reflexivity|].
  cbn [fold_left]. rewrite IH, dget_dset.
  change (mem x (c :: cids)) with (beq x c || mem x cids).
  destruct (mem x cids); [rewrite orb_true_r; reflexivity|].
  rewrite orb_false_r. reflexivity.
Qed.

(** The group of [x] after [merge_groups cids], for two or more [cids]. *)
Lemma merge_groups_get cids st gs st1 x :
  1 < List.length cids ->
  get_groups cids st = (gs, st1) ->
  dget (contact_to_group (merge_groups cids st)) x
  = if mem x cids then Some (min_list gs)
    else relabelled gs (min_list gs) (dget (contact_to_group st1) x).
Proof.
  intros Hlen Hgs. unfold merge_groups.
  destruct (List.length cids <=? 1) eqn:E; [apply Nat.leb_le in E; lia|].
  rewrite Hgs. cbn [contact_to_group].
  rewrite assign_fold_get. destruct (mem x cids); [reflexivity|].
  apply get_groups_spec in Hgs. destruct Hgs as (_ & _ & Hl).
  rewrite relabel_fold_get.
  - destruct (mem x (keys (contact_to_group st1))) eqn:Ek; [reflexivity|].
    apply mem_not_In in Ek. apply dget_None in Ek. rewrite Ek. reflexivity.
  - apply mem_In, min_list_In. destruct gs; [simpl in Hl; lia | discriminate].
Qed.

Lemma merge_groups_same cids st x y :
  same st x y -> same (merge_groups cids st) x y.
Proof.
  intros (g & Hx & Hy).
  destruct (le_lt_dec (List.length cids) 1) as [Hle|Hlt].
  - unfold merge_groups. apply Nat.leb_le in Hle. rewrite Hle. exists g. auto.
  - destruct (get_groups cids st) as [gs st1] eqn:Hgs.
    pose proof (get_groups_spec _ _ Hgs) as (Hin & Hk & _).
    apply Hk in Hx, Hy.
    assert (Hrel : forall z, In z cids -> dget (contact_to_group st1) z = Some g ->
                             mem g gs = true).
    { intros z Hz Hg. destruct (Hin z Hz) as (g' & Hg' & Hin').
      apply mem_In. congruence. }
    unfold same.
    rewrite (@merge_groups_get cids st gs st1 x Hlt Hgs),
      (@merge_groups_get cids st gs st1 y Hlt Hgs).
    rewrite Hx, Hy. unfold relabelled.
    destruct (mem x cids) eqn:Ex, (mem y cids) eqn:Ey.
    + eauto.
    + apply mem_In in Ex. rewrite (Hrel x Ex Hx). eauto.
    + apply mem_In in Ey. rewrite (Hrel y Ey Hy). eauto.
    + destruct (mem g gs); eauto.
Qed.

Lemma merge_groups_joins cids st x y :
  1 < List.length cids -> In x cids -> In y cids ->
  same (merge_groups cids st) x y.
Proof.
  intros Hlt Hx Hy.
  destruct (get_groups cids st) as [gs st1] eqn:Hgs.
  exists (min_list gs).
  rewrite (@merge_groups_get cids st gs st1 x Hlt Hgs),
    (@merge_groups_get cids st gs st1 y Hlt Hgs).
  apply mem_In in Hx, Hy. rewrite Hx, Hy. auto.
Qed.

Lemma merge_index_same (index : dict pystr (list contact)) st x y :
  same st x y -> same (merge_index index st) x y.
Proof.
  unfold merge_index. revert st.
  induction index as [|[k bucket] t IH]; intros st Hs; cbn [fold_left]; [assumption|].
  apply IH. cbn [snd]. destruct (1 <? List.length bucket); [|assumption].
  apply merge_groups_same. assumption.
Qed.

Lemma merge_index_joins (index : dict pystr (list contact)) st k bucket a b :
  In (k, bucket) index -> In a bucket -> In b bucket -> a <> b ->
  same (merge_index index st) (id a) (id b).
Proof.
  intros Hin Ha Hb Hab.
  assert (Hlen : 1 < List.length bucket) by exact (@two_members_length _ bucket a b Ha Hb Hab).
  unfold merge_index. revert st.
  induction index as [|[k0 bucket0] t IH]; intros st; [destruct Hin|].
  cbn [fold_left snd]. destruct Hin as [E|Hin].
  - inversion E; subst.
    apply Nat.ltb_lt in Hlen. rewrite Hlen.
    apply (merge_index_same t). apply merge_groups_joins.
    + rewrite length_map. apply Nat.ltb_lt. assumption.
    + apply in_map. assumption.
    + apply in_map. assumption.
  - apply IH. assumption.
Qed.

Lemma same_trans st x y z : same st x y -> same st y z -> same st x z.
Proof.
  intros (g & Hx & Hy) (g' & Hy' & Hz). exists g. split; [assumption|]. congruence.
Qed.

(** Members of one bucket of the name index end in one group. *)
Lemma name_bucket_same contacts k bucket a b :
  dget (by_name contacts) k = Some bucket -> In a bucket -> In b bucket -> a <> b ->
  same (grouped contacts) (id a) (id b).
Proof.
  intros Hk Ha Hb Hab. unfold grouped.
  apply merge_index_same. eapply merge_index_joins; eauto using dget_In.
Qed.

Lemma url_bucket_same contacts k bucket a b :
  dget (by_url contacts) k = Some bucket -> In a bucket -> In b bucket -> a <> b ->
  same (grouped contacts) (id a) (id b).
Proof.
  intros Hk Ha Hb Hab. unfold grouped.
  eapply merge_index_joins; eauto using dget_In.
Qed.

Lemma name_bucket_member contacts k bucket a :
  dget (by_name contacts) k = Some bucket -> In a bucket ->
  In a contacts /\ name_entry a = Some (k, a).
Proof.
  intros Hk Ha. apply group_by_get in Hk. subst bucket.
  apply In_values_for in Ha. destruct Ha as (x & Hx & Hkv).
  assert (x = a).
  { unfold name_entry in Hkv. destruct (_ && _); congruence. }
  subst x. auto.
Qed.

Lemma url_bucket_member contacts k bucket a :
  dget (by_url contacts) k = Some bucket -> In a bucket ->
  In a contacts /\ url_entry a = Some (k, a).
Proof.
  intros Hk Ha. apply group_by_get in Hk. subst bucket.
  apply In_values_for in Ha. destruct Ha as (x & Hx & Hkv).
  assert (x = a).
  { unfold url_entry in Hkv. destruct (nonempty _); congruence. }
  subst x. auto.
Qed.

Lemma contacts_by_id_other (l : list contact) (d : dict Z contact) k :
  ~ In k (map id l) ->
  dget (fold_left (fun d c => dset d (id c) c) l d) k = dget d k.
Proof.
  revert d. induction l as [|c t IH]; intros d Hk; [reflexivity|].
  cbn [fold_left]. cbn [map] in Hk. rewrite IH by (intros ?; apply Hk; right; auto).
  apply dget_dset_ne. intros ->. apply Hk. left. reflexivity.
Qed.

Lemma contacts_by_id_get (contacts : list contact) a :
  NoDup (map id contacts) -> In a contacts ->
  dget (contacts_by_id contacts) (id a) = Some a.
Proof.
  unfold contacts_by_id. generalize (@nil (Z * contact)).
  induction contacts as [|c t IH]; intros d Hnd Ha; [destruct Ha|].
  cbn [fold_left]. cbn [map] in Hnd. inversion Hnd as [|? ? Hc Hnd']; subst.
  destruct Ha as [->|Ha].
  - rewrite contacts_by_id_other by assumption. apply dget_dset_eq.
  - apply IH; assumption.
Qed.

Lemma final_group_member contacts a g :
  NoDup (map id contacts) -> In a contacts ->
  dget (contact_to_group (grouped contacts)) (id a) = Some g ->
  exists group,
    dget (group_by (group_entry (contacts_by_id contacts))
                   (contact_to_group (grouped contacts))) g = Some group
    /\ In a group.
Proof.
  intros Hnd Ha Hg.
  apply (@group_by_filed _ _ _ _ (group_entry (contacts_by_id contacts)) _
           (id a, g) g a (@dget_In _ _ _ _ _ _ Hg)).
  unfold group_entry. cbn [fst snd].
  rewrite (@contacts_by_id_get contacts a Hnd Ha). reflexivity.
Qed.

(** Contacts whose ids carry one group number, two of them different, are
    returned together. *)
Lemma returned_together contacts (members : list contact) g a b :
  NoDup (map id contacts) ->
  (forall m, In m members ->
             In m contacts
             /\ dget (contact_to_group (grouped contacts)) (id m) = Some g) ->
  In a members -> In b members -> a <> b ->
  exists group,
    In (g, group) (find_duplicates contacts)
    /\ forall m, In m members -> In m group.
Proof.
  intros Hnd Hm Ha Hb Hab.
  destruct (Hm a Ha) as [Hac Hag].
  destruct (@final_group_member contacts a g Hnd Hac Hag) as (group & Hgroup & Hain).
  assert (Hall : forall m, In m members -> In m group).
  { intros m Hin. destruct (Hm m Hin) as [Hmc Hmg].
    destruct (@final_group_member contacts m g Hnd Hmc Hmg) as (group' & Hgroup' & Hmin).
    congruence. }
  exists group. split; [|exact Hall].
  unfold find_duplicates. apply filter_In. split; [apply dget_In; assumption|].
  cbn [snd]. apply Nat.ltb_lt.
  exact (@two_members_length _ group a b (Hall a Ha) (Hall b Hb) Hab).
Qed.

(** The relation "filed under one key of one of the two indexes". *)
Definition shares_key (contacts : list contact) (a b : contact) : Prop :=
  a <> b /\
  exists k bucket,
    (dget (by_name contacts) k = Some bucket
     \/ dget (by_url contacts) k = Some bucket)
    /\ In a bucket /\ In b bucket.

Lemma shares_key_same contacts a b :
  shares_key contacts a b -> same (grouped contacts) (id a) (id b).
Proof.
  intros (Hab & k & bucket & [Hk|Hk] & Ha & Hb).
  - eapply name_bucket_same; eauto.
  - eapply url_bucket_same; eauto.
Qed.

Lemma shares_key_In contacts a b :
  shares_key contacts a b -> In a contacts /\ In b contacts.
Proof.
  intros (_ & k & bucket & [Hk|Hk] & Ha & Hb).
  - split; eapply name_bucket_member; eauto.
  - split; eapply url_bucket_member; eauto.
Qed.

(** Any chain of shared keys ends in one group number. *)
Lemma chain_same contacts a b :
  clos_trans contact (shares_key contacts) a b ->
  same (grouped contacts) (id a) (id b).
Proof.
  induction 1 as [a b Hs | a b c _ IH1 _ IH2].
  - apply shares_key_same. assumption.
  - eapply same_trans; eauto.
Qed.

End Grouping.

Definition person (i : Z) (firstname lastname url : string) : Dedup.contact :=
  {| Dedup.id := i;
     Dedup.properties :=
       [("firstname"%string, PyStr (py firstname));
        ("lastname"%string, PyStr (py lastname));
        ("hs_linkedin_url"%string,
         if String.eqb url "" then PyNone else PyStr (py url))] |}.

Definition ann : Dedup.contact := person 11 "Ann" "Lee, MBA" "".
Definition ann2 : Dedup.contact := person 12 "ann" "lee" "https://www.linkedin.com/in/annlee/".
Definition a_lee : Dedup.contact := person 13 "A." "Lee" "https://www.linkedin.com/in/AnnLee?trk=x".
Definition bob : Dedup.contact := person 14 "Bob" "Stone" "https://www.linkedin.com/in/bob".

(** C2 (counterexample).  Two contacts called "Al": their name keys are
    equal and not empty, and no group is returned. *)
Lemma short_name_not_grouped :
  Dedup.normalize_name (Dedup.contact_name (person 1 "Al" "" ""))
  = Dedup.normalize_name (Dedup.contact_name (person 2 "Al" "" ""))
  /\ Dedup.normalize_name (Dedup.contact_name (person 1 "Al" "" "")) = py "al"
  /\ Dedup.find_duplicates [person 1 "Al" "" ""; person 2 "Al" "" ""] = [].
Proof. repeat split; vm_compute; reflexivity. Qed.

(** C2 (amended).  For every contact list with unique ids, two different
    contacts whose name keys are equal and longer than two characters, or
    whose URL keys are equal and not empty, are in one returned group. *)
Theorem direct_match_same_group {U : Unicode} (contacts : list Dedup.contact)
        (a b : Dedup.contact) :
  NoDup (map Dedup.id contacts) -> In a contacts -> In b contacts -> a <> b ->
  (Dedup.normalize_name (Dedup.contact_name a)
   = Dedup.normalize_name (Dedup.contact_name b)
   /\ 2 < List.length (Dedup.normalize_name (Dedup.contact_name a)))
  \/ (Dedup.normalize_url (Dedup.prop a "hs_linkedin_url")
      = Dedup.normalize_url (Dedup.prop b "hs_linkedin_url")
      /\ Dedup.normalize_url (Dedup.prop a "hs_linkedin_url") <> []) ->
  exists gid group,
    In (gid, group) (Dedup.find_duplicates contacts)
    /\ In a group /\ In b group.
Proof.
  intros Hnd Ha Hb Hab Hkey.
  assert (Hs : shares_key contacts a b).
  { split; [assumption|]. destruct Hkey as [[Heq Hlen]|[Heq Hne]].
    - set (k := Dedup.normalize_name (Dedup.contact_name a)) in *.
      assert (Hea : Dedup.name_entry a = Some (k, a)).
      { unfold Dedup.name_entry. fold k. apply Nat.ltb_lt in Hlen. rewrite Hlen.
        destruct k; [discriminate Hlen | reflexivity]. }
      assert (Heb : Dedup.name_entry b = Some (k, b)).
      { unfold Dedup.name_entry. rewrite <- Heq. apply Nat.ltb_lt in Hlen.
        rewrite Hlen. destruct k; [discriminate Hlen | reflexivity]. }
      destruct (@group_by_filed _ _ _ _ Dedup.name_entry contacts a k a Ha Hea)
        as (bucket & Hk & Hain).
      destruct (@group_by_filed _ _ _ _ Dedup.name_entry contacts b k b Hb Heb)
        as (bucket' & Hk' & Hbin).
      assert (bucket' = bucket) by (unfold Dedup.by_name in *; congruence).
      subst bucket'. exists k, bucket. auto.
    - set (k := Dedup.normalize_url (Dedup.prop a "hs_linkedin_url")) in *.
      assert (Hea : Dedup.url_entry a = Some (k, a)).
      { unfold Dedup.url_entry. fold k. destruct k; [congruence | reflexivity]. }
      assert (Heb : Dedup.url_entry b = Some (k, b)).
      { unfold Dedup.url_entry. rewrite <- Heq. destruct k; [congruence | reflexivity]. }
      destruct (@group_by_filed _ _ _ _ Dedup.url_entry contacts a k a Ha Hea)
        as (bucket & Hk & Hain).
      destruct (@group_by_filed _ _ _ _ Dedup.url_entry contacts b k b Hb Heb)
        as (bucket' & Hk' & Hbin).
      assert (bucket' = bucket) by congruence.
      subst bucket'. exists k, bucket. auto. }
  destruct (@shares_key_same U contacts a b Hs) as (g & Hga & Hgb).
  destruct (@returned_together U contacts [a; b] g a b Hnd) as (group & Hin & Hall).
  - intros m [<-|[<-|[]]]; auto.
  - simpl; auto.
  - simpl; auto.
  - assumption.
  - exists g, group. repeat split; [assumption | apply Hall ..]; simpl; auto.
Qed.

Lemma direct_match_same_group_witness :
  exists gid group,
    In (gid, group) (Dedup.find_duplicates [ann; bob; ann2; a_lee])
    /\ In ann2 group /\ In a_lee group.
Proof.
  apply (@direct_match_same_group ascii_tables [ann; bob; ann2; a_lee] ann2 a_lee).
  - repeat constructor; simpl; intuition discriminate.
  - simpl; auto.
  - simpl; auto.
  - discriminate.
  - right. split; [vm_compute; reflexivity | vm_compute; discriminate].
Defined.

(** The scenario of the specification: the same profile URL with and
    without its trailing slash. *)
Example trailing_slash_same_group :
  map (fun gg => (fst gg, map Dedup.id (snd gg)))
      (Dedup.find_duplicates
         [person 1 "John A." "Smith MBA" "https://x/in/jsmith/";
          person 2 "John" "Smith" "https://x/in/jsmith"])
  = [(0, [1%Z; 2%Z])].
Proof. vm_compute. reflexivity. Qed.

From Stdlib Require Import Permutation Sorted.

(** * Further properties of the code *)

(** ** The two indexes of [find_duplicates] *)

Section Indexes.
Context {K : Type} `{BEq K} {X V : Type}.
Variable kv : X -> option (K * V).

Lemma NoDup_keys_setdefault_append (d : dict K (list V)) k v :
  NoDup (keys d) -> NoDup (keys (setdefault_append d k v)).
Proof.
  intros Hnd. unfold setdefault_append.
  destruct (dget d k); apply NoDup_keys_dset; assumption.
Qed.

Lemma NoDup_keys_group_into (xs : list X) (d : dict K (list V)) :
  NoDup (keys d) -> NoDup (keys (group_into kv xs d)).
Proof.
  unfold group_into. revert d. induction xs as [|x xs IH]; intros d Hnd.
  - assumption.
  - cbn [fold_left]. apply IH. destruct (kv x) as [[k v]|]; [|assumption].
    apply NoDup_keys_setdefault_append. assumption.
Qed.

Lemma NoDup_keys_group_by (xs : list X) : NoDup (keys (group_by kv xs)).
Proof. apply NoDup_keys_group_into. constructor. Qed.

Lemma group_by_entry (xs : list X) (k : K) (bucket : list V) :
  In (k, bucket) (group_by kv xs) -> dget (group_by kv xs) k = Some bucket.
Proof. apply In_dget. apply NoDup_keys_group_by. Qed.

End Indexes.

Lemma values_for_filter {K : Type} `{BEq K} {X : Type}
      (key : X -> K) (ok : X -> bool) (k : K) (xs : list X) :
  values_for (fun x => if ok x then Some (key x, x) else None) k xs
  = filter (fun x => ok x && beq k (key x)) xs.
Proof.
  unfold values_for. induction xs as [|x xs IH]; [reflexivity|].
  cbn [flat_map filter]. rewrite IH.
  destruct (ok x); cbn [andb]; [|reflexivity].
  destruct (beq k (key x)); reflexivity.
Qed.

Section IndexContents.
Context {U : Unicode}.
Import Dedup.

Definition name_key (c : contact) : pystr := normalize_name (contact_name c).

Definition url_key (c : contact) : pystr :=
  normalize_url (prop c "hs_linkedin_url").

(** The contacts filed under [k] in the name index. *)
Definition name_bucket (contacts : list contact) (k : pystr) : list contact :=
  filter (fun c => (nonempty (name_key c) && (2 <? List.length (name_key c)))
                   && beq k (name_key c)) contacts.

Definition url_bucket (contacts : list contact) (k : pystr) : list contact :=
  filter (fun c => nonempty (url_key c) && beq k (url_key c)) contacts.

Lemma by_name_get contacts k :
  dget (by_name contacts) k
  = match name_bucket contacts k with
    | [] => None
    | b => Some b
    end.
Proof.
  unfold by_name, group_by. rewrite group_into_get. cbn [dget].
  unfold name_entry.
  rewrite (values_for_filter name_key
             (fun c => nonempty (name_key c) && (2 <? List.length (name_key c)))).
  reflexivity.
Qed.

Lemma by_url_get contacts k :
  dget (by_url contacts) k
  = match url_bucket contacts k with
    | [] => None
    | b => Some b
    end.
Proof.
  unfold by_url, group_by. rewrite group_into_get. cbn [dget].
  unfold url_entry.
  rewrite (values_for_filter url_key (fun c => nonempty (url_key c))).
  reflexivity.
Qed.

End IndexContents.

(** X1.  The multi-key matcher files every contact under its own keys and
    nothing else: the bucket of a key in the name index is the list, in
    input order, of the contacts whose name key is that key and is longer
    than two characters; the bucket of a key in the URL index is the list
    of the contacts whose URL key is that non-empty key; a key with no such
    contact is not in the index. *)
Theorem index_buckets {U : Unicode} (contacts : list Dedup.contact) (k : pystr) :
  dget (Dedup.by_name contacts) k
  = match filter (fun c =>
                    (nonempty (Dedup.normalize_name (Dedup.contact_name c))
                     && (2 <? List.length
                                (Dedup.normalize_name (Dedup.contact_name c))))
                    && beq k (Dedup.normalize_name (Dedup.contact_name c)))
                 contacts with
    | [] => None
    | b => Some b
    end
  /\ dget (Dedup.by_url contacts) k
     = match filter (fun c =>
                       nonempty (Dedup.normalize_url
                                   (Dedup.prop c "hs_linkedin_url"))
                       && beq k (Dedup.normalize_url
                                   (Dedup.prop c "hs_linkedin_url")))
                    contacts with
       | [] => None
       | b => Some b
       end.
Proof.
  split; [apply by_name_get | apply by_url_get].
Qed.

(** ** Only connected contacts are grouped *)

Section GroupingSound.
Context {U : Unicode}.
Import Dedup.
Variable contacts : list contact.
Hypothesis unique_ids : NoDup (map id contacts).

(** The ids of two contacts that share a key. *)
Definition id_linked (x y : Z) : Prop :=
  exists a b, shares_key contacts a b /\ id a = x /\ id b = y.

Definition connected : Z -> Z -> Prop := clos_refl_trans Z id_linked.

Lemma shares_key_sym a b : shares_key contacts a b -> shares_key contacts b a.
Proof.
  intros (Hab & k & bucket & Hk & Ha & Hb).
  split; [congruence|]. exists k, bucket. auto.
Qed.

Lemma connected_sym x y : connected x y -> connected y x.
Proof.
  induction 1 as [x y (a & b & Hs & <- & <-) | x | x y z _ IH1 _ IH2].
  - apply rt_step. exists b, a. split; [apply shares_key_sym; assumption | auto].
  - apply rt_refl.
  - eapply rt_trans; eauto.
Qed.

Lemma connected_trans x y z : connected x y -> connected y z -> connected x z.
Proof. intros; eapply rt_trans; eauto. Qed.

(** What the grouping keeps true of [contact_to_group] and the counter. *)
Record grouping_inv (st : groups_state) : Prop := {
  inv_below : forall x g, dget (contact_to_group st) x = Some g ->
                          g < group_counter st;
  inv_connected : forall x y, same st x y -> connected x y;
  inv_keys : NoDup (keys (contact_to_group st))
}.

Lemma initial_inv : grouping_inv initial_state.
Proof.
  split; cbn.
  - discriminate.
  - intros x y (g & Hx & _). discriminate.
  - constructor.
Qed.

Lemma get_group_inv cid st g st' :
  grouping_inv st -> get_group cid st = (g, st') -> grouping_inv st'.
Proof.
  intros [Hlt Hconn Hnd]. unfold get_group.
  destruct (dget (contact_to_group st) cid) as [g0|] eqn:E; intros [= <- <-].
  - split; assumption.
  - split; cbn [contact_to_group group_counter].
    + intros x g. rewrite dget_dset. destruct (beq x cid).
      * intros [= <-]. lia.
      * intros Hx. apply Hlt in Hx. lia.
    + intros x y (g & Hx & Hy). cbn [contact_to_group] in Hx, Hy.
      rewrite dget_dset in Hx, Hy.
      destruct (beq x cid) eqn:Ex, (beq y cid) eqn:Ey.
      * apply beq_eq in Ex, Ey. subst. apply rt_refl.
      * inversion Hx; subst. apply Hlt in Hy. lia.
      * inversion Hy; subst. apply Hlt in Hx. lia.
      * apply Hconn. exists g. auto.
    + apply NoDup_keys_dset. assumption.
Qed.

Lemma get_groups_inv cids st gs st' :
  grouping_inv st -> get_groups cids st = (gs, st') -> grouping_inv st'.
Proof.
  revert st gs st'. induction cids as [|cid t IH]; intros st gs st' Hinv;
    cbn [get_groups].
  - intros [= <- <-]. assumption.
  - destruct (get_group cid st) as [g st1] eqn:E1.
    destruct (get_groups t st1) as [gs' st2] eqn:E2.
    intros [= <- <-]. eapply IH; [|exact E2]. eapply get_group_inv; eauto.
Qed.

(** Every group number collected is the number of one of the ids. *)
Lemma get_groups_back cids st gs st' :
  get_groups cids st = (gs, st') ->
  forall g, In g gs ->
            exists c, In c cids /\ dget (contact_to_group st') c = Some g.
Proof.
  revert st gs st'. induction cids as [|cid t IH]; intros st gs st';
    cbn [get_groups].
  - intros [= <- <-] g [].
  - destruct (get_group cid st) as [g0 st1] eqn:E1.
    destruct (get_groups t st1) as [gs' st2] eqn:E2.
    intros [= <- <-] g [<-|Hg].
    + exists cid. split; [left; reflexivity|].
      apply get_group_spec in E1. destruct E1 as [Hg0 _].
      apply get_groups_spec in E2. destruct E2 as (_ & Hk & _).
      apply Hk. assumption.
    + destruct (IH _ _ _ E2 g Hg) as (c & Hc & Hgc).
      exists c. split; [right|]; assumption.
Qed.

Lemma NoDup_keys_relabel_fold groups target (ks : list Z) (d : dict Z nat) :
  NoDup (keys d) -> NoDup (keys (fold_left (relabel groups target) ks d)).
Proof.
  revert d. induction ks as [|k ks IH]; intros d Hnd; [assumption|].
  cbn [fold_left]. apply IH. unfold relabel.
  destruct (dget d k) as [g|]; [|assumption].
  destruct (mem g groups); [apply NoDup_keys_dset|]; assumption.
Qed.

Lemma NoDup_keys_assign_fold target (cids : list Z) (d : dict Z nat) :
  NoDup (keys d) ->
  NoDup (keys (fold_left (fun d cid => dset d cid target) cids d)).
Proof.
  revert d. induction cids as [|c cids IH]; intros d Hnd; [assumption|].
  cbn [fold_left]. apply IH. apply NoDup_keys_dset. assumption.
Qed.

Lemma merge_groups_inv cids st :
  grouping_inv st ->
  (forall c c', In c cids -> In c' cids -> connected c c') ->
  grouping_inv (merge_groups cids st).
Proof.
  intros Hinv Hcids.
  destruct (le_lt_dec (List.length cids) 1) as [Hle|Hlt].
  { unfold merge_groups. apply Nat.leb_le in Hle. rewrite Hle. assumption. }
  destruct (get_groups cids st) as [gs st1] eqn:Hgs.
  pose proof (@get_groups_inv cids st gs st1 Hinv Hgs) as [Hlt1 Hconn1 Hnd1].
  pose proof (get_groups_spec _ _ Hgs) as (Hfwd & _ & Hlen).
  pose proof (get_groups_back _ _ Hgs) as Hback.
  assert (Htarget : In (min_list gs) gs).
  { apply min_list_In. destruct gs; [simpl in Hlen; lia | discriminate]. }
  assert (Hget : forall x,
             dget (contact_to_group (merge_groups cids st)) x
             = if mem x cids then Some (min_list gs)
               else relabelled gs (min_list gs) (dget (contact_to_group st1) x)).
  { intros x. apply (@merge_groups_get cids st gs st1 x Hlt Hgs). }
  (* an id that ends under the target is connected to one of [cids] *)
  assert (Hjoin : forall x g,
             (mem x cids = true
              \/ (dget (contact_to_group st1) x = Some g /\ mem g gs = true)) ->
             exists c, In c cids /\ connected x c).
  { intros x g [Hx|[Hx Hg]].
    - apply mem_In in Hx. exists x. split; [assumption | apply rt_refl].
    - apply mem_In in Hg. destruct (Hback g Hg) as (c & Hc & Hgc).
      exists c. split; [assumption|]. apply Hconn1. exists g. auto. }
  split.
  - intros x g. rewrite Hget.
    assert (Hmin : min_list gs < group_counter st1).
    { destruct (Hback _ Htarget) as (c & _ & Hc). eapply Hlt1; eauto. }
    assert (Hcounter : group_counter (merge_groups cids st) = group_counter st1).
    { unfold merge_groups. destruct (List.length cids <=? 1) eqn:E.
      - apply Nat.leb_le in E. lia.
      - rewrite Hgs. reflexivity. }
    rewrite Hcounter.
    destruct (mem x cids); [intros [= <-]; assumption|].
    unfold relabelled. destruct (dget (contact_to_group st1) x) as [g0|] eqn:E0;
      [|discriminate].
    destruct (mem g0 gs); intros [= <-]; [assumption | eapply Hlt1; eauto].
  - intros x y (g & Hx & Hy). rewrite Hget in Hx, Hy.
    unfold relabelled in Hx, Hy.
    destruct (mem x cids) eqn:Ex, (mem y cids) eqn:Ey.
    + apply Hcids; apply mem_In; assumption.
    + destruct (dget (contact_to_group st1) y) as [gy|] eqn:Egy; [|discriminate].
      destruct (mem gy gs) eqn:Emy.
      * destruct (Hjoin y gy (or_intror (conj Egy Emy))) as (c & Hc & Hyc).
        apply connected_trans with c; [|apply connected_sym; assumption].
        apply Hcids; [apply mem_In|]; assumption.
      * inversion Hx; inversion Hy; subst.
        apply mem_In in Htarget. congruence.
    + destruct (dget (contact_to_group st1) x) as [gx|] eqn:Egx; [|discriminate].
      destruct (mem gx gs) eqn:Emx.
      * destruct (Hjoin x gx (or_intror (conj Egx Emx))) as (c & Hc & Hxc).
        apply connected_trans with c; [assumption|].
        apply Hcids; [|apply mem_In]; assumption.
      * inversion Hx; inversion Hy; subst.
        apply mem_In in Htarget. congruence.
    + destruct (dget (contact_to_group st1) x) as [gx|] eqn:Egx; [|discriminate].
      destruct (dget (contact_to_group st1) y) as [gy|] eqn:Egy; [|discriminate].
      destruct (mem gx gs) eqn:Emx, (mem gy gs) eqn:Emy.
      * destruct (Hjoin x gx (or_intror (conj Egx Emx))) as (c & Hc & Hxc).
        destruct (Hjoin y gy (or_intror (conj Egy Emy))) as (c' & Hc' & Hyc).
        apply connected_trans with c; [assumption|].
        apply connected_trans with c'; [apply Hcids; assumption|].
        apply connected_sym. assumption.
      * inversion Hx; inversion Hy; subst.
        apply mem_In in Htarget. congruence.
      * inversion Hx; inversion Hy; subst.
        apply mem_In in Htarget. congruence.
      * inversion Hx; inversion Hy; subst.
        apply Hconn1. exists g. auto.
  - unfold merge_groups. destruct (List.length cids <=? 1); [apply Hinv|].
    rewrite Hgs. cbn [contact_to_group].
    apply NoDup_keys_assign_fold, NoDup_keys_relabel_fold. assumption.
Qed.

Lemma merge_index_inv (index : dict pystr (list contact)) st :
  grouping_inv st ->
  (forall k bucket a b, In (k, bucket) index -> In a bucket -> In b bucket ->
                        connected (id a) (id b)) ->
  grouping_inv (merge_index index st).
Proof.
  unfold merge_index. revert st.
  induction index as [|[k bucket] t IH]; intros st Hinv Hidx; [assumption|].
  cbn [fold_left snd]. apply IH.
  - destruct (1 <? List.length bucket); [|assumption].
    apply merge_groups_inv; [assumption|].
    intros c c' Hc Hc'. apply in_map_iff in Hc, Hc'.
    destruct Hc as (a & <- & Ha), Hc' as (b & <- & Hb).
    apply (Hidx k bucket); [left; reflexivity | assumption | assumption].
  - intros k' b' a b Hin. apply (Hidx k' b' a b). right. assumption.
Qed.

Lemma bucket_connected k bucket a b :
  dget (by_name contacts) k = Some bucket
  \/ dget (by_url contacts) k = Some bucket ->
  In a bucket -> In b bucket -> connected (id a) (id b).
Proof.
  intros Hk Ha Hb. destruct (Z.eq_dec (id a) (id b)) as [E|Hne].
  - rewrite E. apply rt_refl.
  - apply rt_step. exists a, b. split; [|auto].
    split; [congruence|]. exists k, bucket. auto.
Qed.

Lemma grouped_inv : grouping_inv (grouped contacts).
Proof.
  unfold grouped. apply merge_index_inv; [apply merge_index_inv|].
  - apply initial_inv.
  - intros k bucket a b Hin. apply (@bucket_connected k bucket a b). left.
    apply group_by_entry. assumption.
  - intros k bucket a b Hin. apply (@bucket_connected k bucket a b). right.
    apply group_by_entry. assumption.
Qed.

Lemma contacts_by_id_back (l : list contact) (d : dict Z contact) (Q : contact -> Prop) :
  (forall k c, dget d k = Some c -> id c = k /\ Q c) ->
  (forall c, In c l -> Q c) ->
  forall k c, dget (fold_left (fun d c => dset d (id c) c) l d) k = Some c ->
              id c = k /\ Q c.
Proof.
  revert d. induction l as [|c0 t IH]; intros d Hd Hl k c; cbn [fold_left].
  - apply Hd.
  - apply IH.
    + intros k' c'. rewrite dget_dset. destruct (beq k' (id c0)) eqn:E.
      * intros [= <-]. apply beq_eq in E. split; [congruence | apply Hl; left; reflexivity].
      * apply Hd.
    + intros c' Hc'. apply Hl. right. assumption.
Qed.

Lemma id_injective a b :
  In a contacts -> In b contacts -> id a = id b -> a = b.
Proof.
  clear -unique_ids. induction contacts as [|c t IH]; [intros []|].
  cbn [map] in unique_ids. inversion unique_ids as [|? ? Hc Hnd]; subst.
  intros [<-|Ha] [<-|Hb] E; auto.
  - exfalso. apply Hc. rewrite E. apply in_map. assumption.
  - exfalso. apply Hc. rewrite <- E. apply in_map. assumption.
Qed.

Lemma connected_contacts x y :
  connected x y ->
  forall a b, In a contacts -> In b contacts -> id a = x -> id b = y ->
              a = b \/ clos_trans contact (shares_key contacts) a b.
Proof.
  intros Hc. apply clos_rt_rtn1 in Hc.
  induction Hc as [|y z (a' & b' & Hs & Ea & Eb) _ IH]; intros a b Ha Hb Hx Hy.
  - left. apply id_injective; congruence.
  - destruct (@shares_key_In U contacts a' b' Hs) as [Ha' Hb'].
    assert (b' = b) by (apply id_injective; congruence). subst b'.
    destruct (IH a a' Ha Ha' Hx Ea) as [->|Ht].
    + right. apply t_step. assumption.
    + right. eapply t_trans; [exact Ht | apply t_step; assumption].
Qed.

(** A member of a returned group, with the entry of [contact_to_group] it
    comes from. *)
Lemma returned_member gid group a :
  In (gid, group) (find_duplicates contacts) -> In a group ->
  In a contacts /\ dget (contact_to_group (grouped contacts)) (id a) = Some gid.
Proof.
  unfold find_duplicates. intros Hin Ha.
  apply filter_In in Hin. destruct Hin as [Hin _].
  apply group_by_entry, group_by_get in Hin. subst group.
  apply In_values_for in Ha. destruct Ha as ([cid g] & Hcg & Hkv).
  unfold group_entry in Hkv. cbn [fst snd] in Hkv.
  destruct (dget (contacts_by_id contacts) cid) as [c|] eqn:Ec; [|discriminate].
  inversion Hkv; subst.
  assert (Hback : id a = cid /\ In a contacts).
  { apply (@contacts_by_id_back contacts [] (fun c => In c contacts)).
    - intros k c0 Hk. discriminate Hk.
    - auto.
    - exact Ec. }
  destruct Hback as [Hid Hac].
  split; [assumption|]. rewrite Hid.
  apply In_dget; [apply grouped_inv | assumption].
Qed.

End GroupingSound.

(** Two different contacts of the list with equal name keys longer than
    two characters, or equal non-empty URL keys. *)
Definition key_match {U : Unicode} (contacts : list Dedup.contact)
           (a b : Dedup.contact) : Prop :=
  In a contacts /\ In b contacts /\ a <> b
  /\ ((name_key a = name_key b /\ 2 < List.length (name_key a))
      \/ (url_key a = url_key b /\ url_key a <> [])).

Lemma shares_key_match {U : Unicode} (contacts : list Dedup.contact) a b :
  shares_key contacts a b -> key_match contacts a b.
Proof.
  intros Hs. destruct (@shares_key_In U contacts a b Hs) as [Ha Hb].
  destruct Hs as (Hab & k & bucket & [Hk|Hk] & Hain & Hbin).
  - destruct (@name_bucket_member U contacts k bucket a Hk Hain) as [_ Hea].
    destruct (@name_bucket_member U contacts k bucket b Hk Hbin) as [_ Heb].
    unfold Dedup.name_entry in Hea, Heb. fold (name_key a) in Hea.
    fold (name_key b) in Heb.
    destruct (nonempty (name_key a) && (2 <? List.length (name_key a))) eqn:Ea;
      [|discriminate].
    destruct (nonempty (name_key b) && (2 <? List.length (name_key b)));
      [|discriminate].
    apply andb_true_iff in Ea. destruct Ea as [_ Ea]. apply Nat.ltb_lt in Ea.
    repeat split; auto. left. split; [congruence | assumption].
  - destruct (@url_bucket_member U contacts k bucket a Hk Hain) as [_ Hea].
    destruct (@url_bucket_member U contacts k bucket b Hk Hbin) as [_ Heb].
    unfold Dedup.url_entry in Hea, Heb. fold (url_key a) in Hea.
    fold (url_key b) in Heb.
    destruct (nonempty (url_key a)) eqn:Ea; [|discriminate].
    destruct (nonempty (url_key b)); [|discriminate].
    repeat split; auto. right. split; [congruence|].
    destruct (url_key a); [discriminate | congruence].
Qed.

(** [find_duplicates] never groups unrelated contacts: with unique ids,
    two members of one returned group are the same contact or are linked by
    a chain of contacts of the list in which each one matches the next. *)
Lemma grouped_only_if_matched {U : Unicode} (contacts : list Dedup.contact)
        (gid : nat) (group : list Dedup.contact) (a b : Dedup.contact) :
  NoDup (map Dedup.id contacts) ->
  In (gid, group) (Dedup.find_duplicates contacts) ->
  In a group -> In b group ->
  a = b \/ clos_trans Dedup.contact (key_match contacts) a b.
Proof.
  intros Hnd Hin Ha Hb.
  destruct (@returned_member U contacts gid group a Hin Ha) as [Hac Hga].
  destruct (@returned_member U contacts gid group b Hin Hb) as [Hbc Hgb].
  assert (Hconn : connected contacts (Dedup.id a) (Dedup.id b)).
  { apply (inv_connected (@grouped_inv U contacts)). exists gid. auto. }
  destruct (@connected_contacts U contacts Hnd _ _ Hconn a b Hac Hbc eq_refl eq_refl)
    as [E|Ht]; [left; assumption|].
  right. clear -Ht. induction Ht as [a b Hs | a b c _ IH1 _ IH2].
  - apply t_step. apply shares_key_match. assumption.
  - eapply t_trans; eauto.
Qed.

Section ReturnedGroups.
Context {U : Unicode}.
Import Dedup.
Variable contacts : list contact.

Lemma values_ids_NoDup (by_id : dict Z contact) (gid : nat) (d : dict Z nat) :
  NoDup (keys d) ->
  (forall cid c, dget by_id cid = Some c -> id c = cid) ->
  NoDup (map id (values_for (group_entry by_id) gid d))
  /\ forall c, In c (values_for (group_entry by_id) gid d) -> In (id c) (keys d).
Proof.
  intros Hnd Hid. induction d as [|[cid g] t IH].
  - split; [constructor | intros c []].
  - cbn [keys map fst] in Hnd. inversion Hnd as [|? ? Hc Hnd']; subst.
    destruct (IH Hnd') as [IHnd IHin].
    unfold values_for. cbn [flat_map]. fold (values_for (group_entry by_id) gid t).
    unfold group_entry at 1 3. cbn [fst snd].
    destruct (dget by_id cid) as [c|] eqn:Ec; cbn [app].
    + destruct (beq gid g); cbn [app map].
      * apply Hid in Ec. split.
        -- constructor; [|assumption]. rewrite Ec. intros Hin.
           apply in_map_iff in Hin. destruct Hin as (c' & Hc' & Hin').
           apply IHin in Hin'. rewrite Hc' in Hin'. contradiction.
        -- intros c' [<-|Hc']; [left; symmetry; assumption | right; auto].
      * split; [assumption | intros c' Hc'; right; auto].
    + split; [assumption | intros c' Hc'; right; auto].
Qed.

Lemma contacts_by_id_ids cid c :
  dget (contacts_by_id contacts) cid = Some c -> id c = cid.
Proof.
  intros Hc.
  apply (@contacts_by_id_back contacts [] (fun _ => True)
           (fun k c0 Hk => ltac:(discriminate Hk)) (fun _ _ => I) cid c Hc).
Qed.

End ReturnedGroups.

(** X3.  What [find_duplicates] returns is a family of disjoint groups of
    contacts of the list: the group ids are distinct, every group has at
    least two members, its members are contacts of the list with pairwise
    different ids, and no contact is in two groups. *)
Theorem returned_groups_disjoint {U : Unicode} (contacts : list Dedup.contact) :
  NoDup (keys (Dedup.find_duplicates contacts))
  /\ (forall gid group,
         In (gid, group) (Dedup.find_duplicates contacts) ->
         2 <= List.length group
         /\ NoDup (map Dedup.id group)
         /\ forall a, In a group -> In a contacts)
  /\ (forall gid group gid' group' a,
         In (gid, group) (Dedup.find_duplicates contacts) ->
         In (gid', group') (Dedup.find_duplicates contacts) ->
         In a group -> In a group' ->
         gid = gid' /\ group = group').
Proof.
  set (final := group_by (Dedup.group_entry (Dedup.contacts_by_id contacts))
                         (Dedup.contact_to_group (Dedup.grouped contacts))).
  assert (Hfinal : NoDup (keys final)) by apply NoDup_keys_group_by.
  assert (Hsub : forall gid group,
             In (gid, group) (Dedup.find_duplicates contacts) ->
             In (gid, group) final /\ 1 < List.length group).
  { intros gid group Hin. unfold Dedup.find_duplicates in Hin.
    apply filter_In in Hin. cbn [snd] in Hin. rewrite Nat.ltb_lt in Hin. exact Hin. }
  split; [|split].
  - unfold Dedup.find_duplicates. fold final. clear -Hfinal.
    induction final as [|[g l] t IH]; [constructor|].
    cbn [keys map fst] in Hfinal. inversion Hfinal as [|? ? Hg Hnd']; subst.
    cbn [filter snd]. destruct (1 <? List.length l); [|auto].
    cbn [keys map fst]. constructor; [|auto].
    intros Hin. apply Hg. apply in_map_iff in Hin.
    destruct Hin as ([g' l'] & E & Hin). cbn [fst] in E. subst g'.
    apply filter_In in Hin. destruct Hin as [Hin _].
    apply in_map_iff. exists (g, l'). auto.
  - intros gid group Hin. destruct (Hsub gid group Hin) as [Hfin Hlen].
    split; [lia|]. split.
    + apply group_by_entry, group_by_get in Hfin. subst group.
      apply values_ids_NoDup.
      * apply (inv_keys (@grouped_inv U contacts)).
      * apply contacts_by_id_ids.
    + intros a Ha. apply (@returned_member U contacts gid group a Hin Ha).
  - intros gid group gid' group' a Hin Hin' Ha Ha'.
    destruct (@returned_member U contacts gid group a Hin Ha) as [_ Hg].
    destruct (@returned_member U contacts gid' group' a Hin' Ha') as [_ Hg'].
    assert (gid' = gid) by congruence. subst gid'.
    split; [reflexivity|].
    destruct (Hsub gid group Hin) as [Hfin _].
    destruct (Hsub gid group' Hin') as [Hfin' _].
    apply group_by_entry in Hfin, Hfin'. congruence.
Qed.

(** ** The sorted group *)

Section SortedGroup.
Context {U : Unicode}.
Import Dedup.

(** [x] is not below [y] in the order of the sort keys. *)
Definition not_below (x y : contact) : Prop :=
  key_compare (sort_key y) (sort_key x) <> Gt.

Lemma insert_desc_perm x l : Permutation (insert_desc x l) (x :: l).
Proof.
  induction l as [|y t IH]; cbn [insert_desc]; [reflexivity|].
  destruct (key_compare (sort_key y) (sort_key x)); try reflexivity.
  rewrite IH. apply perm_swap.
Qed.

Lemma sort_group_perm group : Permutation (sort_group group) group.
Proof.
  unfold sort_group. induction group as [|x t IH]; cbn [fold_right]; [reflexivity|].
  rewrite insert_desc_perm. constructor. assumption.
Qed.

Lemma insert_desc_sorted x l :
  StronglySorted not_below l -> StronglySorted not_below (insert_desc x l).
Proof.
  induction 1 as [|y t Ht IH Hy]; cbn [insert_desc].
  - repeat constructor.
  - destruct (key_compare (sort_key y) (sort_key x)) eqn:E.
    + constructor; [constructor; assumption|].
      constructor; [unfold not_below; congruence|].
      eapply Forall_impl; [|exact Hy]. intros z Hz. unfold not_below in *.
      apply key_le_trans with (sort_key y); [assumption | congruence].
    + constructor; [constructor; assumption|].
      constructor; [unfold not_below; congruence|].
      eapply Forall_impl; [|exact Hy]. intros z Hz. unfold not_below in *.
      apply key_le_trans with (sort_key y); [assumption | congruence].
    + constructor; [assumption|].
      apply Forall_forall. intros z Hz. apply In_insert_desc in Hz.
      destruct Hz as [->|Hz].
      * unfold not_below. apply key_lt_le. assumption.
      * rewrite Forall_forall in Hy. auto.
Qed.

Lemma sort_group_sorted group : StronglySorted not_below (sort_group group).
Proof.
  unfold sort_group. induction group as [|x t IH]; cbn [fold_right].
  - constructor.
  - apply insert_desc_sorted. assumption.
Qed.

End SortedGroup.

(** X4.  Sorting a group loses and invents nothing and orders it by
    descending [(score, -id)]: the sorted list is a permutation of the
    group, and no member stands before one with a greater key.  So the
    members are exactly the keeper and the contacts to delete, and when the
    ids of the group are pairwise different the keeper is not one of the
    contacts deleted. *)
Theorem sort_group_spec {U : Unicode} (group : list Dedup.contact) :
  Permutation (Dedup.sort_group group) group
  /\ StronglySorted
       (fun x y => Dedup.key_compare (Dedup.sort_key y) (Dedup.sort_key x) <> Gt)
       (Dedup.sort_group group)
  /\ (forall keeper to_delete,
         NoDup (map Dedup.id group) ->
         Dedup.sort_group group = keeper :: to_delete ->
         ~ In (Dedup.id keeper) (map Dedup.id to_delete)).
Proof.
  split; [apply sort_group_perm | split; [apply sort_group_sorted|]].
  intros keeper to_delete Hnd Hs.
  assert (Hp : Permutation (map Dedup.id group)
                           (map Dedup.id (keeper :: to_delete))).
  { apply Permutation_map. rewrite <- Hs. symmetry. apply sort_group_perm. }
  apply (Permutation_NoDup Hp) in Hnd. cbn [map] in Hnd.
  inversion Hnd. assumption.
Qed.

Lemma sort_group_spec_witness :
  ~ In 2%Z (map Dedup.id [with_props 1 [("city", "Rome")]%string;
                          with_props 3 [("city", "Bergen")]%string]).
Proof.
  destruct (@sort_group_spec ascii_tables
              [with_props 1 [("city", "Rome")]%string;
               with_props 2 [("email", "b@x.io"); ("phone", "555")]%string;
               with_props 3 [("city", "Bergen")]%string]) as (_ & _ & Hkeep).
  apply (Hkeep (with_props 2 [("email", "b@x.io"); ("phone", "555")]%string)).
  - repeat constructor; simpl; intuition discriminate.
  - vm_compute. reflexivity.
Defined.

Lemma score_email_le {U : Unicode} (c k : Dedup.contact) :
  Dedup.score_compare (Dedup.score c) (Dedup.score k) <> Gt ->
  (Dedup.filled_in c "email" = true -> Dedup.filled_in k "email" = true)
  /\ (Dedup.filled_in c "email" = Dedup.filled_in k "email" ->
      Dedup.filled_in c "hs_linkedin_url" = true ->
      Dedup.filled_in k "hs_linkedin_url" = true).
Proof.
  unfold Dedup.score.
  generalize (List.length (filter (Dedup.filled_in c) Dedup.FIELDS)).
  generalize (List.length (filter (Dedup.filled_in k) Dedup.FIELDS)).
  intros n m. unfold Dedup.score_compare.
  destruct (Dedup.filled_in c "email"), (Dedup.filled_in k "email"),
    (Dedup.filled_in c "hs_linkedin_url"), (Dedup.filled_in k "hs_linkedin_url");
    cbn [Nat.compare]; intros H; split; intros; try reflexivity;
    try discriminate; try (exfalso; apply H; reflexivity).
Qed.

(** X5.  A contact with an e-mail address is never given up for one
    without: if any member of the group has [email] filled, so has the
    keeper; and among members that agree with the keeper on [email], if
    one has [hs_linkedin_url] filled, so has the keeper.  The ids play no
    part in this. *)
Theorem keeper_prefers_email {U : Unicode} (group : list Dedup.contact)
        (keeper : Dedup.contact) (to_delete : list Dedup.contact)
        (c : Dedup.contact) :
  Dedup.sort_group group = keeper :: to_delete ->
  In c group ->
  (Dedup.filled_in c "email" = true -> Dedup.filled_in keeper "email" = true)
  /\ (Dedup.filled_in c "email" = Dedup.filled_in keeper "email" ->
      Dedup.filled_in c "hs_linkedin_url" = true ->
      Dedup.filled_in keeper "hs_linkedin_url" = true).
Proof.
  intros Hs Hc.
  pose proof (sort_group_head group) as Hh. rewrite Hs in Hh. cbn in Hh.
  assert (Hin : In c (keeper :: to_delete)).
  { rewrite <- Hs. apply In_sort_group. assumption. }
  specialize (Hh c Hin). apply score_email_le.
  intros Hgt. apply Hh. unfold Dedup.key_compare, Dedup.sort_key. cbn [fst snd].
  rewrite Hgt. reflexivity.
Qed.

Lemma keeper_prefers_email_witness :
  Dedup.filled_in (with_props 2 [("email", "b@x.io"); ("phone", "555")]%string)
                  "email" = true.
Proof.
  apply (@keeper_prefers_email ascii_tables
           [with_props 1 [("city", "Rome")]%string;
            with_props 2 [("email", "b@x.io"); ("phone", "555")]%string;
            with_props 9 [("email", "i@x.io")]%string]
           (with_props 2 [("email", "b@x.io"); ("phone", "555")]%string)
           [with_props 9 [("email", "i@x.io")]%string;
            with_props 1 [("city", "Rome")]%string]
           (with_props 9 [("email", "i@x.io")]%string)).
  - vm_compute. reflexivity.
  - simpl; auto.
  - vm_compute. reflexivity.
Defined.

(** ** What a run reports *)

Section Totals.
Context {U : Unicode}.
Import Dedup.

(** 1 when the group has something to merge into its keeper. *)
Definition merges (group : list contact) : nat :=
  match sort_group group with
  | [] => 0
  | keeper :: to_delete =>
      match merge_updates keeper to_delete with
      | [] => 0
      | _ :: _ => 1
      end
  end.

Lemma sorted_items_perm (dupes : dict nat (list contact)) :
  Permutation (sorted_items dupes) dupes.
Proof.
  unfold sorted_items. induction dupes as [|x t IH]; cbn [fold_right]; [reflexivity|].
  transitivity (x :: fold_right insert_gid [] t); [|constructor; assumption].
  generalize (fold_right insert_gid [] t). intros l. clear.
  induction l as [|y l IH]; cbn [insert_gid]; [reflexivity|].
  destruct (fst y <? fst x); [|reflexivity].
  rewrite IH. apply perm_swap.
Qed.

Lemma list_sum_perm (l l' : list nat) : Permutation l l' -> list_sum l = list_sum l'.
Proof.
  induction 1; repeat change (list_sum (?a :: ?l)) with (a + list_sum l); lia.
Qed.

End Totals.

Lemma groups_deleted_lower_bound {A} (l : list (nat * list A)) :
  (forall gg, In gg l -> 2 <= List.length (snd gg)) ->
  List.length l <= list_sum (map (fun gg => List.length (snd gg) - 1) l).
Proof.
  induction l as [|gg t IH]; intros Hl; [cbn; lia|].
  cbn [map List.length].
  change (list_sum (?a :: ?l)) with (a + list_sum l).
  pose proof (Hl gg (or_introl eq_refl)).
  assert (List.length t
          <= list_sum (map (fun gg => List.length (snd gg) - 1) t)).
  { apply IH. intros g Hg. apply Hl. right. assumption. }
  lia.
Qed.

(** ** Runs of [process_duplicates] *)

Section Runs.
Context {U : Unicode}.
Variable server : list Dedup.call -> Dedup.request -> Dedup.answer.
Import Dedup.

(** Sending requests one after the other, until one raises. *)
Fixpoint send_all (reqs : list request) (tr : list call)
  : option exn * list call :=
  match reqs with
  | [] => (None, tr)
  | req :: rest =>
      match server tr req with
      | Returns result => send_all rest (tr ++ [(req, Returns result)])
      | Raises e => (Some e, tr ++ [(req, Raises e)])
      end
  end.

(** What a run comes to when its requests have been sent: the exception of
    the request that raised, or else [r]. *)
Definition finish {A} (sent : option exn * list call) (r : result A)
  : result A * list call :=
  match fst sent with
  | Some e => (Raise e, snd sent)
  | None => (r, snd sent)
  end.

(** The requests of a run over the groups [gs], in the order [gs] lists
    them: group after group, up to the first group without members. *)
Fixpoint planned (gs : list (nat * list contact)) : list request :=
  match gs with
  | [] => []
  | gg :: rest =>
      match snd gg with
      | [] => []
      | _ :: _ => group_requests (snd gg) ++ planned rest
      end
  end.

Definition no_members (gg : nat * list contact) : bool :=
  match snd gg with
  | [] => true
  | _ :: _ => false
  end.

(** What a run over [gs] returns when no request raises. *)
Definition outcome (gs : list (nat * list contact)) (totals : nat * nat)
  : result (nat * nat) :=
  if existsb no_members gs then Raise IndexError
  else Ok (fst totals + list_sum (map (fun gg => merges (snd gg)) gs),
           snd totals + list_sum (map (fun gg => List.length (snd gg) - 1) gs)).

Lemma send_all_app (r1 r2 : list request) (tr : list call) :
  send_all (r1 ++ r2) tr
  = match fst (send_all r1 tr) with
    | Some e => send_all r1 tr
    | None => send_all r2 (snd (send_all r1 tr))
    end.
Proof.
  revert tr. induction r1 as [|req r1 IH]; intros tr; [reflexivity|].
  cbn [app send_all]. destruct (server tr req); [apply IH | reflexivity].
Qed.

Lemma deletes_send (dry_run : bool) (to_delete : list contact) (n : nat)
      (tr : list call) :
  for_each (fun n dup =>
              bind (if dry_run then ret true
                    else hs_request server (DELETE (id dup)))
                   (fun _ => ret (S n))) to_delete n tr
  = finish (send_all (if dry_run then []
                      else map (fun dup => DELETE (id dup)) to_delete) tr)
           (Ok (n + List.length to_delete)).
Proof.
  revert n tr. induction to_delete as [|d t IH]; intros n tr.
  - cbn. rewrite Nat.add_0_r. destruct dry_run; reflexivity.
  - cbn [for_each]. unfold bind at 1. unfold bind at 1.
    destruct dry_run.
    + unfold ret at 1 2. rewrite IH. cbn [send_all List.length].
      rewrite Nat.add_succ_r. reflexivity.
    + unfold hs_request at 1. cbn [map send_all].
      destruct (server tr (DELETE (id d))) as [result|e].
      * unfold ret at 1. rewrite IH. cbn [List.length].
        rewrite Nat.add_succ_r. reflexivity.
      * reflexivity.
Qed.

Lemma process_group_send (dry_run : bool) (group : list contact)
      (totals : nat * nat) (tr : list call) :
  group <> [] ->
  process_group server dry_run totals group tr
  = finish (send_all (if dry_run then [] else group_requests group) tr)
           (Ok (fst totals + merges group,
                snd totals + (List.length group - 1))).
Proof.
  intros Hne.
  assert (Hlen : List.length (sort_group group) = List.length group)
    by (apply Permutation_length, sort_group_perm).
  apply (@sort_group_nonempty U) in Hne.
  unfold process_group, merges, group_requests.
  destruct (sort_group group) as [|keeper to_delete]; [congruence|].
  cbn [List.length] in Hlen.
  replace (List.length group - 1) with (List.length to_delete) by lia.
  destruct (merge_updates keeper to_delete) as [|kv mu] eqn:Emu.
  - unfold bind at 1. unfold ret at 1. unfold bind at 1.
    rewrite (deletes_send dry_run to_delete (snd totals) tr).
    cbn [app]. rewrite Nat.add_0_r.
    unfold finish.
    destruct (send_all _ tr) as [[e|] tr']; reflexivity.
  - unfold bind at 1. unfold bind at 1. destruct dry_run.
    + unfold ret at 1 2. unfold bind at 1.
      rewrite (deletes_send true to_delete (snd totals) tr).
      unfold finish. cbn [send_all fst snd]. unfold ret.
      rewrite Nat.add_1_r. reflexivity.
    + unfold hs_request at 1. cbn [app send_all].
      destruct (server tr (PATCH (id keeper) (kv :: mu))) as [result|e].
      * unfold ret at 1. unfold bind at 1.
        rewrite (deletes_send false to_delete (snd totals)).
        unfold finish.
        destruct (send_all _ _) as [[e|] tr']; cbn [fst snd]; [reflexivity|].
        unfold ret. rewrite Nat.add_1_r. reflexivity.
      * reflexivity.
Qed.

(** A run, in either mode: it sends the planned requests until one raises,
    and otherwise ends as [outcome] says. *)
Lemma process_groups_send (dry_run : bool) (gs : list (nat * list contact))
      (totals : nat * nat) (tr : list call) :
  for_each (fun totals gg => process_group server dry_run totals (snd gg))
           gs totals tr
  = finish (send_all (if dry_run then [] else planned gs) tr) (outcome gs totals).
Proof.
  revert totals tr. induction gs as [|gg gs IH]; intros totals tr.
  - unfold outcome. cbn. rewrite !Nat.add_0_r. destruct totals, dry_run;
      reflexivity.
  - cbn [for_each]. unfold bind at 1.
    destruct (snd gg) as [|c t] eqn:Eg.
    + unfold outcome. cbn [existsb planned]. unfold no_members at 1.
      rewrite Eg. cbn [orb]. destruct dry_run; reflexivity.
    + rewrite process_group_send by discriminate.
      assert (Hout : outcome (gg :: gs) totals
                     = outcome gs (fst totals + merges (c :: t),
                                   snd totals + (List.length (c :: t) - 1))).
      { unfold outcome. cbn [existsb map]. unfold no_members at 1.
        rewrite Eg. cbn [orb fst snd].
        destruct (existsb no_members gs); [reflexivity|].
        change (list_sum (?a :: ?l)) with (a + list_sum l).
        rewrite !Nat.add_assoc. reflexivity. }
      rewrite Hout. cbn [planned]. rewrite Eg.
      destruct dry_run.
      * unfold finish at 1. cbn [send_all fst snd]. apply IH.
      * rewrite send_all_app. unfold finish at 1.
        destruct (send_all (group_requests (c :: t)) tr) as [[e|] tr'];
          cbn [fst snd]; [reflexivity|].
        apply IH.
Qed.

(** A call that came back. *)
Definition returned (c : call) : Prop := exists result, snd c = Returns result.

(** The calls of [send_all]: they follow the requests in order; every one
    but possibly the last returned, and the last raised exactly when the
    sending stopped. *)
Lemma send_all_calls (reqs : list request) (tr : list call) :
  exists calls,
    snd (send_all reqs tr) = tr ++ calls
    /\ match fst (send_all reqs tr) with
       | None => map fst calls = reqs /\ Forall returned calls
       | Some e =>
           exists pre req rest,
             calls = pre ++ [(req, Raises e)]
             /\ reqs = map fst pre ++ req :: rest
             /\ Forall returned pre
             /\ server (tr ++ pre) req = Raises e
       end.
Proof.
  revert tr. induction reqs as [|req reqs IH]; intros tr.
  - exists []. cbn. rewrite app_nil_r. auto.
  - cbn [send_all]. destruct (server tr req) as [result|e] eqn:Es.
    + destruct (IH (tr ++ [(req, Returns result)])) as (calls & Htr & Hcalls).
      exists ((req, Returns result) :: calls). split.
      * rewrite Htr, <- app_assoc. reflexivity.
      * destruct (fst (send_all reqs (tr ++ [(req, Returns result)]))) as [e|].
        -- destruct Hcalls as (pre & r & rest & -> & -> & Hpre & Hs).
           exists ((req, Returns result) :: pre), r, rest.
           repeat split.
           ++ constructor; [exists result; reflexivity | assumption].
           ++ rewrite <- app_assoc in Hs. exact Hs.
        -- destruct Hcalls as [<- Hall]. split; [reflexivity|].
           constructor; [exists result; reflexivity | assumption].
    + exists [(req, Raises e)]. split; [reflexivity|].
      cbn [fst]. exists [], req, reqs. rewrite app_nil_r. repeat split.
      * constructor.
      * exact Es.
Qed.

End Runs.



Section RunLemmas.
Context {U : Unicode}.
Variable server : list Dedup.call -> Dedup.request -> Dedup.answer.
Import Dedup.




Lemma group_requests_length (group : list contact) :
  group <> [] ->
  List.length (group_requests group) = merges group + (List.length group - 1).
Proof.
  intros Hne.
  assert (Hlen : List.length (sort_group group) = List.length group)
    by (apply Permutation_length, sort_group_perm).
  apply (@sort_group_nonempty U) in Hne.
  unfold group_requests, merges.
  destruct (sort_group group) as [|keeper to_delete]; [congruence|].
  cbn [List.length] in Hlen.
  rewrite length_app, length_map.
  destruct (merge_updates keeper to_delete); cbn [List.length]; lia.
Qed.

Lemma planned_length (gs : list (nat * list contact)) :
  existsb no_members gs = false ->
  List.length (planned gs)
  = list_sum (map (fun gg => merges (snd gg)) gs)
    + list_sum (map (fun gg => List.length (snd gg) - 1) gs).
Proof.
  induction gs as [|g0 gs IH]; intros Hne; [reflexivity|].
  cbn [existsb] in Hne. apply orb_false_iff in Hne. destruct Hne as [Hg0 Hne].
  cbn [planned map]. unfold no_members in Hg0.
  repeat change (list_sum (?a :: ?l)) with (a + list_sum l).
  destruct (snd g0) as [|c t] eqn:Eg; [discriminate Hg0|].
  rewrite length_app, IH by assumption.
  rewrite group_requests_length by discriminate. lia.
Qed.

Lemma no_members_false (gs : list (nat * list contact)) :
  (forall gg, In gg gs -> snd gg <> []) -> existsb no_members gs = false.
Proof.
  induction gs as [|g0 gs IH]; intros Hne; [reflexivity|].
  cbn [existsb]. rewrite IH by (intros g Hg; apply Hne; right; assumption).
  unfold no_members. pose proof (Hne g0 (or_introl eq_refl)).
  destruct (snd g0); [congruence | reflexivity].
Qed.

Lemma no_members_true (gs : list (nat * list contact)) gid :
  In (gid, []) gs -> existsb no_members gs = true.
Proof.
  intros Hin. apply existsb_exists. exists (gid, []). auto.
Qed.

(** The result and the calls of a run, read off [send_all]. *)
Lemma run_cases (dry_run : bool) (dupes : dict nat (list contact)) :
  let run := process_duplicates server dupes dry_run [] in
  let gs := sorted_items dupes in
  (dry_run = true -> run = (outcome gs (0, 0), []))
  /\ (dry_run = false ->
      (fst run = outcome gs (0, 0)
       /\ map fst (snd run) = planned gs
       /\ Forall returned (snd run))
      \/ (exists e pre req rest,
             fst run = Raise e
             /\ snd run = pre ++ [(req, Raises e)]
             /\ planned gs = map fst pre ++ req :: rest
             /\ Forall returned pre
             /\ server pre req = Raises e)).
Proof.
  intros run gs. subst run. unfold process_duplicates. fold gs.
  rewrite process_groups_send. split.
  - intros ->. reflexivity.
  - intros ->.
    destruct (send_all_calls server (planned gs) []) as (calls & Htr & Hcalls).
    unfold finish. cbn [app] in Htr.
    destruct (fst (send_all server (planned gs) [])) as [e|].
    + right. destruct Hcalls as (pre & req & rest & -> & Hp & Hpre & Hs).
      exists e, pre, req, rest. cbn [fst snd]. auto.
    + left. destruct Hcalls as [Hm Hall]. cbn [fst snd]. rewrite Htr. auto.
Qed.

End RunLemmas.



(** A CRM that accepts everything but loses the connection on the fourth
    request. *)
Definition flaky_server (tr : list Dedup.call) (req : Dedup.request)
  : Dedup.answer :=
  if List.length tr =? 3 then Dedup.Raises URLError else Dedup.Returns true.


(** X6.  Over groups that all have members.  A dry run sends nothing and
    returns the number of groups with a non-empty merge update and the
    number of non-keeper members.  A real run sends one request per counted
    merge and delete: either every request returns (accepted, or refused
    with an HTTP error), and the run returns the same two numbers; or a
    request raises, and the run ends there with that exception, having sent
    fewer requests than that before it. *)
Theorem process_duplicates_totals {U : Unicode}
        (server : list Dedup.call -> Dedup.request -> Dedup.answer)
        (dupes : dict nat (list Dedup.contact)) (dry_run : bool) :
  (forall gid group, In (gid, group) dupes -> group <> []) ->
  let merged := list_sum (map (fun gg => merges (snd gg)) dupes) in
  let deleted := list_sum (map (fun gg => List.length (snd gg) - 1) dupes) in
  let run := Dedup.process_duplicates server dupes dry_run [] in
  (dry_run = true -> run = (Ok (merged, deleted), []))
  /\ (dry_run = false ->
      (fst run = Ok (merged, deleted)
       /\ List.length (snd run) = merged + deleted
       /\ Forall returned (snd run))
      \/ (exists e pre req,
             fst run = Raise e
             /\ snd run = pre ++ [(req, Dedup.Raises e)]
             /\ server pre req = Dedup.Raises e
             /\ Forall returned pre
             /\ List.length pre < merged + deleted)).
Proof.
  intros Hne merged deleted run.
  assert (Hnm : existsb no_members (Dedup.sorted_items dupes) = false).
  { apply no_members_false. intros [gid g] Hg.
    apply (proj1 (In_sorted_items _ _)) in Hg. cbn [snd]. exact (Hne gid g Hg). }
  assert (Hout : outcome (Dedup.sorted_items dupes) (0, 0)
                 = Ok (merged, deleted)).
  { unfold outcome. rewrite Hnm. cbn [fst snd Nat.add]. subst merged deleted.
    pose proof (sorted_items_perm dupes) as Hp.
    rewrite (list_sum_perm (Permutation_map (fun gg => merges (snd gg)) Hp)).
    rewrite (list_sum_perm
               (Permutation_map (fun gg => List.length (snd gg) - 1) Hp)).
    reflexivity. }
  assert (Hlen : List.length (planned (Dedup.sorted_items dupes))
                 = merged + deleted).
  { rewrite (@planned_length U _ Hnm). subst merged deleted.
    pose proof (sorted_items_perm dupes) as Hp.
    rewrite (list_sum_perm (Permutation_map (fun gg => merges (snd gg)) Hp)).
    rewrite (list_sum_perm
               (Permutation_map (fun gg => List.length (snd gg) - 1) Hp)).
    reflexivity. }
  destruct (@run_cases U server dry_run dupes) as [Hdry Hreal].
  fold run in Hdry, Hreal. split.
  - intros E. rewrite (Hdry E), Hout. reflexivity.
  - intros E.
    destruct (Hreal E) as [(Hres & Hm & Hall)
                          |(e & pre & req & rest & Hres & Htr & Hp & Hall & Hs)].
    + left. rewrite Hres, Hout. repeat split; [|assumption].
      rewrite <- Hlen, <- Hm, length_map. reflexivity.
    + right. exists e, pre, req. repeat split; try assumption.
      rewrite <- Hlen, Hp, length_app, length_map. cbn [List.length]. lia.
Qed.

Lemma process_duplicates_totals_witness :
  Dedup.process_duplicates flaky_server example_dupes true []
  = (Ok (2, 3), []).
Proof.
  destruct (@process_duplicates_totals ascii_tables flaky_server
              example_dupes true) as [Hdry _].
  - intros gid group [E|[E|[]]]; inversion E; discriminate.
  - apply Hdry. reflexivity.
Defined.

(** X7.  [keeper = group[0]] on a group without members raises
    [IndexError]: a run over groups one of which is empty never returns.
    It ends with that exception, in a dry run too (where nothing has been
    sent), unless a request of an earlier group raised first; so it ends
    with [IndexError] whenever every request returns. *)
Theorem process_duplicates_empty_group {U : Unicode}
        (server : list Dedup.call -> Dedup.request -> Dedup.answer)
        (dupes : dict nat (list Dedup.contact)) (dry_run : bool) (gid : nat) :
  In (gid, []) dupes ->
  let run := Dedup.process_duplicates server dupes dry_run [] in
  (fst run = Raise IndexError
   \/ (dry_run = false
       /\ exists e pre req,
            fst run = Raise e
            /\ snd run = pre ++ [(req, Dedup.Raises e)]
            /\ server pre req = Dedup.Raises e))
  /\ (dry_run = true -> run = (Raise IndexError, []))
  /\ ((forall tr req, exists result, server tr req = Dedup.Returns result) ->
      fst run = Raise IndexError).
Proof.
  intros Hin run.
  assert (Hout : outcome (Dedup.sorted_items dupes) (0, 0) = Raise IndexError).
  { unfold outcome. rewrite (@no_members_true _ gid); [reflexivity|].
    apply In_sorted_items. assumption. }
  destruct (@run_cases U server dry_run dupes) as [Hdry Hreal].
  fold run in Hdry, Hreal. rewrite Hout in Hdry, Hreal.
  assert (Hcases : fst run = Raise IndexError
                   \/ (dry_run = false
                       /\ exists e pre req,
                            fst run = Raise e
                            /\ snd run = pre ++ [(req, Dedup.Raises e)]
                            /\ server pre req = Dedup.Raises e)).
  { destruct dry_run.
    - left. rewrite (Hdry eq_refl). reflexivity.
    - destruct (Hreal eq_refl)
        as [(Hres & _)|(e & pre & req & rest & Hres & Htr & _ & _ & Hs)].
      + left. assumption.
      + right. split; [reflexivity|]. exists e, pre, req. auto. }
  split; [exact Hcases|]. split; [exact Hdry|].
  intros Hanswers.
  destruct Hcases as [H|(_ & e & pre & req & _ & _ & Hs)]; [assumption|].
  destruct (Hanswers pre req) as (result & Hr). congruence.
Qed.

Lemma process_duplicates_empty_group_witness :
  fst (Dedup.process_duplicates (fun _ _ => Dedup.Returns true)
         ((2, []) :: example_dupes) false []) = Raise IndexError.
Proof.
  destruct (@process_duplicates_empty_group ascii_tables
              (fun _ _ => Dedup.Returns true)
              ((2, []) :: example_dupes) false 2) as (_ & _ & H).
  - left. reflexivity.
  - apply H. intros tr req. exists true. reflexivity.
Defined.

(** X8.  The groups that [find_duplicates] returns never make
    [process_duplicates] fail by themselves: for every contact list, CRM and
    mode, the run over them returns, with at least one counted deletion per
    group, unless a request raises; then the run ends with what that
    request raised, right after it. *)
Theorem dedup_pipeline_completes {U : Unicode}
        (server : list Dedup.call -> Dedup.request -> Dedup.answer)
        (contacts : list Dedup.contact) (dry_run : bool) :
  let groups := Dedup.find_duplicates contacts in
  let run := Dedup.process_duplicates server groups dry_run [] in
  (exists merged deleted,
      fst run = Ok (merged, deleted) /\ List.length groups <= deleted)
  \/ (dry_run = false
      /\ exists e pre req,
           fst run = Raise e
           /\ snd run = pre ++ [(req, Dedup.Raises e)]
           /\ server pre req = Dedup.Raises e).
Proof.
  intros groups run.
  destruct (@returned_groups_disjoint U contacts) as (_ & Hgroups & _).
  fold groups in Hgroups.
  assert (Hnm : existsb no_members (Dedup.sorted_items groups) = false).
  { apply no_members_false. intros [gid g] Hg.
    apply (proj1 (In_sorted_items _ _)) in Hg. cbn [snd].
    destruct (Hgroups gid g Hg) as [Hlen _].
    destruct g; [simpl in Hlen; lia | discriminate]. }
  assert (Hout : exists merged deleted,
             outcome (Dedup.sorted_items groups) (0, 0) = Ok (merged, deleted)
             /\ List.length groups <= deleted).
  { unfold outcome. rewrite Hnm. eexists _, _. split; [reflexivity|].
    cbn [snd Nat.add].
    rewrite (list_sum_perm
               (Permutation_map (fun gg => List.length (snd gg) - 1)
                                (sorted_items_perm groups))).
    apply groups_deleted_lower_bound.
    intros gg Hin. destruct gg as [g l]. apply (Hgroups g l Hin). }
  destruct Hout as (merged & deleted & Hout & Hle).
  destruct (@run_cases U server dry_run groups) as [Hdry Hreal].
  fold run in Hdry, Hreal. rewrite Hout in Hdry, Hreal.
  destruct dry_run.
  - left. exists merged, deleted. rewrite (Hdry eq_refl). auto.
  - destruct (Hreal eq_refl)
      as [(Hres & _)|(e & pre & req & rest & Hres & Htr & _ & _ & Hs)].
    + left. exists merged, deleted. auto.
    + right. split; [reflexivity|]. exists e, pre, req. auto.
Qed.

(** ** The shape of a name key *)

Section NameKeyShape.
Context {U : Unicode}.

(** A non-empty run of characters none of which is whitespace. *)
Definition is_word (w : pystr) : Prop :=
  w <> [] /\ forall c, In c w -> isspace c = false.

Lemma split_ws_go_words (cur s : pystr) :
  (forall c, In c cur -> isspace c = false) ->
  Forall is_word (split_ws_go cur s).
Proof.
  revert cur. induction s as [|c t IH]; intros cur Hcur; cbn [split_ws_go].
  - destruct cur as [|x cur']; cbn [nonempty]; constructor; [|constructor].
    split; [discriminate | assumption].
  - destruct (isspace c) eqn:Ec.
    + apply Forall_app. split.
      * destruct cur as [|x cur']; cbn [nonempty]; constructor; [|constructor].
        split; [discriminate | assumption].
      * apply IH. intros ? [].
    + apply IH. intros x Hx. apply in_app_or in Hx.
      destruct Hx as [Hx|[<-|[]]]; auto.
Qed.

Lemma split_ws_words (s : pystr) : Forall is_word (split_ws s).
Proof. apply split_ws_go_words. intros ? []. Qed.

Lemma dropwhile_keep (p : N -> bool) (s : pystr) :
  (forall c t, s = c :: t -> p c = false) -> dropwhile p s = s.
Proof.
  destruct s as [|c t]; [reflexivity|]. intros Hs. cbn [dropwhile].
  rewrite (Hs c t eq_refl). reflexivity.
Qed.

Lemma strip_keep (s : pystr) :
  (forall c t, s = c :: t -> isspace c = false) ->
  (forall pre c, s = pre ++ [c] -> isspace c = false) ->
  strip s = s.
Proof.
  intros Hhd Hlast. unfold strip, lstrip_by, rstrip_by.
  rewrite (@dropwhile_keep isspace s Hhd).
  rewrite dropwhile_keep; [apply rev_involutive|].
  intros c t E. apply (Hlast (rev t) c).
  rewrite <- (rev_involutive s), E. reflexivity.
Qed.

Lemma join_head (sep : pystr) (words : list pystr) c t :
  Forall is_word words -> join sep words = c :: t -> isspace c = false.
Proof.
  intros Hw. destruct Hw as [|w ws [Hne Hw] Hws]; [discriminate|].
  destruct w as [|x w']; [congruence|].
  assert (Hx : isspace x = false) by (apply Hw; left; reflexivity).
  cbn [join]. destruct ws; cbn [app]; intros [= <- _]; assumption.
Qed.

Lemma join_last (sep : pystr) (words : list pystr) pre c :
  Forall is_word words -> join sep words = pre ++ [c] -> isspace c = false.
Proof.
  intros Hw. revert pre. induction Hw as [|w ws [Hne Hw] Hws IH]; intros pre E.
  - destruct pre; discriminate.
  - cbn [join] in E. destruct ws as [|w2 ws'].
    + apply Hw. rewrite E. apply in_or_app. right. left. reflexivity.
    + destruct (exists_last (l := join sep (w2 :: ws'))) as (pre' & c' & E').
      { inversion Hws as [|? ? [Hne2 _] _]; subst.
        destruct w2; [congruence|]. cbn [join]. destruct ws'; discriminate. }
      rewrite E', !app_assoc in E. apply app_inj_tail in E. destruct E as [_ <-].
      apply (IH pre'). assumption.
Qed.

Lemma normalize_name_words (suffixes : list string) (name : pystr) :
  exists words,
    normalize_name_with suffixes name = join (py " ") words
    /\ Forall is_word words.
Proof.
  unfold normalize_name_with.
  match goal with
  | |- context [split_ws ?s] => exists (split_ws s); pose proof (split_ws_words s) as Hw
  end.
  split; [|assumption].
  apply strip_keep.
  - intros c t. apply join_head. assumption.
  - intros pre c. apply join_last. assumption.
Qed.

End NameKeyShape.

(** X9.  A name key is whitespace-canonical in both scripts: it is a
    sequence of non-empty words, none containing a whitespace character,
    joined by single blanks; so it neither starts nor ends with
    whitespace and has no two blanks in a row. *)
Theorem normalize_name_canonical {U : Unicode} (name : pystr) :
  (exists words,
      Dedup.normalize_name name = join (py " ") words
      /\ Forall (fun w => w <> [] /\ forall c, In c w -> isspace c = false) words)
  /\ (exists words,
         Enrich.normalize_name name = join (py " ") words
         /\ Forall (fun w => w <> [] /\ forall c, In c w -> isspace c = false)
                   words).
Proof.
  split; apply normalize_name_words.
Qed.

(** ** Batches *)

Lemma chunks_go_spec (n : nat) (fuel : nat) (l : list pystr) :
  0 < n -> List.length l <= fuel ->
  List.concat (Enrich.chunks_go fuel n l) = l
  /\ Forall (fun b => 0 < List.length b <= n) (Enrich.chunks_go fuel n l).
Proof.
  intros Hn. revert l. induction fuel as [|fuel IH]; intros l Hl.
  - destruct l; [|simpl in Hl; lia]. cbn. auto.
  - cbn [Enrich.chunks_go]. destruct l as [|x t] eqn:El; [cbn; auto|].
    rewrite <- El in *.
    destruct (IH (skipn n l)) as [Hcat Hall].
    { rewrite length_skipn. subst l. cbn [List.length] in *. lia. }
    cbn [List.concat]. rewrite Hcat, firstn_skipn. split; [reflexivity|].
    constructor; [|assumption].
    rewrite length_firstn. subst l. cbn [List.length]. lia.
Qed.

(** X10.  The batches sent to the classifier cover the unresolved values
    exactly once and in order, and every batch holds between 1 and 50
    values. *)
Theorem chunks_cover (l : list pystr) :
  List.concat (Enrich.chunks 50 l) = l
  /\ Forall (fun b => 0 < List.length b <= 50) (Enrich.chunks 50 l).
Proof.
  unfold Enrich.chunks. apply chunks_go_spec; lia.
Qed.

(** ** The industry caches *)

Section UpdateLemmas.
Context {K : Type} `{BEq K} {V : Type}.
Implicit Types (d : dict K V) (k : K).

Lemma update_other d d' k :
  ~ In k (keys d') -> dget (update d d') k = dget d k.
Proof.
  unfold update. revert d. induction d' as [|[k0 v0] t IH]; intros d Hk.
  - reflexivity.
  - cbn [fold_left fst snd]. cbn [keys map fst] in Hk.
    rewrite IH by (intros ?; apply Hk; right; assumption).
    apply dget_dset_ne. intros ->. apply Hk. left. reflexivity.
Qed.

Lemma update_contains d d' k :
  dget d k <> None -> dget (update d d') k <> None.
Proof.
  unfold update. revert d. induction d' as [|[k0 v0] t IH]; intros d Hk.
  - assumption.
  - cbn [fold_left fst snd]. apply IH. rewrite dget_dset.
    destruct (beq k k0); [discriminate | assumption].
Qed.

Lemma update_from d d' k v :
  NoDup (keys d') -> dget d' k = Some v -> dget (update d d') k = Some v.
Proof.
  unfold update. revert d. induction d' as [|[k0 v0] t IH]; intros d Hnd Hk.
  - discriminate.
  - cbn [fold_left fst snd]. cbn [keys map fst] in Hnd.
    inversion Hnd as [|? ? Hk0 Hnd']; subst. cbn [dget] in Hk.
    destruct (beq k k0) eqn:E.
    + apply beq_eq in E. subst k0. inversion Hk; subst.
      change (fold_left (fun acc kv => dset acc (fst kv) (snd kv)) t (dset d k v))
        with (update (dset d k v) t).
      rewrite update_other by assumption. apply dget_dset_eq.
    + apply IH; assumption.
Qed.

Lemma NoDup_keys_update d d' : NoDup (keys d) -> NoDup (keys (update d d')).
Proof.
  unfold update. revert d. induction d' as [|[k0 v0] t IH]; intros d Hnd.
  - assumption.
  - cbn [fold_left]. apply IH. apply NoDup_keys_dset. assumption.
Qed.

End UpdateLemmas.

Section ResolverLemmas.
Variable classifier : list pystr -> Enrich.reply.

Lemma ai_results_keys (batch : list pystr) k :
  (forall mapping, classifier batch = Enrich.Mapping mapping ->
                   forall k, In k (keys mapping) -> In k batch) ->
  In k (keys (fst (Enrich._ai_map_industries classifier batch))) -> In k batch.
Proof.
  intros Hm. unfold Enrich._ai_map_industries.
  destruct batch as [|b0 bt]; [intros []|].
  destruct (classifier (b0 :: bt)) as [| |mapping] eqn:Ec; try (intros []).
  intros Hk. apply (Hm mapping eq_refl).
  destruct (in_dec (fun x y => list_eq_dec N.eq_dec x y) k (keys mapping))
    as [Hin|Hout]; [assumption|].
  exfalso. unfold Enrich.validate in Hk.
  destruct (Enrich.validate_loop mapping [] []) as [[res|e] log'] eqn:E;
    cbn [fst] in Hk; [|destruct Hk].
  pose proof (@validate_loop_other _ _ _ _ _ k E Hout) as Hv.
  cbn [dget] in Hv. apply dget_None in Hv. contradiction.
Qed.

Lemma resolve_batch_keys (batches : list (list pystr))
      (acc : dict pystr pystr * list Enrich.log_line) :
  NoDup (keys (fst acc)) ->
  NoDup (keys (fst (fold_left (Enrich.resolve_batch classifier) batches acc))).
Proof.
  revert acc. induction batches as [|b t IH]; intros acc Hnd; [assumption|].
  cbn [fold_left]. apply IH. unfold Enrich.resolve_batch.
  destruct (Enrich._ai_map_industries classifier b) as [res w]. cbn [fst].
  apply NoDup_keys_update. assumption.
Qed.

Lemma resolve_batches_contains (batches : list (list pystr))
      (acc : dict pystr pystr * list Enrich.log_line) k :
  dget (fst acc) k <> None ->
  dget (fst (fold_left (Enrich.resolve_batch classifier) batches acc)) k <> None.
Proof.
  revert acc. induction batches as [|b t IH]; intros acc Hk; [assumption|].
  cbn [fold_left]. apply IH. unfold Enrich.resolve_batch.
  destruct (Enrich._ai_map_industries classifier b) as [res w]. cbn [fst].
  apply update_contains. assumption.
Qed.

Lemma resolve_batches_preserve (batches : list (list pystr))
      (acc : dict pystr pystr * list Enrich.log_line) k :
  (forall b mapping, classifier b = Enrich.Mapping mapping ->
                     forall k, In k (keys mapping) -> In k b) ->
  (forall b, In b batches -> ~ In k b) ->
  dget (fst (fold_left (Enrich.resolve_batch classifier) batches acc)) k
  = dget (fst acc) k.
Proof.
  intros Hm. revert acc. induction batches as [|b t IH]; intros acc Hb;
    [reflexivity|].
  cbn [fold_left]. rewrite IH by (intros b' Hb'; apply Hb; right; assumption).
  unfold Enrich.resolve_batch.
  pose proof (@ai_results_keys b k (Hm b)) as Hkeys.
  destruct (Enrich._ai_map_industries classifier b) as [res w]. cbn [fst] in *.
  apply update_other. intros Hin. apply (Hb b (or_introl eq_refl)). auto.
Qed.

Lemma resolve_batches_valued (batches : list (list pystr))
      (acc : dict pystr pystr * list Enrich.log_line) :
  enum_valued (fst acc) ->
  enum_valued (fst (fold_left (Enrich.resolve_batch classifier) batches acc)).
Proof.
  revert acc. induction batches as [|b t IH]; intros acc Hacc; [assumption|].
  cbn [fold_left]. apply IH. unfold Enrich.resolve_batch.
  pose proof (ai_map_industries_valued classifier b) as Hval.
  destruct (Enrich._ai_map_industries classifier b) as [res w]. cbn [fst] in *.
  unfold update. clear -Hacc Hval. revert Hacc. generalize (fst acc).
  induction res as [|[k v] res IH]; intros d Hd; [assumption|].
  cbn [fold_left fst snd]. apply IH.
  - intros k' v' Hin. apply (Hval k' v'). right. assumption.
  - apply enum_valued_dset; [assumption|]. apply (Hval k v). left. reflexivity.
Qed.

End ResolverLemmas.

Lemma enum_valued_update (d d' : dict pystr pystr) :
  enum_valued d -> enum_valued d' -> enum_valued (update d d').
Proof.
  unfold update. revert d. induction d' as [|[k v] t IH]; intros d Hd Hd';
    [assumption|].
  cbn [fold_left fst snd]. apply IH.
  - apply enum_valued_dset; [assumption|]. apply (Hd' k v). left. reflexivity.
  - intros k' v' Hin. apply (Hd' k' v'). right. assumption.
Qed.

(** The caches that [resolve_industry_cache] ends with, for a non-empty
    argument, as a run over batches of values not yet cached. *)
Lemma resolve_unfold classifier set_order (r0 : pystr) (raw : list pystr)
      (st : Enrich.caches) :
  exists batches log0,
    (forall b x, In b batches -> In x b ->
                 In x (set_order
                         (filter (fun v => nonempty v && negb (Enrich.is_enum v))
                                 (r0 :: raw)))
                 /\ contains (Enrich.on_disk st) x = false)
    /\ fst (Enrich.resolve_industry_cache classifier set_order (r0 :: raw) st)
       = {| Enrich.on_disk :=
              fst (fold_left (Enrich.resolve_batch classifier) batches
                             (Enrich.on_disk st, log0));
            Enrich.in_memory :=
              update (Enrich.in_memory st)
                     (fst (fold_left (Enrich.resolve_batch classifier) batches
                                     (Enrich.on_disk st, log0))) |}.
Proof.
  unfold Enrich.resolve_industry_cache.
  set (unique := set_order _).
  set (uncached := filter (fun v => negb (contains (Enrich.on_disk st) v)) unique).
  assert (Hunc : forall x, In x uncached ->
                           In x unique /\ contains (Enrich.on_disk st) x = false).
  { intros x Hx. apply filter_In in Hx. destruct Hx as [Hx Hc].
    split; [assumption|]. apply negb_true_iff. assumption. }
  destruct (chunks_cover uncached) as [Hcat _].
  set (batches := Enrich.chunks 50 uncached) in *.
  cbv zeta.
  set (log0 := [Enrich.InfoMapping _ _ _]).
  clearbody batches log0. clearbody uncached.
  destruct uncached as [|u us].
  - exists [], log0. split; [intros b x []|]. reflexivity.
  - exists batches, log0. split.
    + intros b x Hb Hx. apply Hunc. rewrite <- Hcat. apply in_concat. eauto.
    + destruct (fold_left (Enrich.resolve_batch classifier) batches
                  (Enrich.on_disk st, log0)) as [cache' log]. reflexivity.
Qed.

(** X11.  The cache only grows: a key of the cache file is still a key of
    it after [resolve_industry_cache], and a key of the dictionary inside
    [map_industry] is still one; and after a call with a non-empty list of
    values, on a cache file without repeated keys, the dictionary inside
    [map_industry] gives for every key of the file the value the file
    has. *)
Theorem cache_only_grows (classifier : list pystr -> Enrich.reply)
        (set_order : list pystr -> list pystr)
        (raw_values : list pystr) (st : Enrich.caches) (k : pystr) :
  let st' := fst (Enrich.resolve_industry_cache classifier set_order raw_values st) in
  (dget (Enrich.on_disk st) k <> None -> dget (Enrich.on_disk st') k <> None)
  /\ (dget (Enrich.in_memory st) k <> None -> dget (Enrich.in_memory st') k <> None)
  /\ (raw_values <> [] -> NoDup (keys (Enrich.on_disk st)) ->
      forall v, dget (Enrich.on_disk st') k = Some v ->
                dget (Enrich.in_memory st') k = Some v).
Proof.
  destruct raw_values as [|r0 raw].
  - cbn. repeat split; auto. congruence.
  - destruct (resolve_unfold classifier set_order r0 raw st) as (batches & log0 & _ & ->).
    cbn [fst Enrich.on_disk Enrich.in_memory]. repeat split.
    + apply (@resolve_batches_contains classifier batches (Enrich.on_disk st, log0) k).
    + apply update_contains.
    + intros _ Hnd v Hv. apply update_from; [|assumption].
      apply (@resolve_batch_keys classifier batches (Enrich.on_disk st, log0)).
      assumption.
Qed.

Definition scenario_caches : Enrich.caches :=
  {| Enrich.on_disk := [(py "Airlines", py "AIRLINES_AVIATION")];
     Enrich.in_memory := [] |}.

Lemma cache_only_grows_witness :
  dget (Enrich.in_memory
          (fst (Enrich.resolve_industry_cache scenario_classifier (fun l => l)
                  [py "Hospitals"; py "Trucking"] scenario_caches)))
       (py "Hospitals")
  = Some (py "HOSPITAL_HEALTH_CARE").
Proof.
  apply (@cache_only_grows scenario_classifier (fun l => l)
           [py "Hospitals"; py "Trucking"] scenario_caches (py "Hospitals")).
  - discriminate.
  - repeat constructor; simpl; intuition discriminate.
  - vm_compute. reflexivity.
Defined.

(** X12.  When the classifier answers only for values of the batch it was
    sent, and the set of values is iterated without inventing any, the
    entries the cache file already had are left exactly as they were. *)
Theorem cached_entries_preserved (classifier : list pystr -> Enrich.reply)
        (set_order : list pystr -> list pystr)
        (raw_values : list pystr) (st : Enrich.caches) (k v : pystr) :
  (forall b mapping, classifier b = Enrich.Mapping mapping ->
                     forall k, In k (keys mapping) -> In k b) ->
  dget (Enrich.on_disk st) k = Some v ->
  dget (Enrich.on_disk
          (fst (Enrich.resolve_industry_cache classifier set_order raw_values st)))
       k = Some v.
Proof.
  intros Hm Hk. destruct raw_values as [|r0 raw]; [assumption|].
  destruct (resolve_unfold classifier set_order r0 raw st) as (batches & log0 & Hb & ->).
  cbn [fst Enrich.on_disk].
  rewrite (@resolve_batches_preserve classifier batches (Enrich.on_disk st, log0) k Hm).
  - assumption.
  - intros b Hin Hkb. destruct (Hb b k Hin Hkb) as [_ Hc].
    unfold contains in Hc. rewrite Hk in Hc. discriminate.
Qed.

(** A classifier that files every value under one industry. *)
Definition retail_classifier (batch : list pystr) : Enrich.reply :=
  Enrich.Mapping (map (fun v => (v, Enrich.JString (py "RETAIL"))) batch).

Lemma cached_entries_preserved_witness :
  dget (Enrich.on_disk
          (fst (Enrich.resolve_industry_cache retail_classifier (fun l => l)
                  [py "Hospitals"; py "Trucking"; py "Banks"] scenario_caches)))
       (py "Airlines")
  = Some (py "AIRLINES_AVIATION").
Proof.
  apply (@cached_entries_preserved retail_classifier (fun l => l)).
  - intros b mapping Hc k Hk. inversion Hc; subst. clear Hc.
    unfold keys in Hk. rewrite map_map in Hk. cbn [fst] in Hk.
    rewrite map_id in Hk. exact Hk.
  - reflexivity.
Defined.

Lemma filter_none {A} (f : A -> bool) (l : list A) :
  (forall x, In x l -> f x = false) -> filter f l = [].
Proof.
  induction l as [|x t IH]; intros Hl; [reflexivity|].
  cbn [filter]. rewrite (Hl x (or_introl eq_refl)). apply IH.
  intros y Hy. apply Hl. right. assumption.
Qed.

(** X13.  When every value is empty, already an enum member or already a
    key of the cache file (and the set of values is iterated without
    inventing any), [resolve_industry_cache] leaves the file as it is and,
    for a non-empty argument, prints its summary line and nothing else: no
    batch is announced, no warning, no save.  The classifier plays no part:
    with any other one the call comes to the same. *)
Theorem nothing_to_resolve (classifier : list pystr -> Enrich.reply)
        (set_order : list pystr -> list pystr)
        (raw_values : list pystr) (st : Enrich.caches) :
  (forall l x, In x (set_order l) -> In x l) ->
  (forall v, In v raw_values ->
             v = [] \/ Enrich.is_enum v = true
             \/ contains (Enrich.on_disk st) v = true) ->
  Enrich.on_disk
    (fst (Enrich.resolve_industry_cache classifier set_order raw_values st))
  = Enrich.on_disk st
  /\ snd (Enrich.resolve_industry_cache classifier set_order raw_values st)
     = match raw_values with
       | [] => []
       | _ :: _ =>
           let unique :=
             List.length
               (set_order
                  (filter (fun v => nonempty v && negb (Enrich.is_enum v))
                          raw_values)) in
           [Enrich.InfoMapping unique unique 0]
       end
  /\ forall classifier',
       Enrich.resolve_industry_cache classifier' set_order raw_values st
       = Enrich.resolve_industry_cache classifier set_order raw_values st.
Proof.
  intros Hset Hknown.
  assert (Hnone : forall raw,
             raw = raw_values ->
             filter (fun v => negb (contains (Enrich.on_disk st) v))
                    (set_order
                       (filter (fun v => nonempty v && negb (Enrich.is_enum v))
                               raw)) = []).
  { intros raw ->. apply filter_none.
    intros x Hx. apply Hset in Hx. apply filter_In in Hx. destruct Hx as [Hx Hf].
    apply andb_true_iff in Hf. destruct Hf as [Hne Henum].
    destruct (Hknown x Hx) as [->|[He|Hc]].
    - discriminate Hne.
    - rewrite He in Henum. discriminate Henum.
    - rewrite Hc. reflexivity. }
  unfold Enrich.resolve_industry_cache.
  destruct raw_values as [|r0 raw]; [auto|].
  cbv zeta. rewrite (Hnone (r0 :: raw) eq_refl). cbn [List.length fst snd].
  rewrite Nat.sub_0_r. auto.
Qed.

Lemma nothing_to_resolve_witness :
  Enrich.on_disk
    (fst (Enrich.resolve_industry_cache retail_classifier (fun l => l)
            [py "Airlines"; py "BANKING"; py ""] scenario_caches))
  = [(py "Airlines", py "AIRLINES_AVIATION")]
  /\ snd (Enrich.resolve_industry_cache retail_classifier (fun l => l)
            [py "Airlines"; py "BANKING"; py ""] scenario_caches)
     = [Enrich.InfoMapping 1 1 0].
Proof.
  destruct (@nothing_to_resolve retail_classifier (fun l => l)
              [py "Airlines"; py "BANKING"; py ""] scenario_caches)
    as (Hfile & Hlog & _).
  - intros l x Hx. exact Hx.
  - intros v [<-|[<-|[<-|[]]]].
    + right. right. vm_compute. reflexivity.
    + right. left. vm_compute. reflexivity.
    + left. reflexivity.
  - split; [exact Hfile|]. rewrite Hlog. vm_compute. reflexivity.
Defined.

Lemma map_industry_enum_or_empty (raw : pyval) (cache : dict pystr pystr) :
  enum_valued cache ->
  Enrich.map_industry raw cache = []
  \/ Enrich.is_enum (Enrich.map_industry raw cache) = true.
Proof.
  intros Hc. unfold Enrich.map_industry.
  destruct (negb (nonempty (or_empty raw))); [left; reflexivity|].
  destruct (Enrich.is_enum (or_empty raw)) eqn:He; [right; assumption|].
  destruct (dget cache (or_empty raw)) as [v|] eqn:Ev; [|left; reflexivity].
  right. apply (Hc (or_empty raw) v). apply dget_In. assumption.
Qed.

(** X14.  Resolution never lets garbage through: if the cache file and the
    dictionary inside [map_industry] hold only enum members as values,
    then after [resolve_industry_cache], whatever the classifier answered,
    [map_industry] returns for every argument either the empty string or an
    enum member. *)
Theorem resolved_industry_is_enum (classifier : list pystr -> Enrich.reply)
        (set_order : list pystr -> list pystr)
        (raw_values : list pystr) (st : Enrich.caches) (raw : pyval) :
  enum_valued (Enrich.on_disk st) ->
  enum_valued (Enrich.in_memory st) ->
  let st' := fst (Enrich.resolve_industry_cache classifier set_order raw_values st) in
  Enrich.map_industry raw (Enrich.in_memory st') = []
  \/ Enrich.is_enum (Enrich.map_industry raw (Enrich.in_memory st')) = true.
Proof.
  intros Hdisk Hmem st'. apply map_industry_enum_or_empty. subst st'.
  destruct raw_values as [|r0 raw0]; [assumption|].
  destruct (resolve_unfold classifier set_order r0 raw0 st) as (batches & log0 & _ & ->).
  cbn [fst Enrich.in_memory]. apply enum_valued_update; [assumption|].
  apply (@resolve_batches_valued classifier batches (Enrich.on_disk st, log0)).
  assumption.
Qed.

Lemma resolved_industry_is_enum_witness :
  Enrich.map_industry (PyStr (py "Trucking"))
    (Enrich.in_memory
       (fst (Enrich.resolve_industry_cache scenario_classifier (fun l => l)
               [py "Hospitals"; py "Trucking"] scenario_caches))) = []
  \/ Enrich.is_enum
       (Enrich.map_industry (PyStr (py "Trucking"))
          (Enrich.in_memory
             (fst (Enrich.resolve_industry_cache scenario_classifier (fun l => l)
                     [py "Hospitals"; py "Trucking"] scenario_caches)))) = true.
Proof.
  apply (@resolved_industry_is_enum scenario_classifier (fun l => l)
           [py "Hospitals"; py "Trucking"] scenario_caches
           (PyStr (py "Trucking"))).
  - intros k v [E|[]]. inversion E; subst. vm_compute. reflexivity.
  - intros k v [].
Defined.

(** ** Lookup tables built in one pass *)

Section Tables.
Context {K : Type} `{BEq K} {X : Type}.
Variable key : X -> K.
Variable ok : K -> bool.

(** [if ok(k) and k not in d: d[k] = x] *)
Definition put_first (d : dict K X) (x : X) : dict K X :=
  if ok (key x) && negb (contains d (key x)) then dset d (key x) x else d.

(** [if ok(k): d[k] = x] *)
Definition put_last (d : dict K X) (x : X) : dict K X :=
  if ok (key x) then dset d (key x) x else d.

Lemma put_first_get (xs : list X) (d : dict K X) (k : K) :
  dget (fold_left put_first xs d) k
  = match dget d k with
    | Some v => Some v
    | None => if ok k then find (fun x => beq k (key x)) xs else None
    end.
Proof.
  revert d. induction xs as [|x xs IH]; intros d.
  - cbn. destruct (dget d k); [|destruct (ok k)]; reflexivity.
  - cbn [fold_left find]. rewrite IH. unfold put_first, contains.
    destruct (beq k (key x)) eqn:E.
    + apply beq_eq in E. subst k.
      destruct (dget d (key x)) as [v|] eqn:Ed.
      * rewrite andb_false_r, Ed. reflexivity.
      * cbn [negb]. rewrite andb_true_r. destruct (ok (key x)).
        -- rewrite dget_dset_eq. reflexivity.
        -- rewrite Ed. reflexivity.
    + destruct (ok (key x) && negb match dget d (key x) with
                                   | Some _ => true | None => false end);
        [|reflexivity].
      rewrite dget_dset_ne by (apply beq_neq; assumption). reflexivity.
Qed.

Lemma put_last_get (xs : list X) (d : dict K X) (k : K) :
  dget (fold_left put_last xs d) k
  = if ok k
    then match find (fun x => beq k (key x)) (rev xs) with
         | Some x => Some x
         | None => dget d k
         end
    else dget d k.
Proof.
  induction xs as [|x xs IH] using rev_ind.
  - cbn. destruct (ok k); reflexivity.
  - rewrite fold_left_app, rev_app_distr. cbn [fold_left rev app find].
    unfold put_last at 1. destruct (beq k (key x)) eqn:E.
    + apply beq_eq in E. subst k. destruct (ok (key x)).
      * apply dget_dset_eq.
      * rewrite IH. destruct (ok (key x)) eqn:E'; [|reflexivity].
        destruct (ok (key x)); reflexivity.
    + destruct (ok (key x)); [|exact IH].
      rewrite dget_dset_ne by (apply beq_neq; assumption). exact IH.
Qed.

Lemma put_last_contains (xs : list X) (k : K) :
  contains (fold_left put_last xs []) k = true
  <-> ok k = true /\ exists x, In x xs /\ key x = k.
Proof.
  unfold contains. rewrite put_last_get. cbn [dget].
  destruct (ok k); [|split; [discriminate | intros [? _]; discriminate]].
  destruct (find (fun x => beq k (key x)) (rev xs)) as [x|] eqn:Ef.
  - apply find_some in Ef. destruct Ef as [Hx Ek]. apply beq_eq in Ek.
    split; [|reflexivity]. intros _. split; [reflexivity|].
    exists x. split; [apply in_rev; assumption | congruence].
  - split; [discriminate|]. intros (_ & x & Hx & Ek).
    apply (find_none _ _ Ef) in Hx || (apply in_rev in Hx; apply (find_none _ _ Ef) in Hx).
    rewrite Ek, beq_refl in Hx. discriminate.
Qed.

(** A set filled with the usable keys. *)
Lemma set_fill_In (add : K -> list K -> list K) (xs : list X) (s : list K) (k : K) :
  (forall x s k, In k (add x s) <-> k = x \/ In k s) ->
  In k (fold_left (fun s x => if ok (key x) then add (key x) s else s) xs s)
  <-> In k s \/ (ok k = true /\ exists x, In x xs /\ key x = k).
Proof.
  intros Hadd. revert s. induction xs as [|x xs IH]; intros s; cbn [fold_left].
  - split; [auto|]. intros [Hs|(_ & x & [] & _)]. assumption.
  - rewrite IH. split.
    + intros [Hs|(Hok & y & Hy & Ey)].
      * destruct (ok (key x)) eqn:Eo; [|auto].
        apply Hadd in Hs. destruct Hs as [->|Hs]; [|auto].
        right. split; [assumption|]. exists x. split; [left|]; reflexivity.
      * right. split; [assumption|]. exists y. split; [right|]; assumption.
    + intros [Hs|(Hok & y & [<-|Hy] & Ey)].
      * left. destruct (ok (key x)); [apply Hadd; right|]; assumption.
      * left. subst k. rewrite Hok. apply Hadd. left. reflexivity.
      * right. split; [assumption|]. exists y. auto.
Qed.

End Tables.

Lemma fold_left_pair {A B X} (f : A -> X -> A) (g : B -> X -> B)
      (xs : list X) (acc : A * B) :
  fold_left (fun acc x => (f (fst acc) x, g (snd acc) x)) xs acc
  = (fold_left f xs (fst acc), fold_left g xs (snd acc)).
Proof.
  revert acc. induction xs as [|x xs IH]; intros [a b]; [reflexivity|].
  cbn [fold_left fst snd]. rewrite IH. reflexivity.
Qed.

(** ** The cross-reference with the Master List *)

Section CrossReference.
Context {U : Unicode}.
Import Dedup.

Definition profile_name_key (p : profile) : pystr :=
  normalize_name (stripped (field p "fullName")).

Definition profile_url_key (p : profile) : pystr :=
  normalize_url (field p "defaultProfileUrl").

(** The contact and the profile have the same non-empty name key or the
    same non-empty URL key. *)
Definition same_person (c : contact) (p : profile) : Prop :=
  (name_key c = profile_name_key p /\ name_key c <> [])
  \/ (url_key c = profile_url_key p /\ url_key c <> []).

Lemma nonempty_true (s : pystr) : nonempty s = true <-> s <> [].
Proof. destruct s; cbn; split; congruence. Qed.

Lemma set_add_In (x : pystr) (s : list pystr) (k : pystr) :
  In k (set_add x s) <-> k = x \/ In k s.
Proof.
  unfold set_add. destruct (mem x s) eqn:E.
  - apply mem_In in E. split; [auto|]. intros [->|Hk]; assumption.
  - rewrite in_app_iff. cbn [In]. intuition.
Qed.

Lemma check_fold_snd master (cs : list contact) (acc : list contact * list contact) :
  snd (fold_left (check_step master) cs acc)
  = snd acc
      ++ filter (fun c => negb (contains (fst master) (name_key c)
                                || contains (snd master) (url_key c))) cs.
Proof.
  revert acc. induction cs as [|c cs IH]; intros acc.
  - cbn. rewrite app_nil_r. reflexivity.
  - cbn [fold_left filter]. rewrite IH. unfold check_step.
    fold (name_key c). fold (url_key c).
    destruct (contains (fst master) (name_key c)
              || contains (snd master) (url_key c)); cbn [negb snd].
    + reflexivity.
    + rewrite <- app_assoc. reflexivity.
Qed.

Lemma master_tables (ps : list profile) :
  fold_left master_step ps ([], [])
  = (fold_left (put_last profile_name_key nonempty) ps [],
     fold_left (put_last profile_url_key nonempty) ps []).
Proof.
  apply (fold_left_pair (put_last profile_name_key nonempty)
                        (put_last profile_url_key nonempty) ps ([], [])).
Qed.

Lemma hs_sets (cs : list contact) :
  fold_left hs_step cs ([], [])
  = (fold_left (fun s c => if nonempty (name_key c)
                           then set_add (name_key c) s else s) cs [],
     fold_left (fun s c => if nonempty (url_key c)
                           then set_add (url_key c) s else s) cs []).
Proof.
  apply (fold_left_pair
           (fun s c => if nonempty (name_key c) then set_add (name_key c) s else s)
           (fun s c => if nonempty (url_key c) then set_add (url_key c) s else s)
           cs ([], [])).
Qed.

End CrossReference.

(** X15.  [cross_reference] uses one and the same matching in both
    directions: a contact is reported as missing from the Master List
    exactly when no profile has its non-empty name key or its non-empty URL
    key, and a profile is reported as missing from HubSpot exactly when no
    contact has its non-empty name key or its non-empty URL key; so a
    contact and a profile that match are both left out of the two reports,
    and a record with neither key is always reported. *)
Theorem cross_reference_spec {U : Unicode} (contacts : list Dedup.contact)
        (master_profiles : list Dedup.profile) :
  (forall c,
      In c (fst (Dedup.cross_reference contacts master_profiles))
      <-> In c contacts
          /\ forall p, In p master_profiles -> ~ same_person c p)
  /\ (forall p,
         In p (snd (Dedup.cross_reference contacts master_profiles))
         <-> In p master_profiles
             /\ forall c, In c contacts -> ~ same_person c p).
Proof.
  unfold Dedup.cross_reference. cbn [fst snd].
  rewrite master_tables, hs_sets. cbn [fst snd]. split.
  - intros c. rewrite check_fold_snd. cbn [fst snd app].
    rewrite filter_In, negb_true_iff, orb_false_iff. split.
    + intros (Hc & Hn & Hu). split; [assumption|].
      intros p Hp [[E Hne]|[E Hne]].
      * assert (Hin : contains (fold_left (put_last profile_name_key nonempty)
                                          master_profiles []) (name_key c) = true).
        { apply put_last_contains. split; [apply nonempty_true; assumption|].
          exists p. auto. }
        congruence.
      * assert (Hin : contains (fold_left (put_last profile_url_key nonempty)
                                          master_profiles []) (url_key c) = true).
        { apply put_last_contains. split; [apply nonempty_true; assumption|].
          exists p. auto. }
        congruence.
    + intros (Hc & Hno). split; [assumption|]. split.
      * destruct (contains _ (name_key c)) eqn:E; [|reflexivity].
        apply put_last_contains in E. destruct E as (Hne & p & Hp & Ek).
        exfalso. apply (Hno p Hp). left.
        split; [auto | apply nonempty_true; assumption].
      * destruct (contains _ (url_key c)) eqn:E; [|reflexivity].
        apply put_last_contains in E. destruct E as (Hne & p & Hp & Ek).
        exfalso. apply (Hno p Hp). right.
        split; [auto | apply nonempty_true; assumption].
  - intros p. rewrite filter_In, andb_true_iff, !negb_true_iff.
    fold (profile_name_key p). fold (profile_url_key p).
    rewrite !mem_not_In.
    rewrite (@set_fill_In pystr Dedup.contact name_key nonempty Dedup.set_add
               contacts [] (profile_name_key p) set_add_In).
    rewrite (@set_fill_In pystr Dedup.contact url_key nonempty Dedup.set_add
               contacts [] (profile_url_key p) set_add_In).
    cbn [In].
    split.
    + intros (Hp & Hn & Hu). split; [assumption|].
      intros c Hc [[E Hne]|[E Hne]].
      * apply Hn. right. rewrite <- E.
        split; [apply nonempty_true; assumption|]. exists c. auto.
      * apply Hu. right. rewrite <- E.
        split; [apply nonempty_true; assumption|]. exists c. auto.
    + intros (Hp & Hno). split; [assumption|]. split.
      * intros [[]|(Hne & c & Hc & Ek)]. apply (Hno c Hc). left.
        split; [assumption|]. rewrite Ek. apply nonempty_true. assumption.
      * intros [[]|(Hne & c & Hc & Ek)]. apply (Hno c Hc). right.
        split; [assumption|]. rewrite Ek. apply nonempty_true. assumption.
Qed.

(** ** The lookups of the enrichment script *)

Section EnrichLookups.
Context {U : Unicode}.

Definition master_key (p : Enrich.profile) : pystr :=
  Enrich.normalize_name (stripped (Enrich.field p "fullName")).

Definition scraper_name_key (p : Enrich.profile) : pystr :=
  Enrich.normalize_name
    (strip (Enrich.formatted p "firstName" ++ py " "
            ++ Enrich.formatted p "lastName")).

Definition scraper_url_key (p : Enrich.profile) : pystr :=
  rstrip (py "/")
         (lower (strip (or_empty (Enrich.field p "linkedinProfileUrl")))).

Lemma scraper_tables (ps : list Enrich.profile) :
  Enrich.build_scraper_lookup ps
  = (fold_left (put_first scraper_name_key nonempty) ps [],
     fold_left (put_last scraper_url_key nonempty) ps []).
Proof.
  apply (fold_left_pair (put_first scraper_name_key nonempty)
                        (put_last scraper_url_key nonempty) ps ([], [])).
Qed.

End EnrichLookups.

(** X16.  In [build_master_lookup] the first profile wins: under a
    non-empty name key the lookup holds the first profile of
    [synced + unsynced] with that key (so a synced profile takes precedence
    over an unsynced one of the same name), and the empty key is never
    stored. *)
Theorem build_master_lookup_first {U : Unicode}
        (synced unsynced : list Enrich.profile) (k : pystr) :
  dget (Enrich.build_master_lookup synced unsynced) k
  = if nonempty k
    then find (fun p => beq k (Enrich.normalize_name
                                 (stripped (Enrich.field p "fullName"))))
              (synced ++ unsynced)
    else None.
Proof.
  unfold Enrich.build_master_lookup.
  apply (put_first_get master_key nonempty (synced ++ unsynced) [] k).
Qed.

(** X17.  [build_scraper_lookup] resolves repeated keys in opposite ways:
    by name the first row with the key is kept, by URL the last one; and
    neither table has the empty key. *)
Theorem build_scraper_lookup_order {U : Unicode}
        (scraper_profiles : list Enrich.profile) (k : pystr) :
  dget (fst (Enrich.build_scraper_lookup scraper_profiles)) k
  = (if nonempty k
     then find (fun p => beq k (scraper_name_key p)) scraper_profiles
     else None)
  /\ dget (snd (Enrich.build_scraper_lookup scraper_profiles)) k
     = (if nonempty k
        then find (fun p => beq k (scraper_url_key p)) (rev scraper_profiles)
        else None).
Proof.
  rewrite scraper_tables. cbn [fst snd]. split.
  - apply (put_first_get scraper_name_key nonempty scraper_profiles [] k).
  - rewrite put_last_get. cbn [dget].
    destruct (nonempty k); [|reflexivity].
    destruct (find _ (rev scraper_profiles)); reflexivity.
Qed.

(** ** [parse_location] *)

Section ParseLocation.
Context {U : Unicode}.

Lemma split_on_no_sep (sep : N) (s : pystr) :
  forall w, In w (split_on sep s) -> ~ In sep w.
Proof.
  induction s as [|c t IH]; cbn [split_on].
  - intros w [<-|[]] [].
  - destruct (N.eqb c sep) eqn:E.
    + intros w [<-|Hw]; [intros [] | auto].
    + destruct (split_on sep t) as [|w0 ws].
      * intros w [<-|[]] [->|[]]. rewrite N.eqb_refl in E. discriminate.
      * intros w [<-|Hw].
        -- intros [->|Hin]; [rewrite N.eqb_refl in E; discriminate|].
           apply (IH w0 (or_introl eq_refl)). assumption.
        -- apply IH. right. assumption.
Qed.

Lemma split_on_single (sep : N) (s : pystr) :
  ~ In sep s -> split_on sep s = [s].
Proof.
  induction s as [|c t IH]; intros Hs; cbn [split_on]; [reflexivity|].
  destruct (N.eqb c sep) eqn:E.
  - apply N.eqb_eq in E. exfalso. apply Hs. left. assumption.
  - rewrite IH by (intros ?; apply Hs; right; assumption). reflexivity.
Qed.

Lemma split_on_length (sep : N) (s : pystr) :
  In sep s -> 2 <= List.length (split_on sep s).
Proof.
  induction s as [|c t IH]; [intros []|]. cbn [split_on].
  assert (Hpos : 1 <= List.length (split_on sep t)).
  { destruct t; cbn [split_on]; [cbn; lia|].
    destruct (N.eqb n sep); [cbn; lia|].
    destruct (split_on sep t); cbn; lia. }
  destruct (N.eqb c sep) eqn:E.
  - intros _. cbn [List.length]. lia.
  - intros [->|Hin]; [rewrite N.eqb_refl in E; discriminate|].
    specialize (IH Hin). destruct (split_on sep t); cbn [List.length] in *; lia.
Qed.

Lemma dropwhile_sub (p : N -> bool) (s : pystr) c :
  In c (dropwhile p s) -> In c s.
Proof.
  induction s as [|x t IH]; cbn [dropwhile]; [auto|].
  destruct (p x); [intros Hc; right; auto | auto].
Qed.

Lemma strip_sub (s : pystr) c : In c (strip s) -> In c s.
Proof.
  unfold strip, rstrip_by, lstrip_by. intros Hc.
  apply in_rev in Hc. apply dropwhile_sub in Hc. apply in_rev in Hc.
  apply dropwhile_sub in Hc. assumption.
Qed.

Lemma parts_no_comma (s : pystr) (i : nat) :
  ~ In 44%N (nth i (map strip (split_on 44 s)) []).
Proof.
  destruct (nth_in_or_default i (map strip (split_on 44 s)) []) as [Hin|E];
    [|rewrite E; intros []].
  apply in_map_iff in Hin. destruct Hin as (w & <- & Hw).
  intros Hc. apply strip_sub in Hc. eapply split_on_no_sep; eauto.
Qed.

End ParseLocation.

(** X18.  [parse_location] never returns a comma in any of its three
    components; a location without a comma comes back whole as the city
    (not trimmed), with empty state and country; and a location with a
    comma has its city trimmed: it is the trimmed text before the first
    comma. *)
Theorem parse_location_spec {U : Unicode} (location_str : pystr) :
  (~ In 44%N (fst (fst (Enrich.parse_location location_str)))
   /\ ~ In 44%N (snd (fst (Enrich.parse_location location_str)))
   /\ ~ In 44%N (snd (Enrich.parse_location location_str)))
  /\ (~ In 44%N location_str ->
      Enrich.parse_location location_str = (location_str, [], []))
  /\ (In 44%N location_str ->
      fst (fst (Enrich.parse_location location_str))
      = strip (takewhile (fun c => negb (N.eqb c 44)) location_str)).
Proof.
  unfold Enrich.parse_location. split; [|split].
  - destruct (negb (nonempty location_str)); [cbn; tauto|].
    destruct (3 <=? List.length (map strip (split_on 44 location_str))) eqn:E3;
      [cbn [fst snd]; repeat split; apply parts_no_comma|].
    destruct (List.length (map strip (split_on 44 location_str)) =? 2) eqn:E2;
      cbn [fst snd].
    + repeat split; try apply parts_no_comma. intros [].
    + repeat split; try (intros []).
      intros Hc. apply (split_on_length 44) in Hc.
      rewrite length_map in E3, E2.
      apply Nat.leb_gt in E3. apply Nat.eqb_neq in E2. lia.
  - intros Hs. destruct location_str as [|c t]; [reflexivity|].
    cbn [nonempty negb]. rewrite (split_on_single 44 (c :: t) Hs). reflexivity.
  - intros Hc. destruct location_str as [|c t]; [destruct Hc|].
    cbn [nonempty negb].
    assert (Hlen := split_on_length 44 (c :: t) Hc).
    rewrite <- (length_map strip) in Hlen.
    assert (H0 : nth 0 (map strip (split_on 44 (c :: t))) []
                 = strip (takewhile (fun c => negb (N.eqb c 44)) (c :: t))).
    { rewrite <- split_on_first.
      destruct (split_on 44 (c :: t)); [cbn in Hlen; lia | reflexivity]. }
    destruct (3 <=? _) eqn:E3; [exact H0|].
    destruct (_ =? 2) eqn:E2; [exact H0|].
    apply Nat.leb_gt in E3. apply Nat.eqb_neq in E2. lia.
Qed.

Lemma parse_location_spec_witness :
  Enrich.parse_location (py " Oslo ") = (py " Oslo ", [], [])
  /\ fst (fst (Enrich.parse_location (py " Bergen , Vestland, Norway")))
     = strip (takewhile (fun c => negb (N.eqb c 44))
                        (py " Bergen , Vestland, Norway")).
Proof.
  destruct (@parse_location_spec ascii_tables (py " Oslo ")) as (_ & Hwhole & _).
  destruct (@parse_location_spec ascii_tables (py " Bergen , Vestland, Norway"))
    as (_ & _ & Hcity).
  split.
  - apply Hwhole. vm_compute. intuition discriminate.
  - apply Hcity. vm_compute. intuition.
Defined.

Definition ann_profile : Dedup.profile :=
  [("fullName"%string, PyStr (py "Ann Lee (she/her)"))].

Lemma cross_reference_spec_witness :
  In bob (fst (Dedup.cross_reference [ann; bob] [ann_profile]))
  /\ ~ In ann (fst (Dedup.cross_reference [ann; bob] [ann_profile])).
Proof.
  destruct (@cross_reference_spec ascii_tables [ann; bob] [ann_profile])
    as [Hcontacts _].
  split.
  - apply Hcontacts. split; [simpl; auto|].
    intros p [<-|[]] [[E _]|[E _]]; vm_compute in E; discriminate E.
  - intros Hin. apply Hcontacts in Hin. destruct Hin as [_ Hno].
    apply (Hno ann_profile); [left; reflexivity|].
    left. split; [vm_compute; reflexivity | vm_compute; discriminate].
Defined.

Lemma returned_groups_disjoint_witness :
  2 <= List.length [ann; ann2; a_lee]
  /\ NoDup (map Dedup.id [ann; ann2; a_lee]).
Proof.
  destruct (@returned_groups_disjoint ascii_tables [ann; bob; ann2; a_lee])
    as (_ & Hgroups & _).
  destruct (Hgroups 0 [ann; ann2; a_lee]) as (Hlen & Hids & _).
  - vm_compute. left. reflexivity.
  - split; assumption.
Defined.

(** ** Groups are the classes of the matching relation *)

Lemma key_match_shares {U : Unicode} (contacts : list Dedup.contact) a b :
  key_match contacts a b -> shares_key contacts a b.
Proof.
  intros (Ha & Hb & Hab & Hkey). split; [assumption|].
  destruct Hkey as [[Heq Hlen]|[Heq Hne]].
  - assert (Hea : Dedup.name_entry a = Some (name_key a, a)).
    { unfold Dedup.name_entry. fold (name_key a).
      apply Nat.ltb_lt in Hlen. rewrite Hlen.
      destruct (name_key a); [discriminate Hlen | reflexivity]. }
    assert (Heb : Dedup.name_entry b = Some (name_key a, b)).
    { unfold Dedup.name_entry. fold (name_key b). rewrite <- Heq.
      apply Nat.ltb_lt in Hlen. rewrite Hlen.
      destruct (name_key a); [discriminate Hlen | reflexivity]. }
    destruct (@group_by_filed _ _ _ _ Dedup.name_entry contacts a (name_key a) a
                Ha Hea) as (bucket & Hk & Hain).
    destruct (@group_by_filed _ _ _ _ Dedup.name_entry contacts b (name_key a) b
                Hb Heb) as (bucket' & Hk' & Hbin).
    assert (bucket' = bucket) by congruence. subst bucket'.
    exists (name_key a), bucket. auto.
  - assert (Hea : Dedup.url_entry a = Some (url_key a, a)).
    { unfold Dedup.url_entry. fold (url_key a).
      destruct (url_key a); [congruence | reflexivity]. }
    assert (Heb : Dedup.url_entry b = Some (url_key a, b)).
    { unfold Dedup.url_entry. fold (url_key b). rewrite <- Heq.
      destruct (url_key a); [congruence | reflexivity]. }
    destruct (@group_by_filed _ _ _ _ Dedup.url_entry contacts a (url_key a) a
                Ha Hea) as (bucket & Hk & Hain).
    destruct (@group_by_filed _ _ _ _ Dedup.url_entry contacts b (url_key a) b
                Hb Heb) as (bucket' & Hk' & Hbin).
    assert (bucket' = bucket) by congruence. subst bucket'.
    exists (url_key a), bucket. auto.
Qed.

Lemma match_chain_ends {U : Unicode} (contacts : list Dedup.contact) a b :
  clos_trans Dedup.contact (key_match contacts) a b ->
  In a contacts /\ In b contacts
  /\ clos_trans Dedup.contact (shares_key contacts) a b.
Proof.
  induction 1 as [a b Hm | a b c _ (Ha & _ & H1) _ (_ & Hc & H2)].
  - pose proof Hm as (Ha & Hb & _). repeat split; try assumption.
    apply t_step, key_match_shares. exact Hm.
  - repeat split; try assumption. eapply t_trans; eauto.
Qed.

(** X2.  With unique ids, the groups of [find_duplicates] are exactly the
    classes of the matching relation: two different contacts are returned
    in one group if and only if a chain of contacts of the list links them,
    each one matching the next on the name key (longer than two
    characters) or on the non-empty URL key.  In particular contacts that
    match nobody are never grouped. *)
Theorem same_group_iff_chain {U : Unicode} (contacts : list Dedup.contact)
        (a b : Dedup.contact) :
  NoDup (map Dedup.id contacts) -> a <> b ->
  ((exists gid group,
       In (gid, group) (Dedup.find_duplicates contacts)
       /\ In a group /\ In b group)
   <-> clos_trans Dedup.contact (key_match contacts) a b).
Proof.
  intros Hnd Hab. split.
  - intros (gid & group & Hin & Ha & Hb).
    destruct (@grouped_only_if_matched U contacts gid group a b Hnd Hin Ha Hb)
      as [E|Hc]; [contradiction | assumption].
  - intros Hc. destruct (match_chain_ends Hc) as (Ha & Hb & Hs).
    destruct (@chain_same U contacts a b Hs) as (g & Hga & Hgb).
    destruct (@returned_together U contacts [a; b] g a b Hnd) as (group & Hin & Hall).
    + intros m [<-|[<-|[]]]; auto.
    + simpl; auto.
    + simpl; auto.
    + assumption.
    + exists g, group. repeat split; [assumption | apply Hall ..]; simpl; auto.
Qed.

Lemma same_group_iff_chain_witness :
  clos_trans Dedup.contact (key_match [ann; bob; ann2; a_lee]) ann a_lee.
Proof.
  apply (@same_group_iff_chain ascii_tables [ann; bob; ann2; a_lee] ann a_lee).
  - repeat constructor; simpl; intuition discriminate.
  - discriminate.
  - exists 0, [ann; ann2; a_lee]. split; [vm_compute; left; reflexivity|].
    simpl; auto.
Defined.

(** ** [compute_updates] *)

Section ComputeUpdatesLemmas.
Context {U : Unicode}.
Variable cache : dict pystr pystr.
Variable props : Enrich.profile.

(** What every entry of [updates] satisfies, at each point of the
    function. *)
Definition fills_blanks (updates : dict string pystr) : Prop :=
  forall f v, dget updates f = Some v ->
    Enrich.blank props f = true
    /\ (f <> "industry"%string -> v <> [])
    /\ (f = "industry"%string ->
        exists raw, v = Enrich.map_industry raw cache).

Lemma fills_blanks_nil : fills_blanks [].
Proof. intros f v H. discriminate H. Qed.

Lemma fills_blanks_dset updates f v :
  fills_blanks updates -> Enrich.blank props f = true ->
  f <> "industry"%string -> v <> [] -> fills_blanks (dset updates f v).
Proof.
  intros Hu Hb Hf Hv g w. rewrite dget_dset.
  destruct (beq g f) eqn:E.
  - apply beq_eq in E. subst g. intros [= <-].
    split; [assumption|]. split; [auto | contradiction].
  - apply Hu.
Qed.

Lemma fills_blanks_industry updates raw :
  fills_blanks updates -> Enrich.blank props "industry" = true ->
  fills_blanks (dset updates "industry"%string (Enrich.map_industry raw cache)).
Proof.
  intros Hu Hb g w. rewrite dget_dset.
  destruct (beq g "industry"%string) eqn:E.
  - apply beq_eq in E. subst g. intros [= <-].
    split; [assumption|]. split; [congruence | eauto].
  - apply Hu.
Qed.

Lemma fill_strict_fills m f k updates updates' :
  f <> "industry"%string -> fills_blanks updates ->
  Enrich.fill_strict props m f k updates = Ok updates' ->
  fills_blanks updates'.
Proof.
  intros Hf Hu. unfold Enrich.fill_strict.
  destruct (Enrich.blank props f) eqn:Hb; [|intros [= <-]; exact Hu].
  destruct (Enrich.strip_dyn (Enrich.get_default m k)) as [v|e];
    [|discriminate].
  intros [= <-]. destruct (nonempty v) eqn:Hv; [|exact Hu].
  apply fills_blanks_dset; try assumption. apply nonempty_true; exact Hv.
Qed.

Lemma fill_fills f v updates :
  f <> "industry"%string -> fills_blanks updates ->
  fills_blanks (Enrich.fill props f v updates).
Proof.
  intros Hf Hu. unfold Enrich.fill.
  destruct (nonempty v) eqn:Hv; [|exact Hu].
  destruct (Enrich.blank props f) eqn:Hb; [|exact Hu].
  apply fills_blanks_dset; try assumption. apply nonempty_true; exact Hv.
Qed.

Lemma fill_new_fills f v updates :
  f <> "industry"%string -> fills_blanks updates ->
  fills_blanks (Enrich.fill_new props f v updates).
Proof.
  intros Hf Hu. unfold Enrich.fill_new.
  destruct (nonempty v) eqn:Hv; [|exact Hu].
  destruct (Enrich.blank props f) eqn:Hb; [|exact Hu].
  destruct (contains updates f); [exact Hu|].
  apply fills_blanks_dset; try assumption. apply nonempty_true; exact Hv.
Qed.

Lemma master_updates_fills m updates updates' :
  fills_blanks updates ->
  Enrich.master_updates cache props m updates = Ok updates' ->
  fills_blanks updates'.
Proof.
  intros Hu. unfold Enrich.master_updates.
  destruct (Enrich.fill_strict props m "jobtitle" "jobTitle" updates)
    as [u1|] eqn:E1; [|discriminate].
  apply fill_strict_fills in E1; [|discriminate|assumption].
  destruct (Enrich.fill_strict props m "company" "company" u1)
    as [u2|] eqn:E2; [|discriminate].
  apply fill_strict_fills in E2; [|discriminate|assumption].
  match goal with
  | |- context [Enrich.fill_strict props m "hs_linkedin_url" _ ?u] =>
      assert (H3 : fills_blanks u)
  end.
  { destruct (Enrich.blank props "industry") eqn:Hb; [|assumption].
    cbv zeta. destruct (nonempty _); [|assumption].
    apply fills_blanks_industry; assumption. }
  match goal with
  | |- context [Enrich.fill_strict props m "hs_linkedin_url" _ ?u] =>
      generalize dependent u; intros u3 H3
  end.
  destruct (Enrich.fill_strict props m "hs_linkedin_url" "defaultProfileUrl" u3)
    as [u4|] eqn:E4; [|discriminate].
  apply fill_strict_fills in E4; [|discriminate|assumption].
  cbv zeta. intros [= <-].
  destruct (nonempty _); [|assumption].
  repeat (apply fill_fills; [discriminate|]). assumption.
Qed.

Lemma scraper_updates_fills s updates :
  fills_blanks updates ->
  fills_blanks (Enrich.scraper_updates cache props s updates).
Proof.
  intros Hu. unfold Enrich.scraper_updates. cbv zeta.
  repeat (apply fill_fills; [discriminate|]).
  destruct (nonempty (stripped (Enrich.field s "location"))).
  - repeat (apply fill_new_fills; [discriminate|]).
    match goal with
    | |- fills_blanks (if ?c then _ else _) => destruct c eqn:Hc
    end.
    + apply andb_prop in Hc. destruct Hc as [Hc _].
      apply andb_prop in Hc. destruct Hc as [_ Hb].
      apply fills_blanks_industry; [|assumption].
      repeat (apply fill_new_fills; [discriminate|]).
      apply fill_fills; [discriminate | assumption].
    + repeat (apply fill_new_fills; [discriminate|]).
      apply fill_fills; [discriminate | assumption].
  - repeat (apply fill_new_fills; [discriminate|]).
    match goal with
    | |- fills_blanks (if ?c then _ else _) => destruct c eqn:Hc
    end.
    + apply andb_prop in Hc. destruct Hc as [Hc _].
      apply andb_prop in Hc. destruct Hc as [_ Hb].
      apply fills_blanks_industry; [|assumption].
      repeat (apply fill_new_fills; [discriminate|]).
      apply fill_fills; [discriminate | assumption].
    + repeat (apply fill_new_fills; [discriminate|]).
      apply fill_fills; [discriminate | assumption].
Qed.

End ComputeUpdatesLemmas.

(** X19.  [compute_updates] only fills gaps: every property it proposes is
    one the HubSpot contact has blank (missing, [None] or white space), so
    no value of the contact is ever overwritten; every proposed value is a
    non-empty string, except that of [industry], which is what
    [map_industry] returns and so, when the cache holds only HubSpot
    enumeration values, is such a value or the empty string. *)
Theorem compute_updates_fills_blanks {U : Unicode}
        (cache : dict pystr pystr) (hs_contact : Dedup.contact)
        (master_profile scraper_profile : option Enrich.profile)
        (updates : dict string pystr) (f : string) (v : pystr) :
  Enrich.compute_updates cache hs_contact master_profile scraper_profile
  = Ok updates ->
  dget updates f = Some v ->
  Enrich.blank (Dedup.properties hs_contact) f = true
  /\ (f <> "industry"%string -> v <> [])
  /\ (f = "industry"%string -> enum_valued cache ->
      v = [] \/ Enrich.is_enum v = true).
Proof.
  unfold Enrich.compute_updates. cbv zeta. intros H Hget.
  assert (Hinv : fills_blanks cache (Dedup.properties hs_contact) updates).
  { destruct (Enrich.given master_profile) as [m|].
    - destruct (Enrich.master_updates cache (Dedup.properties hs_contact) m [])
        as [u|] eqn:Em; [|discriminate].
      apply master_updates_fills in Em; [|apply fills_blanks_nil].
      injection H as <-.
      destruct (Enrich.given scraper_profile) as [s|]; [|assumption].
      apply scraper_updates_fills; assumption.
    - injection H as <-.
      destruct (Enrich.given scraper_profile) as [s|];
        [|apply fills_blanks_nil].
      apply scraper_updates_fills, fills_blanks_nil. }
  destruct (Hinv f v Hget) as (Hb & Hne & Hind).
  split; [assumption|]. split; [assumption|].
  intros Hf Hc. destruct (Hind Hf) as (raw & ->).
  apply map_industry_enum_or_empty; assumption.
Qed.

Section ComputeUpdatesErrors.
Context {U : Unicode}.
Variable cache : dict pystr pystr.
Variable props : Enrich.profile.

(** The three places where the Master List value is read with
    [master_profile.get(k, '').strip()]: the HubSpot property and the key of
    the profile. *)
Definition strict_fields : list (string * string) :=
  [("jobtitle", "jobTitle"); ("company", "company");
   ("hs_linkedin_url", "defaultProfileUrl")]%string.

(** The contact lacks [f] and the profile holds [None] under [k]. *)
Definition null_hit (m : Enrich.profile) (f k : string) : Prop :=
  Enrich.blank props f = true /\ dget m k = Some PyNone.

Lemma fill_strict_raise m f k updates e :
  Enrich.fill_strict props m f k updates = Raise e
  <-> e = AttributeError /\ null_hit m f k.
Proof.
  unfold Enrich.fill_strict, Enrich.get_default, null_hit.
  destruct (Enrich.blank props f).
  - destruct (dget m k) as [[|s]|]; cbn [Enrich.strip_dyn].
    + split; [intros [= <-]; auto | intros (-> & _); reflexivity].
    + split; [discriminate | intros (_ & _ & H); discriminate H].
    + split; [discriminate | intros (_ & _ & H); discriminate H].
  - split; [discriminate | intros (_ & H & _); discriminate H].
Qed.

Lemma master_updates_raise m updates e :
  Enrich.master_updates cache props m updates = Raise e
  <-> e = AttributeError
      /\ exists f k, In (f, k) strict_fields /\ null_hit m f k.
Proof.
  unfold Enrich.master_updates, strict_fields.
  destruct (Enrich.fill_strict props m "jobtitle" "jobTitle" updates)
    as [u1|e1] eqn:E1.
  2:{ apply fill_strict_raise in E1. destruct E1 as (-> & H1).
      split; [intros [= <-]; split; [reflexivity|] | intros (-> & _); reflexivity].
      exists "jobtitle"%string, "jobTitle"%string. simpl; auto. }
  assert (N1 : ~ null_hit m "jobtitle" "jobTitle").
  { intros H. assert (Enrich.fill_strict props m "jobtitle" "jobTitle" updates
                      = Raise AttributeError) by (apply fill_strict_raise; auto).
    congruence. }
  destruct (Enrich.fill_strict props m "company" "company" u1)
    as [u2|e2] eqn:E2.
  2:{ apply fill_strict_raise in E2. destruct E2 as (-> & H2).
      split; [intros [= <-]; split; [reflexivity|] | intros (-> & _); reflexivity].
      exists "company"%string, "company"%string. simpl; auto. }
  assert (N2 : ~ null_hit m "company" "company").
  { intros H. assert (Enrich.fill_strict props m "company" "company" u1
                      = Raise AttributeError) by (apply fill_strict_raise; auto).
    congruence. }
  cbv zeta.
  match goal with
  | |- context [Enrich.fill_strict props m "hs_linkedin_url" _ ?u] =>
      generalize u; intros u3
  end.
  destruct (Enrich.fill_strict props m "hs_linkedin_url" "defaultProfileUrl" u3)
    as [u4|e4] eqn:E4.
  2:{ apply fill_strict_raise in E4. destruct E4 as (-> & H4).
      split; [intros [= <-]; split; [reflexivity|] | intros (-> & _); reflexivity].
      exists "hs_linkedin_url"%string, "defaultProfileUrl"%string. simpl; auto. }
  assert (N4 : ~ null_hit m "hs_linkedin_url" "defaultProfileUrl").
  { intros H.
    assert (Enrich.fill_strict props m "hs_linkedin_url" "defaultProfileUrl" u3
            = Raise AttributeError) by (apply fill_strict_raise; auto).
    congruence. }
  split; [discriminate|].
  intros (_ & f & k & Hin & Hhit). exfalso.
  destruct Hin as [E|[E|[E|[]]]]; inversion E; subst; tauto.
Qed.

End ComputeUpdatesErrors.

(** X20.  [compute_updates] fails in exactly one situation, and then with
    [AttributeError]: a non-empty Master List profile is given that holds
    [None] under [jobTitle], [company] or [defaultProfileUrl] while the
    contact lacks the corresponding property ([jobtitle], [company],
    [hs_linkedin_url]).  A scraper row never makes it fail, and neither
    does a [None] under any other key. *)
Theorem compute_updates_raises {U : Unicode}
        (cache : dict pystr pystr) (hs_contact : Dedup.contact)
        (master_profile scraper_profile : option Enrich.profile) (e : exn) :
  Enrich.compute_updates cache hs_contact master_profile scraper_profile
  = Raise e
  <-> e = AttributeError
      /\ exists m f k,
           Enrich.given master_profile = Some m
           /\ In (f, k) strict_fields
           /\ Enrich.blank (Dedup.properties hs_contact) f = true
           /\ dget m k = Some PyNone.
Proof.
  unfold Enrich.compute_updates. cbv zeta.
  destruct (Enrich.given master_profile) as [m|].
  - destruct (Enrich.master_updates cache (Dedup.properties hs_contact) m [])
      as [u|e'] eqn:Em.
    + split; [discriminate|].
      intros (-> & m' & f & k & [= <-] & Hin & Hb & Hk).
      assert (Enrich.master_updates cache (Dedup.properties hs_contact) m []
              = Raise AttributeError).
      { apply master_updates_raise. split; [reflexivity|].
        exists f, k. split; [assumption | split; assumption]. }
      congruence.
    + apply master_updates_raise in Em.
      destruct Em as (-> & f & k & Hin & Hb & Hk).
      split.
      * intros [= <-]. split; [reflexivity|]. exists m, f, k. auto.
      * intros (-> & _). reflexivity.
  - split; [discriminate|].
    intros (_ & m & f & k & H & _). discriminate H.
Qed.

Section ComputeUpdatesPriority.
Context {U : Unicode}.
Variable cache : dict pystr pystr.
Variable props : Enrich.profile.

Lemma contains_Some {V} (d : dict string V) k x :
  dget d k = Some x -> contains d k = true.
Proof. unfold contains. intros ->. reflexivity. Qed.

Lemma fill_ne g v updates f :
  g <> f -> dget (Enrich.fill props g v updates) f = dget updates f.
Proof.
  intros Hne. unfold Enrich.fill.
  destruct (nonempty v && Enrich.blank props g); [|reflexivity].
  apply dget_dset_ne. congruence.
Qed.

Lemma fill_new_keeps g v updates f x :
  dget updates f = Some x ->
  dget (Enrich.fill_new props g v updates) f = Some x.
Proof.
  intros Hf. unfold Enrich.fill_new.
  destruct (nonempty v && Enrich.blank props g); cbn [andb]; [|assumption].
  destruct (contains updates g) eqn:Hc; cbn [negb]; [assumption|].
  rewrite dget_dset. destruct (beq f g) eqn:E; [|assumption].
  apply beq_eq in E. subst g.
  rewrite (@contains_Some _ _ _ _ Hf) in Hc. discriminate Hc.
Qed.

Lemma fill_strict_ne m g k updates updates' f :
  Enrich.fill_strict props m g k updates = Ok updates' ->
  g <> f -> dget updates' f = dget updates f.
Proof.
  unfold Enrich.fill_strict. intros H Hne.
  destruct (Enrich.blank props g); [|injection H as <-; reflexivity].
  destruct (Enrich.strip_dyn (Enrich.get_default m k)) as [w|];
    [|discriminate].
  injection H as <-. destruct (nonempty w); [|reflexivity].
  apply dget_dset_ne. congruence.
Qed.

Lemma fill_strict_sets m f k v updates :
  Enrich.blank props f = true -> dget m k = Some (PyStr v) ->
  strip v <> [] ->
  Enrich.fill_strict props m f k updates = Ok (dset updates f (strip v)).
Proof.
  intros Hb Hk Hv. unfold Enrich.fill_strict, Enrich.get_default.
  rewrite Hb, Hk. cbn [Enrich.strip_dyn].
  apply nonempty_true in Hv. rewrite Hv. reflexivity.
Qed.

Lemma master_updates_sets m f k v updates updates' :
  In (f, k) strict_fields ->
  Enrich.blank props f = true -> dget m k = Some (PyStr v) ->
  strip v <> [] ->
  Enrich.master_updates cache props m updates = Ok updates' ->
  dget updates' f = Some (strip v).
Proof.
  intros Hin Hb Hk Hv. unfold Enrich.master_updates.
  destruct (Enrich.fill_strict props m "jobtitle" "jobTitle" updates)
    as [u1|] eqn:E1; [|discriminate].
  destruct (Enrich.fill_strict props m "company" "company" u1)
    as [u2|] eqn:E2; [|discriminate].
  match goal with
  | |- context [Enrich.fill_strict props m "hs_linkedin_url" _ ?u] =>
      assert (H3 : f <> "industry"%string -> dget u f = dget u2 f)
  end.
  { intros Hf. destruct (Enrich.blank props "industry"); [|reflexivity].
    cbv zeta. destruct (nonempty _); [|reflexivity].
    apply dget_dset_ne. assumption. }
  match goal with
  | |- context [Enrich.fill_strict props m "hs_linkedin_url" _ ?u] =>
      generalize dependent u; intros u3 H3
  end.
  destruct (Enrich.fill_strict props m "hs_linkedin_url" "defaultProfileUrl" u3)
    as [u4|] eqn:E4; [|discriminate].
  cbv zeta. intros [= <-].
  assert (H5 : f <> "city"%string -> f <> "country"%string ->
               f <> "state"%string ->
               dget (if nonempty
                          (Enrich.first_truthy (Enrich.field m "bestLocation")
                                               (Enrich.field m "location"))
                     then
                       Enrich.fill props "city"
                         (fst (fst (Enrich.parse_location
                            (Enrich.first_truthy (Enrich.field m "bestLocation")
                                                 (Enrich.field m "location")))))
                         (Enrich.fill props "country"
                            (snd (Enrich.parse_location
                               (Enrich.first_truthy (Enrich.field m "bestLocation")
                                                    (Enrich.field m "location"))))
                            (Enrich.fill props "state"
                               (snd (fst (Enrich.parse_location
                                  (Enrich.first_truthy
                                     (Enrich.field m "bestLocation")
                                     (Enrich.field m "location")))))
                               u4))
                     else u4) f = dget u4 f).
  { intros F1 F2 F3. destruct (nonempty _); [|reflexivity].
    rewrite !fill_ne by congruence. reflexivity. }
  unfold strict_fields in Hin.
  destruct Hin as [E|[E|[E|[]]]]; inversion E; subst f k; clear E;
    (rewrite H5 by discriminate).
  - rewrite (@fill_strict_ne _ _ _ _ _ "jobtitle"%string E4) by discriminate.
    rewrite H3 by discriminate.
    rewrite (@fill_strict_ne _ _ _ _ _ "jobtitle"%string E2) by discriminate.
    rewrite (@fill_strict_sets _ _ _ _ updates Hb Hk Hv) in E1. injection E1 as <-.
    apply dget_dset_eq.
  - rewrite (@fill_strict_ne _ _ _ _ _ "company"%string E4) by discriminate.
    rewrite H3 by discriminate.
    rewrite (@fill_strict_sets _ _ _ _ u1 Hb Hk Hv) in E2. injection E2 as <-.
    apply dget_dset_eq.
  - rewrite (@fill_strict_sets _ _ _ _ u3 Hb Hk Hv) in E4. injection E4 as <-.
    apply dget_dset_eq.
Qed.

Lemma scraper_updates_keeps s updates f x :
  f <> "email"%string -> f <> "linkedin_headline"%string ->
  f <> "school_name"%string -> f <> "school_degree"%string ->
  f <> "previous_company_name"%string ->
  f <> "previous_company_position"%string ->
  f <> "job_location"%string -> f <> "linkedin_company_slug"%string ->
  dget updates f = Some x ->
  dget (Enrich.scraper_updates cache props s updates) f = Some x.
Proof.
  intros F1 F2 F3 F4 F5 F6 F7 F8 Hf. unfold Enrich.scraper_updates. cbv zeta.
  rewrite !fill_ne by congruence.
  assert (Hind : forall u v, dget u f = Some x ->
            dget (if nonempty v && Enrich.blank props "industry"
                     && negb (contains u "industry"%string)
                  then dset u "industry"%string
                            (Enrich.map_industry (PyStr v) cache)
                  else u) f = Some x).
  { intros u v Hu.
    destruct (nonempty v && Enrich.blank props "industry"); cbn [andb];
      [|assumption].
    destruct (contains u "industry"%string) eqn:Hc; cbn [negb]; [assumption|].
    rewrite dget_dset. destruct (beq f "industry"%string) eqn:E; [|assumption].
    apply beq_eq in E. subst f.
    rewrite (@contains_Some _ _ _ _ Hu) in Hc. discriminate Hc. }
  destruct (nonempty (stripped (Enrich.field s "location")));
    repeat apply fill_new_keeps; apply Hind; repeat apply fill_new_keeps;
    rewrite fill_ne by congruence; assumption.
Qed.

End ComputeUpdatesPriority.

(** X21.  The Master List has priority for the job title, the company and
    the LinkedIn URL: when the contact lacks the property and the Master
    List profile holds a value that is not blank, [compute_updates]
    proposes that value, stripped, whatever the scraper row says. *)
Theorem master_value_has_priority {U : Unicode}
        (cache : dict pystr pystr) (hs_contact : Dedup.contact)
        (m : Enrich.profile) (scraper_profile : option Enrich.profile)
        (updates : dict string pystr) (f k : string) (v : pystr) :
  In (f, k) strict_fields ->
  Enrich.blank (Dedup.properties hs_contact) f = true ->
  dget m k = Some (PyStr v) -> strip v <> [] ->
  Enrich.compute_updates cache hs_contact (Some m) scraper_profile
  = Ok updates ->
  dget updates f = Some (strip v).
Proof.
  intros Hin Hb Hk Hv. unfold Enrich.compute_updates. cbv zeta.
  assert (Hg : Enrich.given (Some m) = Some m).
  { destruct m; [discriminate Hk | reflexivity]. }
  rewrite Hg.
  destruct (Enrich.master_updates cache (Dedup.properties hs_contact) m [])
    as [u|] eqn:Em; [|discriminate].
  intros [= <-].
  pose proof (@master_updates_sets U cache (Dedup.properties hs_contact) m f k v [] u Hin Hb Hk Hv Em) as Hu.
  destruct (Enrich.given scraper_profile) as [s|]; [|assumption].
  unfold strict_fields in Hin.
  destruct Hin as [E|[E|[E|[]]]]; inversion E; subst f k;
    apply scraper_updates_keeps; (discriminate || assumption).
Qed.

Definition acme_master : Enrich.profile :=
  [("jobTitle", PyStr (py "CTO")); ("company", PyStr (py " Acme "))]%string.

Definition acme_row : Enrich.profile :=
  [("professionalEmail", PyStr (py "ann@acme.io"));
   ("companyName", PyStr (py "Other"))]%string.

Lemma compute_updates_fills_blanks_witness :
  Enrich.blank (Dedup.properties (with_props 7 [("jobtitle", "CEO")]%string))
               "company" = true
  /\ ("company"%string <> "industry"%string -> py "Acme" <> [])
  /\ ("company"%string = "industry"%string -> enum_valued [] ->
      py "Acme" = [] \/ Enrich.is_enum (py "Acme") = true).
Proof.
  apply (@compute_updates_fills_blanks ascii_tables []
           (with_props 7 [("jobtitle", "CEO")]%string)
           (Some acme_master) (Some acme_row)
           [("company", py "Acme"); ("email", py "ann@acme.io")]%string
           "company"%string (py "Acme")).
  - vm_compute. reflexivity.
  - vm_compute. reflexivity.
Defined.

Lemma master_value_has_priority_witness :
  dget [("jobtitle", py "CTO"); ("company", py "Acme");
        ("email", py "ann@acme.io")]%string "company"%string
  = Some (@strip ascii_tables (py " Acme ")).
Proof.
  apply (@master_value_has_priority ascii_tables []
           (with_props 8 [("city", "Oslo")]%string)
           acme_master (Some acme_row)
           [("jobtitle", py "CTO"); ("company", py "Acme");
            ("email", py "ann@acme.io")]%string
           "company"%string "company"%string (py " Acme ")).
  - simpl; auto.
  - vm_compute. reflexivity.
  - reflexivity.
  - vm_compute. discriminate.
  - vm_compute. reflexivity.
Defined.

(** ** C1: transitive grouping *)

(** C1 (counterexample).  Two contacts called "Al", the second with the
    profile URL of a third contact: the first two have the same name key,
    which is not empty, the last two the same URL key, and the returned
    group holds the last two only. *)
Lemma short_name_link_dropped :
  Dedup.normalize_name (Dedup.contact_name (person 1 "Al" "" ""))
  = Dedup.normalize_name
      (Dedup.contact_name (person 2 "Al" "" "https://x/in/al"))
  /\ Dedup.normalize_name (Dedup.contact_name (person 1 "Al" "" "")) = py "al"
  /\ Dedup.normalize_url
       (Dedup.prop (person 2 "Al" "" "https://x/in/al") "hs_linkedin_url")
     = Dedup.normalize_url
         (Dedup.prop (person 3 "Bob" "Stone" "https://x/in/al/")
                     "hs_linkedin_url")
  /\ Dedup.find_duplicates
       [person 1 "Al" "" ""; person 2 "Al" "" "https://x/in/al";
        person 3 "Bob" "Stone" "https://x/in/al/"]
     = [(0, [person 2 "Al" "" "https://x/in/al";
             person 3 "Bob" "Stone" "https://x/in/al/"])].
Proof. repeat split; vm_compute; reflexivity. Qed.

(** C1 (amended).  For every contact list with unique ids: if A and B are
    different contacts of the list with equal name keys longer than two
    characters, or equal non-empty URL keys, and so are B and C (on a key of
    either kind), then one of the returned groups holds A, B and C, even
    when A and C share no key. *)
Theorem transitive_grouping {U : Unicode} (contacts : list Dedup.contact)
        (a b c : Dedup.contact) :
  NoDup (map Dedup.id contacts) ->
  key_match contacts a b -> key_match contacts b c ->
  exists gid group,
    In (gid, group) (Dedup.find_duplicates contacts)
    /\ In a group /\ In b group /\ In c group.
Proof.
  intros Hnd Hab Hbc.
  pose proof Hab as (Ha & Hb & Hne & _). pose proof Hbc as (_ & Hc & _).
  apply key_match_shares in Hab. apply key_match_shares in Hbc.
  destruct (@shares_key_same U contacts a b Hab) as (g & Hga & Hgb).
  destruct (@shares_key_same U contacts b c Hbc) as (g' & Hgb' & Hgc).
  assert (g' = g) by congruence. subst g'.
  destruct (@returned_together U contacts [a; b; c] g a b Hnd)
    as (group & Hin & Hall).
  - intros m [<-|[<-|[<-|[]]]]; auto.
  - simpl; auto.
  - simpl; auto.
  - assumption.
  - exists g, group. repeat split; [assumption | apply Hall ..]; simpl; auto.
Qed.

Lemma transitive_grouping_witness :
  exists gid group,
    In (gid, group) (Dedup.find_duplicates [ann; bob; ann2; a_lee])
    /\ In ann group /\ In ann2 group /\ In a_lee group.
Proof.
  apply (@transitive_grouping ascii_tables [ann; bob; ann2; a_lee]
           ann ann2 a_lee).
  - repeat constructor; simpl; intuition discriminate.
  - repeat split; [simpl; auto | simpl; auto | discriminate|].
    left. split; [vm_compute; reflexivity | vm_compute; lia].
  - repeat split; [simpl; auto | simpl; auto | discriminate|].
    right. split; [vm_compute; reflexivity | vm_compute; discriminate].
Defined.
